(** * cca_zoo.models.innerloop: alternating-optimisation inner loops

    A shallow embedding of [src/cca_zoo/models/innerloop.py] and the
    properties its specification states about it.

    Numbers.  numpy's float64 values are read as real numbers ([R]); the
    places where the float computation leaves the reals (a division by a
    zero norm, which numpy answers with [nan] or [inf]) are written out as
    the outcome [NonFinite]: Python computes on with the [nan], the
    embedding does not follow it there.  Arrays are lists: a vector is a
    [list R], a 2-d array the list of its rows; where the code mixes
    arrays of one and of two dimensions (the dual variables of the ADMM
    loop have shape (N,1)), the dimension is kept and numpy's broadcasting
    is written out.

    Objects.  The attributes of [_InnerLoop] and its subclasses are the
    fields of one record, [loop]; methods are state transformers over the
    object and the interpreter's environment (warning log, random source,
    standard output), and method overriding is dispatch on the class tag. *)

From Stdlib Require Import String Reals Lra Lia Psatz ZArith Bool List Sorted.
Import ListNotations.
Open Scope R_scope.

(** ** Outcomes of a Python call *)

Inductive exn : Type :=
| ValueError (msg : string)
| TypeError (msg : string)
| AttributeError (name : string)
| UnboundLocalError (name : string)
| IndexError
| AxisError
| RecursionError.

Inductive result (A : Type) : Type :=
| Ok (a : A)
| Raise (e : exn)
| NonFinite
| OutOfFuel.

Arguments Ok {A} a.
Arguments Raise {A} e.
Arguments NonFinite {A}.
Arguments OutOfFuel {A}.

Definition rbind {A B} (r : result A) (k : A -> result B) : result B :=
  match r with
  | Ok a => k a
  | Raise e => Raise e
  | NonFinite => NonFinite
  | OutOfFuel => OutOfFuel
  end.

Declare Scope result_scope.
Delimit Scope result_scope with result.
Notation "x <-r c ; k" := (rbind c (fun x => k))
  (at level 61, c at next level, right associativity) : result_scope.
Notation "' p <-r c ; k" := (rbind c (fun x => let 'p := x in k))
  (at level 61, p pattern, c at next level, right associativity) : result_scope.
Open Scope result_scope.

(** ** Vectors and matrices (numpy arrays over the reals) *)

Definition vec := list R.
Definition matrix := list vec.

Definition Rsum (l : list R) : R := fold_right Rplus 0 l.

Definition vzip (f : R -> R -> R) (a b : vec) : vec :=
  map (fun p => f (fst p) (snd p)) (combine a b).

Definition vadd : vec -> vec -> vec := vzip Rplus.
Definition vsub : vec -> vec -> vec := vzip Rminus.
Definition vscale (k : R) (a : vec) : vec := map (Rmult k) a.
Definition zeros (n : nat) : vec := repeat 0 n.
Definition ones (n : nat) : vec := repeat 1 n.

Definition dot (a b : vec) : R := Rsum (vzip Rmult a b).

(** [shape[0]] and [shape[1]] of a view. *)
Definition nrows (X : matrix) : nat := length X.
Definition ncols (X : matrix) : nat :=
  match X with [] => O | row :: _ => length row end.

(** [X @ w] *)
Definition matvec (X : matrix) (w : vec) : vec := map (fun row => dot row w) X.

(** [X.T @ y] *)
Definition tmatvec (X : matrix) (y : vec) : vec :=
  fold_right vadd (zeros (ncols X))
             (map (fun p => vscale (snd p) (fst p)) (combine X y)).

(** [np.linalg.norm(v, 1)], [np.linalg.norm(v)] and the Frobenius norm. *)
Definition norm1 (v : vec) : R := Rsum (map Rabs v).
Definition sumsq (v : vec) : R := Rsum (map (fun x => x * x) v).
Definition norm2 (v : vec) : R := sqrt (sumsq v).
Definition frobenius (X : matrix) : R := norm2 (concat X).

(** [v / d] elementwise.  A zero divisor takes a non-empty array out of
    the reals. *)
Definition vdiv (v : vec) (d : R) : result vec :=
  match v with
  | [] => Ok []
  | _ => if Req_dec_T d 0 then NonFinite else Ok (map (fun x => x / d) v)
  end.

Definition rdiv (x d : R) : result R :=
  if Req_dec_T d 0 then NonFinite else Ok (x / d).

(** [np.sign] *)
Definition sign (x : R) : R :=
  if Rlt_dec 0 x then 1 else if Rlt_dec x 0 then -1 else 0.

(** ** Arrays of one or two dimensions

    [Arr1 v] has shape (n,); [Arr2 m] has shape (rows, columns) and is
    the list of its rows.  As for a view, an array without rows is read
    as having no columns. *)
Inductive ndarray : Type :=
| Arr1 (v : vec)
| Arr2 (m : matrix).

(** The array of shape (N,1) with the entries of [v]. *)
Definition column (v : vec) : matrix := map (fun x => [x]) v.

(** The length that two axes of lengths [n] and [m] are broadcast to:
    they agree, or one of them is 1. *)
Definition broadcast_dim (n m : nat) : option nat :=
  if Nat.eqb n m then Some n
  else if Nat.eqb n 1 then Some m
  else if Nat.eqb m 1 then Some n
  else None.

(** An axis of length 1 repeated [n] times; any other axis as it is. *)
Definition stretch {A} (n : nat) (l : list A) : list A :=
  match l with
  | [a] => repeat a n
  | _ => l
  end.

(** [a op b] for arrays of two dimensions. *)
Definition mzip (f : R -> R -> R) (a b : matrix) : result matrix :=
  match broadcast_dim (nrows a) (nrows b), broadcast_dim (ncols a) (ncols b) with
  | Some r, Some k =>
    Ok (map (fun p => vzip f (stretch k (fst p)) (stretch k (snd p)))
            (combine (stretch r a) (stretch r b)))
  | _, _ => Raise (ValueError "operands could not be broadcast together")
  end.

(** [a op b]: an array of one dimension meets one of two as a single
    row. *)
Definition ndzip (f : R -> R -> R) (a b : ndarray) : result ndarray :=
  match a, b with
  | Arr1 u, Arr1 v =>
    match broadcast_dim (length u) (length v) with
    | Some k => Ok (Arr1 (vzip f (stretch k u) (stretch k v)))
    | None => Raise (ValueError "operands could not be broadcast together")
    end
  | Arr1 u, Arr2 m => r <-r mzip f [u] m ; Ok (Arr2 r)
  | Arr2 m, Arr1 v => r <-r mzip f m [v] ; Ok (Arr2 r)
  | Arr2 m, Arr2 m' => r <-r mzip f m m' ; Ok (Arr2 r)
  end.

Definition ndmap (f : R -> R) (a : ndarray) : ndarray :=
  match a with
  | Arr1 v => Arr1 (map f v)
  | Arr2 m => Arr2 (map (map f) m)
  end.

(** The rows of [X.T], the columns of [X]. *)
Definition transpose (X : matrix) : matrix :=
  map (fun j => map (fun row => nth j row 0) X) (seq 0 (ncols X)).

(** [X.T @ a] *)
Definition nd_tmatmul (X : matrix) (a : ndarray) : result ndarray :=
  match a with
  | Arr1 y => Ok (Arr1 (tmatvec X y))
  | Arr2 m =>
    if Nat.eqb (nrows X) (nrows m) then Ok (Arr2 (map (tmatvec m) (transpose X)))
    else Raise (ValueError "matmul: mismatch in the core dimension")
  end.

(** [np.linalg.norm(a)] *)
Definition nd_norm (a : ndarray) : R :=
  match a with
  | Arr1 v => norm2 v
  | Arr2 m => frobenius m
  end.

(** ** Module-level helpers of innerloop.py *)

(** [_soft_threshold(x, threshold, positive=False)]: the body never reads
    [positive]. *)
Definition _soft_threshold (x : vec) (threshold : R) (positive : bool) : vec :=
  let diff := map (fun xi => Rabs xi - threshold) x in
  let diff := map (fun d => if Rlt_dec d 0 then 0 else d) diff in
  vzip Rmult (map sign x) diff.

(** [_bin_search]: [new] is assigned in the branches only, so it is an
    optional local here, and returning it unassigned is Python's
    [UnboundLocalError]. *)
Definition _bin_search (current previous current_val : R) (previous_val : option R)
           (min_ max_ : R) : result (R * R * R * R) :=
  let previous_val :=
    match previous_val with None => current_val | Some v => v end in
  let new : option R := None in
  let '(new, min_) :=
    if Rle_dec current_val 0 then
      let new := if Rle_dec previous_val 0 then Some ((current + max_) / 2) else new in
      let new := if Rgt_dec previous_val 0 then Some ((current + previous) / 2) else new in
      let min_ := if Rgt_dec current min_ then current else min_ in
      (new, min_)
    else (new, min_) in
  let '(new, max_) :=
    if Rgt_dec current_val 0 then
      let new := if Rgt_dec previous_val 0 then Some ((current + min_) / 2) else new in
      let new := if Rle_dec previous_val 0 then Some ((current + previous) / 2) else new in
      let max_ := if Rlt_dec current max_ then current else max_ in
      (new, max_)
    else (new, max_) in
  match new with
  | Some n => Ok (n, current, min_, max_)
  | None => Raise (UnboundLocalError "new")
  end.

(** The locals of [_delta_search]'s loop. *)
Record delta_locals : Type := {
  dl_current : R;
  dl_previous : R;
  dl_previous_val : option R;
  dl_min : R;
  dl_max : R;
  dl_i : nat
}.

(** The candidate of one loop iteration:
    [coef = _soft_threshold(w, current, positive)], then
    [if np.linalg.norm(coef) > 0: coef /= np.linalg.norm(coef)]. *)
Definition delta_candidate (w : vec) (current : R) (positive : bool) : result vec :=
  let coef := _soft_threshold w current positive in
  if Rgt_dec (norm2 coef) 0 then vdiv coef (norm2 coef) else Ok coef.

(** [while not converged: ...] of [_delta_search]; [w] is the normalised
    input.  [OutOfFuel] means the fuel ran out before [converged] was set;
    the result carries the returned [coef] and the final value of [i]. *)
Fixpoint delta_loop (fuel : nat) (w : vec) (c : R) (positive : bool)
         (st : delta_locals) : result (vec * nat) :=
  match fuel with
  | O => OutOfFuel
  | S fuel' =>
    let i := S (dl_i st) in
    coef <-r delta_candidate w (dl_current st) positive ;
    let current_val := c - norm1 coef in
    '(current, previous, min_, max_) <-r
      _bin_search (dl_current st) (dl_previous st) current_val
                  (dl_previous_val st) (dl_min st) (dl_max st) ;
    if Rlt_dec (Rabs current_val) 1e-5 then Ok (coef, i)
    else if Rlt_dec (Rabs (max_ - min_)) 1e-30 then Ok (coef, i)
    else if Nat.eqb i 50 then Ok (coef, i)
    else delta_loop fuel' w c positive
           {| dl_current := current; dl_previous := previous;
              dl_previous_val := Some current_val;
              dl_min := min_; dl_max := max_; dl_i := i |}
  end.

Definition delta_init (init : R) : delta_locals :=
  {| dl_current := init; dl_previous := init; dl_previous_val := None;
     dl_min := 0; dl_max := 10; dl_i := O |}.

(** [_delta_search] with the fuel and the iteration count exposed. *)
Definition delta_search_run (fuel : nat) (w : vec) (c : R) (positive : bool)
           (init : R) : result (vec * nat) :=
  w <-r vdiv w (norm2 w) ;
  delta_loop fuel w c positive (delta_init init).

(** [_delta_search(w, c, positive=False, init=0)].  The loop sets
    [converged] at [i == 50] at the latest, so fifty rounds of fuel are
    never used up. *)
Definition _delta_search (w : vec) (c : R) (positive : bool) (init : R)
  : result vec :=
  p <-r delta_search_run 50 w c positive init ;
  Ok (fst p).

(** [_cosine_similarity(a, b)] *)
Definition _cosine_similarity (a b : vec) : result R :=
  rdiv (dot a b) (norm2 a * norm2 b).

(** ** Hyperparameters, regressors and the helpers of utils.check_values *)

(** A hyperparameter as passed to a constructor: [None], a scalar, or a
    per-view list. *)
Inductive hyper (A : Type) : Type :=
| HNone
| HScalar (a : A)
| HList (l : list A).

Arguments HNone {A}.
Arguments HScalar {A} a.
Arguments HList {A} l.

(** Python indexing of a list: [l[i]] for [0 <= i < len(l)]. *)
Definition index {A} (l : list A) (i : nat) : result A :=
  match nth_error l i with
  | Some a => Ok a
  | None => Raise IndexError
  end.

(** [l[z]] for an integer that may be negative: Python counts a negative
    index from the end. *)
Definition py_index {A} (l : list A) (z : Z) : result A :=
  if (z <? 0)%Z then
    if (z + Z.of_nat (length l) <? 0)%Z then Raise IndexError
    else index l (Z.to_nat (z + Z.of_nat (length l)))
  else index l (Z.to_nat z).

(** [l[i] = v] *)
Fixpoint assign {A} (l : list A) (i : nat) (v : A) : result (list A) :=
  match l, i with
  | [], _ => Raise IndexError
  | _ :: t, O => Ok (v :: t)
  | h :: t, S i' => t' <-r assign t i' v ; Ok (h :: t')
  end.

Definition hyper_index {A} (h : hyper A) (i : nat) : result A :=
  match h with
  | HList l => index l i
  | _ => Raise (TypeError "object is not subscriptable")
  end.

Definition hyper_list {A} (h : hyper A) : result (list A) :=
  match h with
  | HList l => Ok l
  | _ => Raise (TypeError "object is not iterable")
  end.

Fixpoint mapR {A B} (f : A -> result B) (l : list A) : result (list B) :=
  match l with
  | [] => Ok []
  | a :: t => b <-r f a ; t' <-r mapR f t ; Ok (b :: t')
  end.

(** Modelled from the spec: [_process_parameter] of utils.check_values is
    not part of the sources at hand.  The Parameter Normalizer "expands a
    scalar/list/None hyperparameter into a per-view list, validating
    length": [None] becomes the default for every view, a scalar is
    repeated, a list must have one entry per view. *)
Definition _process_parameter {A} (name : string) (parameter : hyper A)
           (default : A) (n_views : nat) : result (list A) :=
  match parameter with
  | HNone => Ok (repeat default n_views)
  | HScalar a => Ok (repeat a n_views)
  | HList l =>
    if Nat.eqb (length l) n_views then Ok l
    else Raise (ValueError (name ++ " should be a list of one value per view"))
  end.

(** Modelled from the spec: [_check_converged_weights] of
    utils.check_values is not part of the sources at hand.  The validator
    "detects degenerate (all-zero / divergent) weight updates and fails
    fast", "identifying the offending view index"; a non-finite update is
    the outcome [NonFinite] of the step that produced it. *)
Definition _check_converged_weights (weights : vec) (view_index : nat)
  : result unit :=
  if Req_dec_T (norm2 weights) 0
  then Raise (ValueError "All result weights are zero in this view")
  else Ok tt.

(** The scikit-learn estimators [ElasticInnerLoop.check_params] chooses
    from, with the arguments it passes. *)
Inductive sgd_penalty : Type := Pl2 | Pl1 | Pelasticnet.

Inductive estimator : Type :=
| SGDRegressor (penalty : sgd_penalty) (alpha : R) (l1_ratio : option R) (tol : R)
| LinearRegression (positive : bool)
| ElasticNet (alpha l1_ratio : R) (positive : bool)
| Ridge (alpha : R)
| Lasso (alpha : R) (positive : bool).

(** An estimator instance and its fitted coefficients, kept between fits
    (warm start). *)
Record regressor : Type := {
  estimator_of : estimator;
  coef_ : option vec
}.

(** ** The interpreter's environment

    What a call can observe or consume outside the object: the warnings
    issued so far, the random source of [np.random.rand], the lines
    printed, and the two capabilities taken from elsewhere: the regression
    solver ([fit(X, y).coef_]) and the feasibility test of
    [_check_Parikh2014], whose condition the sources at hand do not give. *)
Record env : Type := {
  warned : list string;
  random : nat -> R;
  drawn : nat;
  printed : list string;
  sklearn_fit : regressor -> matrix -> vec -> vec;
  parikh2014 : list R -> list R -> list matrix -> bool
}.

Definition env_warn (msg : string) (e : env) : env :=
  {| warned := warned e ++ [msg]; random := random e; drawn := drawn e;
     printed := printed e; sklearn_fit := sklearn_fit e;
     parikh2014 := parikh2014 e |}.

Definition env_print (line : string) (e : env) : env :=
  {| warned := warned e; random := random e; drawn := drawn e;
     printed := printed e ++ [line]; sklearn_fit := sklearn_fit e;
     parikh2014 := parikh2014 e |}.

Definition env_draw (n : nat) (e : env) : env :=
  {| warned := warned e; random := random e; drawn := (drawn e + n)%nat;
     printed := printed e; sklearn_fit := sklearn_fit e;
     parikh2014 := parikh2014 e |}.

(** ** The object: attributes of [_InnerLoop] and its subclasses *)

(** The class of the object.  [Base] stands for [_InnerLoop]; every other
    tag is the name of its class without the suffix [InnerLoop], and the
    methods a class defines are in the module named after it. *)
Inductive class : Type :=
| Base | PLS | PMD | Parkhomenko
| Elastic | ADMM.

(** Attributes set by [fit] and the update rules. *)
Record fitted : Type := {
  views : list matrix;
  scores : option (list vec);
  weights : option (list vec);
  track_objective : option (list R);
  old_scores : option (list vec)
}.

(** Hyperparameters: constructor arguments that [check_params] rebinds to
    per-view lists.  [eta] is rebound a second time, to the per-view dual
    variables of ADMM. *)
Record hypers : Type := {
  c : hyper R;
  positive : hyper bool;
  l1_ratio : hyper R;
  mu : hyper R;
  lam : hyper R;
  eta : hyper R + list ndarray
}.

(** Attributes created by [check_params] of the elastic and ADMM loops. *)
Record solver_state : Type := {
  gamma : option (list R);
  regressors : option (list regressor);
  z : option (list ndarray)
}.

Record loop : Type := {
  class_of : class;
  initialization : string;
  max_iter : Z;
  tol : R;
  constrained : bool;
  stochastic : bool;
  generalized : bool;
  fit_attrs : fitted;
  hyp : hypers;
  solver : solver_state
}.

Definition set_generalized (b : bool) (s : loop) : loop :=
  {| class_of := class_of s; initialization := initialization s;
     max_iter := max_iter s; tol := tol s; constrained := constrained s;
     stochastic := stochastic s; generalized := b;
     fit_attrs := fit_attrs s; hyp := hyp s; solver := solver s |}.

Definition set_fit_attrs (f : fitted) (s : loop) : loop :=
  {| class_of := class_of s; initialization := initialization s;
     max_iter := max_iter s; tol := tol s; constrained := constrained s;
     stochastic := stochastic s; generalized := generalized s;
     fit_attrs := f; hyp := hyp s; solver := solver s |}.

Definition set_hyp (h : hypers) (s : loop) : loop :=
  {| class_of := class_of s; initialization := initialization s;
     max_iter := max_iter s; tol := tol s; constrained := constrained s;
     stochastic := stochastic s; generalized := generalized s;
     fit_attrs := fit_attrs s; hyp := h; solver := solver s |}.

Definition set_solver (v : solver_state) (s : loop) : loop :=
  {| class_of := class_of s; initialization := initialization s;
     max_iter := max_iter s; tol := tol s; constrained := constrained s;
     stochastic := stochastic s; generalized := generalized s;
     fit_attrs := fit_attrs s; hyp := hyp s; solver := v |}.

Definition set_views (v : list matrix) (s : loop) : loop :=
  let f := fit_attrs s in
  set_fit_attrs {| views := v; scores := scores f; weights := weights f;
                   track_objective := track_objective f;
                   old_scores := old_scores f |} s.

Definition set_scores (v : list vec) (s : loop) : loop :=
  let f := fit_attrs s in
  set_fit_attrs {| views := views f; scores := Some v; weights := weights f;
                   track_objective := track_objective f;
                   old_scores := old_scores f |} s.

Definition set_weights (v : list vec) (s : loop) : loop :=
  let f := fit_attrs s in
  set_fit_attrs {| views := views f; scores := scores f; weights := Some v;
                   track_objective := track_objective f;
                   old_scores := old_scores f |} s.

Definition set_track_objective (v : list R) (s : loop) : loop :=
  let f := fit_attrs s in
  set_fit_attrs {| views := views f; scores := scores f; weights := weights f;
                   track_objective := Some v;
                   old_scores := old_scores f |} s.

Definition set_old_scores (v : list vec) (s : loop) : loop :=
  let f := fit_attrs s in
  set_fit_attrs {| views := views f; scores := scores f; weights := weights f;
                   track_objective := track_objective f;
                   old_scores := Some v |} s.

Definition set_c (v : list R) (s : loop) : loop :=
  let h := hyp s in
  set_hyp {| c := HList v; positive := positive h; l1_ratio := l1_ratio h;
             mu := mu h; lam := lam h; eta := eta h |} s.

Definition set_positive (v : list bool) (s : loop) : loop :=
  let h := hyp s in
  set_hyp {| c := c h; positive := HList v; l1_ratio := l1_ratio h;
             mu := mu h; lam := lam h; eta := eta h |} s.

Definition set_l1_ratio (v : list R) (s : loop) : loop :=
  let h := hyp s in
  set_hyp {| c := c h; positive := positive h; l1_ratio := HList v;
             mu := mu h; lam := lam h; eta := eta h |} s.

Definition set_mu (v : list R) (s : loop) : loop :=
  let h := hyp s in
  set_hyp {| c := c h; positive := positive h; l1_ratio := l1_ratio h;
             mu := HList v; lam := lam h; eta := eta h |} s.

Definition set_lam (v : list R) (s : loop) : loop :=
  let h := hyp s in
  set_hyp {| c := c h; positive := positive h; l1_ratio := l1_ratio h;
             mu := mu h; lam := HList v; eta := eta h |} s.

Definition set_eta (v : hyper R + list ndarray) (s : loop) : loop :=
  let h := hyp s in
  set_hyp {| c := c h; positive := positive h; l1_ratio := l1_ratio h;
             mu := mu h; lam := lam h; eta := v |} s.

Definition set_gamma (v : list R) (s : loop) : loop :=
  let a := solver s in
  set_solver {| gamma := Some v; regressors := regressors a; z := z a |} s.

Definition set_regressors (v : list regressor) (s : loop) : loop :=
  let a := solver s in
  set_solver {| gamma := gamma a; regressors := Some v; z := z a |} s.

Definition set_z (v : list ndarray) (s : loop) : loop :=
  let a := solver s in
  set_solver {| gamma := gamma a; regressors := regressors a; z := Some v |} s.

(** The constructors, with the defaults of the [__init__] signatures. *)
Definition new (k : class) (max_iter : Z) (tol : R) (generalized : bool)
           (initialization : string) : loop :=
  {| class_of := k; initialization := initialization; max_iter := max_iter;
     tol := tol; constrained := false; stochastic := true;
     generalized := generalized;
     fit_attrs := {| views := []; scores := None; weights := None;
                     track_objective := None; old_scores := None |};
     hyp := {| c := HNone; positive := HNone; l1_ratio := HNone;
               mu := HNone; lam := HNone; eta := inl HNone |};
     solver := {| gamma := None; regressors := None; z := None |} |}.

(** ** Methods as state transformers

    A method runs on the object and the environment and leaves both
    behind, also when it raises. *)
Definition M (A : Type) : Type := loop -> env -> result A * loop * env.

Definition ret {A} (a : A) : M A := fun s e => (Ok a, s, e).

Definition bind {A B} (m : M A) (k : A -> M B) : M B :=
  fun s e =>
    match m s e with
    | (Ok a, s', e') => k a s' e'
    | (Raise x, s', e') => (Raise x, s', e')
    | (NonFinite, s', e') => (NonFinite, s', e')
    | (OutOfFuel, s', e') => (OutOfFuel, s', e')
    end.

Definition lift {A} (r : result A) : M A := fun s e => (r, s, e).
Definition get {A} (f : loop -> A) : M A := fun s e => (Ok (f s), s, e).
Definition modify (f : loop -> loop) : M unit := fun s e => (Ok tt, f s, e).

(** Reading an attribute that no assignment has created yet. *)
Definition attr {A} (name : string) (f : loop -> option A) : M A :=
  fun s e =>
    match f s with
    | Some a => (Ok a, s, e)
    | None => (Raise (AttributeError name), s, e)
    end.

Declare Scope method_scope.
Delimit Scope method_scope with method.
Notation "x <- m ;; k" := (bind m (fun x => k))
  (at level 61, m at next level, right associativity) : method_scope.
Notation "m ;; k" := (bind m (fun _ => k))
  (at level 61, right associativity) : method_scope.
Open Scope method_scope.

(** [warnings.warn(msg)], [print(line)], [np.random.rand(n)] *)
Definition warn (msg : string) : M unit :=
  fun s e => (Ok tt, s, env_warn msg e).

Definition print (line : string) : M unit :=
  fun s e => (Ok tt, s, env_print line e).

Definition rand (n : nat) : M vec :=
  fun s e => (Ok (map (fun k => random e (drawn e + k)%nat) (seq 0 n)), s,
              env_draw n e).

Fixpoint mapM {A B} (f : A -> M B) (l : list A) : M (list B) :=
  match l with
  | [] => ret []
  | a :: t => b <- f a ;; t' <- mapM f t ;; ret (b :: t')
  end.

(** [for x in l: body(x)] *)
Fixpoint for_each {A} (l : list A) (body : A -> M unit) : M unit :=
  match l with
  | [] => ret tt
  | a :: t => body a ;; for_each t body
  end.

Definition get_views : M (list matrix) := get (fun s => views (fit_attrs s)).
Definition get_scores : M (list vec) := attr "scores" (fun s => scores (fit_attrs s)).
Definition get_weights : M (list vec) := attr "weights" (fun s => weights (fit_attrs s)).
Definition get_z : M (list ndarray) := attr "z" (fun s => z (solver s)).
Definition get_eta : M (list ndarray) :=
  fun s e =>
    match eta (hyp s) with
    | inr l => (Ok l, s, e)
    | inl _ => (Raise (TypeError "object is not subscriptable"), s, e)
    end.

(** [self.weights[i] = w], [self.scores[i] = v], [self.z[i] = v],
    [self.eta[i] = v] *)
Definition put_weight (i : nat) (w : vec) : M unit :=
  ws <- get_weights ;; ws' <- lift (assign ws i w) ;; modify (set_weights ws').

Definition put_score (i : nat) (v : vec) : M unit :=
  sc <- get_scores ;; sc' <- lift (assign sc i v) ;; modify (set_scores sc').

Definition put_z (i : nat) (v : ndarray) : M unit :=
  zs <- get_z ;; zs' <- lift (assign zs i v) ;; modify (set_z zs').

Definition put_eta (i : nat) (v : ndarray) : M unit :=
  es <- get_eta ;; es' <- lift (assign es i v) ;; modify (set_eta (inr es')).

(** [self.views[i]], [self.weights[i]], [self.c[i]], ... *)
Definition view_at (i : nat) : M matrix := vs <- get_views ;; lift (index vs i).
Definition weight_at (i : nat) : M vec := ws <- get_weights ;; lift (index ws i).
Definition c_at (i : nat) : M R := h <- get (fun s => c (hyp s)) ;; lift (hyper_index h i).

(** Column-wise sum of the rows of a 2-d array of row length [n]. *)
Definition vsum (n : nat) (rows : list vec) : vec := fold_right vadd (zeros n) rows.

Fixpoint remove_nth {A} (i : nat) (l : list A) : list A :=
  match l, i with
  | [], _ => []
  | _ :: t, O => t
  | h :: t, S i' => h :: remove_nth i' t
  end.

(** The masked-array idiom of the update rules:
    [targets = np.ma.array(scores, mask=False); targets.mask[i] = True;
     targets.sum(axis=0).filled()],
    the sum of all rows but the i-th.  With a single row every entry of the
    sum is masked, and [filled()] puts the default fill value, 1e20. *)
Definition masked_sum (scores : list vec) (view_index : nat) : result vec :=
  row <-r index scores view_index ;
  match remove_nth view_index scores with
  | [] => Ok (map (fun _ => 1e20) row)
  | others => Ok (vsum (length row) others)
  end.

(** [scores.mean(axis=0)] *)
Definition mean_rows (scores : list vec) : result vec :=
  match scores with
  | [] => NonFinite
  | row :: _ => Ok (map (fun x => x / INR (length scores)) (vsum (length row) scores))
  end.

(** [a / np.linalg.norm(a, axis=1)[:, np.newaxis]]; an array built from
    an empty list is one-dimensional and has no axis 1. *)
Definition normalize_rows (a : list vec) : result (list vec) :=
  match a with
  | [] => Raise AxisError
  | _ => mapR (fun row => vdiv row (norm2 row)) a
  end.

(** *** class _InnerLoop *)

(** [combinations(self.scores, 2)] *)
Fixpoint combinations2 {A} (l : list A) : list (A * A) :=
  match l with
  | [] => []
  | a :: t => map (fun b => (a, b)) t ++ combinations2 t
  end.

Module BaseInnerLoop.

Definition check_params : M unit := ret tt.

Definition inner_iteration : M unit := ret tt.

Definition early_stop : M bool := ret false.

Definition objective : M R :=
  sc <- get_scores ;;
  ret (fold_left (fun obj p => obj + dot (fst p) (snd p)) (combinations2 sc) 0).

(** [initialize]; [unregularized_fit] runs
    [PLSInnerLoop(initialization='random').fit] on the same views and hands back
    the fitted object. *)
Definition initialize (unregularized_fit : list matrix -> env -> result loop * env)
  : M unit :=
  init <- get initialization ;;
  vs <- get_views ;;
  (if String.eqb init "random" then
     sc <- mapM (fun view => rand (nrows view)) vs ;;
     modify (set_scores sc)
   else ret tt) ;;
  (if String.eqb init "uniform" then
     sc <- lift (normalize_rows (map (fun view => ones (nrows view)) vs)) ;;
     modify (set_scores sc)
   else if String.eqb init "unregularized" then
     unregularized <-
       (fun s e => let (r, e') := unregularized_fit vs e in (r, s, e')) ;;
     usc <- lift (match scores (fit_attrs unregularized) with
                  | Some sc => Ok sc
                  | None => Raise (AttributeError "scores")
                  end) ;;
     sc <- lift (normalize_rows usc) ;;
     modify (set_scores sc)
   else ret tt) ;;
  ws <- mapM (fun view => rand (ncols view)) vs ;;
  modify (set_weights ws).

End BaseInnerLoop.

(** *** class PLSInnerLoop *)

Module PLSInnerLoop.

Definition check_params : M unit :=
  vs <- get_views ;;
  modify (set_l1_ratio (repeat 0 (length vs))) ;;
  modify (set_c (repeat 0 (length vs))).

(** Weights [X.T @ target] that are all zero are divided by a zero norm:
    numpy makes them [nan] and the update goes on with them; here the
    update ends as [NonFinite]. *)
Definition update_view (view_index : nat) : M unit :=
  sc <- get_scores ;;
  target <- lift (masked_sum sc view_index) ;;
  view <- view_at view_index ;;
  put_weight view_index (tmatvec view target) ;;
  w <- weight_at view_index ;;
  w <- lift (vdiv w (norm2 w)) ;;
  put_weight view_index w ;;
  view <- view_at view_index ;;
  w <- weight_at view_index ;;
  put_score view_index (matvec view w).

(** [all(_cosine_similarity(scores[n], old_scores[n]) > 1 - tol ...)],
    stopping at the first view that fails the test.  The similarity of
    a vector of norm zero is [nan], which Python compares as [False];
    here the test ends as [NonFinite]. *)
Fixpoint all_similar (tol : R) (sc old : list vec) (ns : list nat) : result bool :=
  match ns with
  | [] => Ok true
  | n :: rest =>
    a <-r index sc n ;
    b <-r index old n ;
    cs <-r _cosine_similarity a b ;
    if Rgt_dec cs (1 - tol) then all_similar tol sc old rest else Ok false
  end.

Definition early_stop : M bool :=
  sc <- get_scores ;;
  old <- attr "old_scores" (fun s => old_scores (fit_attrs s)) ;;
  t <- get tol ;;
  lift (all_similar t sc old (seq 0 (length sc))).

End PLSInnerLoop.

(** *** class PMDInnerLoop *)

Module PMDInnerLoop.

Definition check_params : M unit :=
  vs <- get_views ;;
  h <- get (fun s => c (hyp s)) ;;
  cs <- lift (_process_parameter "c" h 1 (length vs)) ;;
  modify (set_c cs) ;;
  (if existsb (fun c => if Rlt_dec c 1 then true else false) cs then
     lift (Raise (ValueError "All regulariation parameters should be at least 1."))
   else ret tt) ;;
  let shape_sqrts := map (fun view => sqrt (INR (ncols view))) vs in
  (if existsb (fun p => if Rgt_dec (fst p) (snd p) then true else false)
              (combine cs shape_sqrts) then
     lift (Raise (ValueError
       "All regulariation parameters should be less than the square root of number of the respective view."))
   else ret tt) ;;
  p <- get (fun s => positive (hyp s)) ;;
  ps <- lift (_process_parameter "positive" p false (length vs)) ;;
  modify (set_positive ps).

Definition update_view (view_index : nat) : M unit :=
  sc <- get_scores ;;
  target <- lift (masked_sum sc view_index) ;;
  view <- view_at view_index ;;
  put_weight view_index (tmatvec view target) ;;
  w <- weight_at view_index ;;
  ci <- c_at view_index ;;
  p <- get (fun s => positive (hyp s)) ;;
  pi <- lift (hyper_index p view_index) ;;
  w <- lift (_delta_search w ci pi 0) ;;
  put_weight view_index w ;;
  w <- weight_at view_index ;;
  lift (_check_converged_weights w view_index) ;;
  view <- view_at view_index ;;
  w <- weight_at view_index ;;
  put_score view_index (matvec view w).

End PMDInnerLoop.

(** *** class ParkhomenkoInnerLoop *)

Module ParkhomenkoInnerLoop.

(** The default of [c] is the one-element list [[0.0001]]: with
    [c=None] every view is given that list, and [c <= 0] then compares
    a list with a number, a [TypeError] (with no view there is nothing
    to compare).  The list of lists has no counterpart among the
    hyperparameters kept here, and [c] stays [None] for it.  A [c] that
    is given never meets the default.  [raise] is given a string, which
    Python answers with a [TypeError] too. *)
Definition check_params : M unit :=
  vs <- get_views ;;
  h <- get (fun s => c (hyp s)) ;;
  match h with
  | HNone =>
    defaults <- lift (_process_parameter "c" (@HNone vec) [0.0001] (length vs)) ;;
    match defaults with
    | [] => modify (set_c [])
    | _ :: _ =>
      lift (Raise (TypeError "'<=' not supported between instances of 'list' and 'int'"))
    end
  | _ =>
    cs <- lift (_process_parameter "c" h 0.0001 (length vs)) ;;
    modify (set_c cs) ;;
    if existsb (fun c => if Rle_dec c 0 then true else false) cs then
      lift (Raise (TypeError "exceptions must derive from BaseException"))
    else ret tt
  end.

Definition update_view (view_index : nat) : M unit :=
  sc <- get_scores ;;
  target <- lift (masked_sum sc view_index) ;;
  view <- view_at view_index ;;
  let w := tmatvec view target in
  lift (_check_converged_weights w view_index) ;;
  w <- lift (vdiv w (norm2 w)) ;;
  ci <- c_at view_index ;;
  let w := _soft_threshold w (ci / 2) false in
  lift (_check_converged_weights w view_index) ;;
  w <- lift (vdiv w (norm2 w)) ;;
  put_weight view_index w ;;
  view <- view_at view_index ;;
  w <- weight_at view_index ;;
  put_score view_index (matvec view w).

End ParkhomenkoInnerLoop.

(** *** class ElasticInnerLoop *)

Definition ask {A} (f : env -> A) : M A := fun s e => (Ok (f e), s, e).

Definition get_regressors : M (list regressor) :=
  attr "regressors" (fun s => regressors (solver s)).

Definition get_gamma : M (list R) := attr "gamma" (fun s => gamma (solver s)).

(** [self.regressors[i].fit(X, y).coef_]: the solver is consulted and the
    estimator keeps the coefficients it returned. *)
Definition regressor_fit (i : nat) (X : matrix) (y : vec) : M vec :=
  regs <- get_regressors ;;
  reg <- lift (index regs i) ;;
  solve <- ask sklearn_fit ;;
  let coef := solve reg X y in
  regs' <- lift (assign regs i {| estimator_of := estimator_of reg; coef_ := Some coef |}) ;;
  modify (set_regressors regs') ;;
  ret coef.

(** The locals of [elastic_solver_constrained]'s loop. *)
Record gamma_locals : Type := {
  gl_previous : R;
  gl_previous_val : option R;
  gl_min : R;
  gl_max : R;
  gl_i : nat
}.

Module ElasticInnerLoop.

Definition choose_estimator (stochastic : bool) (tol : R) (n_views : nat)
           (alpha l1_ratio : R) (positive : bool) : estimator :=
  if stochastic then
    if Req_dec_T l1_ratio 0 then
      SGDRegressor Pl2 (alpha / INR n_views) None tol
    else if Req_dec_T l1_ratio 1 then
      SGDRegressor Pl1 (alpha / INR n_views) None tol
    else SGDRegressor Pelasticnet (alpha / INR n_views) (Some l1_ratio) tol
  else
    if Req_dec_T alpha 0 then LinearRegression positive
    else if Req_dec_T l1_ratio 0 then
      if positive then ElasticNet (alpha / INR n_views) 0 positive
      else Ridge (alpha / INR n_views)
    else if Req_dec_T l1_ratio 1 then Lasso (alpha / INR n_views) positive
    else ElasticNet (alpha / INR n_views) l1_ratio positive.

Definition check_params : M unit :=
  vs <- get_views ;;
  let n := length vs in
  h <- get (fun s => c (hyp s)) ;;
  cs <- lift (_process_parameter "c" h 0 n) ;;
  modify (set_c cs) ;;
  h <- get (fun s => l1_ratio (hyp s)) ;;
  ratios <- lift (_process_parameter "l1_ratio" h 0 n) ;;
  modify (set_l1_ratio ratios) ;;
  h <- get (fun s => positive (hyp s)) ;;
  ps <- lift (_process_parameter "positive" h false n) ;;
  modify (set_positive ps) ;;
  con <- get constrained ;;
  (if con then modify (set_gamma (repeat 0 n)) else ret tt) ;;
  sto <- get stochastic ;;
  t <- get tol ;;
  modify (set_regressors
            (map (fun p => {| estimator_of :=
                                choose_estimator sto t n (fst (fst p)) (snd (fst p)) (snd p);
                              coef_ := None |})
                 (combine (combine cs ratios) ps))).

(** The coefficient array is the estimator's own [coef_], so the
    in-place division rescales both. *)
Definition elastic_solver (X : matrix) (y : vec) (view_index : nat) : M unit :=
  coef <- regressor_fit view_index X y ;;
  put_weight view_index coef ;;
  view <- view_at view_index ;;
  w <- weight_at view_index ;;
  w' <- lift (vdiv w (norm2 (matvec view w))) ;;
  put_weight view_index w' ;;
  regs <- get_regressors ;;
  reg <- lift (index regs view_index) ;;
  regs' <- lift (assign regs view_index
                   {| estimator_of := estimator_of reg; coef_ := Some w' |}) ;;
  modify (set_regressors regs').

(** [while not converged: ...] of [elastic_solver_constrained]; the
    result is the last [coef]. *)
Fixpoint constrained_loop (fuel : nat) (X : matrix) (y : vec) (view_index : nat)
         (st : gamma_locals) : M vec :=
  match fuel with
  | O => lift OutOfFuel
  | S fuel' =>
    let i := S (gl_i st) in
    gs <- get_gamma ;;
    g <- lift (index gs view_index) ;;
    (if Rlt_dec (g + 1) 0 then lift NonFinite else ret tt) ;;
    y' <- lift (vdiv y (sqrt (g + 1))) ;;
    coef <- regressor_fit view_index (map (vscale (sqrt (g + 1))) X) y' ;;
    let current_val := 1 - norm2 (matvec X coef) in
    gs <- get_gamma ;;
    g <- lift (index gs view_index) ;;
    r <- lift (_bin_search g (gl_previous st) current_val (gl_previous_val st)
                           (gl_min st) (gl_max st)) ;;
    let '(g', previous, min_, max_) := r in
    gs' <- lift (assign gs view_index g') ;;
    modify (set_gamma gs') ;;
    if Rlt_dec (Rabs current_val) 1e-5 then ret coef
    else if Rlt_dec (Rabs (max_ - min_)) 1e-30 then ret coef
    else if Nat.eqb i 50 then ret coef
    else constrained_loop fuel' X y view_index
           {| gl_previous := previous; gl_previous_val := Some current_val;
              gl_min := min_; gl_max := max_; gl_i := i |}
  end.

Definition elastic_solver_constrained (X : matrix) (y : vec) (view_index : nat)
  : M unit :=
  gs <- get_gamma ;;
  g <- lift (index gs view_index) ;;
  coef <- constrained_loop 50 X y view_index
            {| gl_previous := g; gl_previous_val := None;
               gl_min := -1; gl_max := 1; gl_i := O |} ;;
  put_weight view_index coef.

(** The regression target of [update_view]. *)
Definition target_of (generalized : bool) (scores : list vec) (view_index : nat)
  : result vec :=
  if generalized then mean_rows scores
  else py_index scores (Z.of_nat view_index - 1).

Definition update_view (view_index : nat) : M unit :=
  g <- get generalized ;;
  sc <- get_scores ;;
  target <- lift (target_of g sc view_index) ;;
  con <- get constrained ;;
  view <- view_at view_index ;;
  (if con then elastic_solver_constrained view target view_index
   else elastic_solver view target view_index) ;;
  w <- weight_at view_index ;;
  lift (_check_converged_weights w view_index) ;;
  view <- view_at view_index ;;
  w <- weight_at view_index ;;
  put_score view_index (matvec view w).

End ElasticInnerLoop.

(** [elastic_cca_objective(loop)] *)
Definition elastic_cca_objective : M R :=
  vs <- get_views ;;
  let n := length vs in
  h <- get (fun s => c (hyp s)) ;;
  cs <- lift (hyper_list h) ;;
  h <- get (fun s => l1_ratio (hyp s)) ;;
  ratio <- lift (hyper_list h) ;;
  let l1 := vzip Rmult cs ratio in
  let l2 := vzip (fun c r => c * (1 - r)) cs ratio in
  sc <- get_scores ;;
  ws <- get_weights ;;
  lift (fold_left
          (fun total i =>
             total <-r total ;
             target <-r mean_rows sc ;
             view <-r index vs i ;
             w <-r index ws i ;
             objective <-r rdiv (INR n * (norm2 (vsub (matvec view w) target)) ^ 2)
                                (2 * INR (nrows view)) ;
             l1i <-r index l1 i ;
             l2i <-r index l2 i ;
             Ok (total + (objective + l1i * norm1 w + l2i * norm2 w)))
          (seq 0 n) (Ok 0)).

(** *** class ADMMInnerLoop *)

(** The lists [update_view] appends to in every round of its loop. *)
Record admm_trace : Type := {
  unnorm_z : list R;
  norm_eta : list R;
  norm_weights : list R;
  norm_proj : list R
}.

Module ADMMInnerLoop.

Definition prox_mu_f (x : vec) (mu : R) (c : vec) (tau : R) : vec :=
  map (fun p =>
         let x := fst p in
         let c := snd p in
         let u_update := x in
         let mask_1 := if Rgt_dec (x + mu * c) (mu * tau) then true else false in
         let u_update := if mask_1 then x + mu * (c - tau) else u_update in
         let mask_2 := if Rlt_dec (x + mu * c) (- mu * tau) then true else false in
         let u_update := if mask_2 then x + mu * (c + tau) else u_update in
         let mask_3 := negb (mask_1 || mask_2) in
         if mask_3 then 0 else u_update)
      (combine x c).

Definition prox_lam_g (x : vec) : vec :=
  let norm := norm2 x in
  if Rlt_dec norm 1 then x
  else map (fun xi => xi / Rmax 1 norm) x.

(** [prox_mu_f] as [update_view] calls it, on an array of either
    dimension.  The masks take the shape of [x + mu * c]; [c] is the
    gradient, of one dimension, and [c[mask_1]] with a mask of two
    dimensions is an [IndexError]. *)
Definition prox_mu_f_call (x : ndarray) (mu : R) (c : vec) (tau : R) : result vec :=
  match x with
  | Arr1 x => Ok (prox_mu_f x mu c tau)
  | Arr2 m =>
    mask_1 <-r ndzip Rplus (Arr2 m) (Arr1 (vscale mu c)) ;
    Raise IndexError
  end.

(** [prox_lam_g] on an array of either dimension. *)
Definition prox_lam_g_call (x : ndarray) : ndarray :=
  match x with
  | Arr1 v => Arr1 (prox_lam_g v)
  | Arr2 m =>
    let norm := frobenius m in
    if Rlt_dec norm 1 then Arr2 m
    else Arr2 (map (map (fun xi => xi / Rmax 1 norm)) m)
  end.

(** [eta] and [z] are made arrays of shape (N,1).  An [eta] that an
    earlier call has rebound to such arrays is not taken up again
    here. *)
Definition check_params : M unit :=
  vs <- get_views ;;
  let n := length vs in
  h <- get (fun s => c (hyp s)) ;;
  cs <- lift (_process_parameter "c" h 0 n) ;;
  modify (set_c cs) ;;
  h <- get (fun s => lam (hyp s)) ;;
  lams <- lift (_process_parameter "lam" h 1 n) ;;
  modify (set_lam lams) ;;
  h <- get (fun s => mu (hyp s)) ;;
  mus <- lift (match h with
               | HNone => mapR (fun p => rdiv (fst p) (frobenius (snd p) ^ 2))
                               (combine lams vs)
               | _ => _process_parameter "mu" h 0 n
               end) ;;
  modify (set_mu mus) ;;
  h <- get (fun s => eta (hyp s)) ;;
  etas <- lift (match h with
                | inl h => _process_parameter "eta" h 0 n
                | inr _ => Raise (ValueError "eta should be a list of one value per view")
                end) ;;
  modify (set_eta (inl (HList etas))) ;;
  (if existsb (fun m => if Rle_dec m 0 then true else false) mus then
     lift (Raise (ValueError "At least one mu is less than zero."))
   else ret tt) ;;
  feasible <- ask parikh2014 ;;
  (if feasible mus lams vs then ret tt
   else lift (Raise (ValueError "mu, lam, view not matching condition specified from Parikh 2014"))) ;;
  modify (set_eta (inr (map (fun p => Arr2 (column (vscale (snd p) (ones (nrows (fst p))))))
                            (combine vs etas)))) ;;
  modify (set_z (map (fun view => Arr2 (column (zeros (nrows view)))) vs)) ;;
  modify (set_l1_ratio (repeat 1 n)).

(** One round of the loop of [update_view].  The argument of
    [prox_mu_f] is computed as Python does it, from left to right. *)
Definition update_round (view_index : nat) (mu lam : R) (N : nat) (gradient : vec)
           (tr : admm_trace) : M admm_trace :=
  w <- weight_at view_index ;;
  step <- lift (rdiv mu lam) ;;
  view <- view_at view_index ;;
  zs <- get_z ;;
  zi <- lift (index zs view_index) ;;
  r <- lift (ndzip Rminus (Arr1 (matvec view w)) zi) ;;
  es <- get_eta ;;
  ei <- lift (index es view_index) ;;
  r <- lift (ndzip Rplus r ei) ;;
  g <- lift (nd_tmatmul view r) ;;
  x <- lift (ndzip Rminus (Arr1 w) (ndmap (Rmult step) g)) ;;
  ci <- c_at view_index ;;
  u <- lift (prox_mu_f_call x mu gradient (INR N * ci)) ;;
  put_weight view_index u ;;
  w <- weight_at view_index ;;
  t <- lift (ndzip Rplus (Arr1 (matvec view w)) ei) ;;
  let tr := {| unnorm_z := unnorm_z tr ++ [nd_norm t];
               norm_eta := norm_eta tr; norm_weights := norm_weights tr;
               norm_proj := norm_proj tr |} in
  put_z view_index (prox_lam_g_call t) ;;
  zs <- get_z ;;
  zi <- lift (index zs view_index) ;;
  d <- lift (ndzip Rplus ei (Arr1 (matvec view w))) ;;
  d <- lift (ndzip Rminus d zi) ;;
  put_eta view_index d ;;
  es <- get_eta ;;
  ei <- lift (index es view_index) ;;
  (if Rlt_dec (nd_norm ei) 0.00000001 then print "here" else ret tt) ;;
  ret {| unnorm_z := unnorm_z tr;
         norm_eta := norm_eta tr ++ [nd_norm ei];
         norm_weights := norm_weights tr ++ [norm1 w];
         norm_proj := norm_proj tr ++ [norm2 (matvec view w)] |}.

(** [for _ in range(self.max_iter): ...] *)
Fixpoint update_rounds (rounds : nat) (view_index : nat) (mu lam : R) (N : nat)
         (gradient : vec) (tr : admm_trace) : M admm_trace :=
  match rounds with
  | O => ret tr
  | S rounds' =>
    tr <- update_round view_index mu lam N gradient tr ;;
    update_rounds rounds' view_index mu lam N gradient tr
  end.

(** [update_view] up to the end of its loop, with the four lists. *)
Definition update_view_loop (view_index : nat) : M admm_trace :=
  sc <- get_scores ;;
  target <- lift (masked_sum sc view_index) ;;
  view <- view_at view_index ;;
  let gradient := tmatvec view target in
  h <- get (fun s => mu (hyp s)) ;;
  mu <- lift (hyper_index h view_index) ;;
  h <- get (fun s => lam (hyp s)) ;;
  lam <- lift (hyper_index h view_index) ;;
  let N := nrows view in
  n <- get max_iter ;;
  update_rounds (Z.to_nat n) view_index mu lam N gradient
                {| unnorm_z := []; norm_eta := []; norm_weights := [];
                   norm_proj := [] |}.

(** The validator is given the whole list [self.weights]. *)
Definition update_view (view_index : nat) : M unit :=
  update_view_loop view_index ;;
  ws <- get_weights ;;
  lift (_check_converged_weights (concat ws) view_index) ;;
  view <- view_at view_index ;;
  w <- weight_at view_index ;;
  put_score view_index (matvec view w).

End ADMMInnerLoop.

(** ** Method dispatch and [fit] *)

Definition check_params : M unit :=
  k <- get class_of ;;
  match k with
  | Base => BaseInnerLoop.check_params
  | PLS => PLSInnerLoop.check_params
  | PMD => PMDInnerLoop.check_params
  | Parkhomenko => ParkhomenkoInnerLoop.check_params
  | Elastic => ElasticInnerLoop.check_params
  | ADMM => ADMMInnerLoop.check_params
  end.

Definition update_view (view_index : nat) : M unit :=
  k <- get class_of ;;
  match k with
  | Base => lift (Raise (AttributeError "update_view"))
  | PLS => PLSInnerLoop.update_view view_index
  | PMD => PMDInnerLoop.update_view view_index
  | Parkhomenko => ParkhomenkoInnerLoop.update_view view_index
  | Elastic => ElasticInnerLoop.update_view view_index
  | ADMM => ADMMInnerLoop.update_view view_index
  end.

(** [PLSInnerLoop.inner_iteration], inherited by every subclass:
    [for i, view in enumerate(self.views): self.update_view(i)]. *)
Definition inner_iteration : M unit :=
  k <- get class_of ;;
  match k with
  | Base => BaseInnerLoop.inner_iteration
  | _ => vs <- get_views ;; for_each (seq 0 (length vs)) update_view
  end.

Definition objective : M R :=
  k <- get class_of ;;
  match k with
  | Elastic | ADMM => elastic_cca_objective
  | _ => BaseInnerLoop.objective
  end.

Definition early_stop : M bool :=
  k <- get class_of ;;
  match k with
  | Base => BaseInnerLoop.early_stop
  | _ => PLSInnerLoop.early_stop
  end.

(** The body of [for _ in range(self.max_iter)], from index [k] with
    [remaining] rounds to go. *)
Fixpoint iterate (remaining : nat) (k : nat) : M unit :=
  match remaining with
  | O => ret tt
  | S remaining' =>
    inner_iteration ;;
    obj <- objective ;;
    track <- attr "track_objective" (fun s => track_objective (fit_attrs s)) ;;
    modify (set_track_objective (track ++ [obj])) ;;
    stop <- (if (0 <? k)%nat then early_stop else ret false) ;;
    if stop then ret tt
    else
      sc <- get_scores ;;
      modify (set_old_scores sc) ;;
      iterate remaining' (S k)
  end.

(** [fit] after its test on the number of views: validation,
    initialisation, and the iterations.  [unregularized_fit] is the fit
    [initialize] may run on a fresh [PLSInnerLoop(initialization='random')]. *)
Definition fit_body (unregularized_fit : list matrix -> env -> result loop * env)
  : M unit :=
  check_params ;;
  BaseInnerLoop.initialize unregularized_fit ;;
  modify (set_track_objective []) ;;
  n <- get max_iter ;;
  iterate (Z.to_nat n) 0.

(** The object a call returns ([return self]), or the way the call ended. *)
Definition returned (run : result unit * loop * env) : result loop * env :=
  let '(r, s, e) := run in
  (match r with
   | Ok _ => Ok s
   | Raise x => Raise x
   | NonFinite => NonFinite
   | OutOfFuel => OutOfFuel
   end, e).

(** [fit] on the given views; [depth] bounds the nesting of fits. *)
Fixpoint fit_at (depth : nat) (vs : list matrix) : M unit :=
  match depth with
  | O => lift OutOfFuel
  | S depth' =>
    modify (set_views vs) ;;
    (if (2 <? length vs)%nat then
       modify (set_generalized true) ;;
       warn "For more than 2 views require generalized=True"
     else ret tt) ;;
    fit_body (fun vs e =>
                returned (fit_at depth' vs (new PLS 100 1e-5 false "random") e))
  end.

(** The nested fit is initialised at random and fits nothing itself, so a
    depth of two is never used up. *)
Definition fit (vs : list matrix) : M unit := fit_at 2 vs.

(** ** Definitions used by the statements

    The properties below are stated with these: the specification's own
    wording of an operation where it is compared with the code, the
    invariants of the loops, and the example objects. *)

(** The projection onto the unit L2 ball, as the specification words it. *)
Definition unit_ball_projection (x : vec) : vec :=
  if Rle_dec (norm2 x) 1 then x else map (fun xi => xi / norm2 x) x.

(** The magnitudes left by thresholding at [delta >= 0]. *)
Definition mags (delta : R) (w : vec) : vec :=
  map (fun x => Rmax (Rabs x - delta) 0) w.

(** The candidate as a plain function, and its L1 norm. *)
Definition candidate (w : vec) (delta : R) (p : bool) : vec :=
  let coef := _soft_threshold w delta p in
  if Rgt_dec (norm2 coef) 0 then map (fun x => x / norm2 coef) coef else coef.

(** What the loop keeps true of its locals: the threshold tried lies in
    the bracket, and the previous threshold is the end of the bracket on
    the side of its value. *)
Definition bracket_inv (st : delta_locals) : Prop :=
  0 <= dl_min st /\ dl_min st <= dl_current st /\ dl_current st <= dl_max st /\
  match dl_previous_val st with
  | None => True
  | Some v => (v <= 0 -> dl_previous st = dl_min st) /\
              (v > 0 -> dl_previous st = dl_max st)
  end.

(** The locals after a round whose value was [cv]. *)
Definition bisect (cv : R) (st : delta_locals) : delta_locals :=
  if Rle_dec cv 0 then
    {| dl_current := (dl_current st + dl_max st) / 2;
       dl_previous := dl_current st; dl_previous_val := Some cv;
       dl_min := dl_current st; dl_max := dl_max st; dl_i := S (dl_i st) |}
  else
    {| dl_current := (dl_current st + dl_min st) / 2;
       dl_previous := dl_current st; dl_previous_val := Some cv;
       dl_min := dl_min st; dl_max := dl_current st; dl_i := S (dl_i st) |}.

(** Two searches on the same vector that have tried the same thresholds
    so far. *)
Definition aligned (st1 st2 : delta_locals) : Prop :=
  dl_current st1 = dl_current st2 /\ dl_min st1 = dl_min st2 /\
  dl_max st1 = dl_max st2 /\ dl_i st1 = dl_i st2.

(** The attributes no update rule assigns to. *)
Definition frame (s s' : loop) : Prop :=
  class_of s' = class_of s /\ initialization s' = initialization s /\
  max_iter s' = max_iter s /\ tol s' = tol s /\
  constrained s' = constrained s /\ stochastic s' = stochastic s /\
  generalized s' = generalized s /\
  views (fit_attrs s') = views (fit_attrs s) /\
  c (hyp s') = c (hyp s) /\ positive (hyp s') = positive (hyp s) /\
  l1_ratio (hyp s') = l1_ratio (hyp s) /\
  mu (hyp s') = mu (hyp s) /\ lam (hyp s') = lam (hyp s).

(** An update of view [i]: the scores and weights of the other views stay,
    view [i] gets the weights [w] and the scores [view_i @ w]. *)
Definition updated (i : nat) (w : vec) (s s' : loop) : Prop :=
  frame s s' /\
  exists X sc ws sc' ws',
    index (views (fit_attrs s)) i = Ok X /\
    scores (fit_attrs s) = Some sc /\ weights (fit_attrs s) = Some ws /\
    scores (fit_attrs s') = Some sc' /\ weights (fit_attrs s') = Some ws' /\
    assign ws i w = Ok ws' /\ assign sc i (matvec X w) = Ok sc'.

(** View [i] holds weights [w] and the scores [view_i @ w], and [P] holds
    of the view and its weights. *)
Definition view_state (P : matrix -> vec -> Prop) (s : loop) (i : nat) : Prop :=
  exists X sc ws w,
    index (views (fit_attrs s)) i = Ok X /\
    scores (fit_attrs s) = Some sc /\ weights (fit_attrs s) = Some ws /\
    index ws i = Ok w /\ index sc i = Ok (matvec X w) /\ P X w.

(** The weights have unit L2 norm (an array of no entries apart). *)
Definition unit_weights (X : matrix) (w : vec) : Prop := w <> [] -> norm2 w = 1.

(** The scores [X @ w] have unit L2 norm. *)
Definition unit_scores (X : matrix) (w : vec) : Prop := norm2 (matvec X w) = 1.

(** The configuration of the object: its class, the constructor arguments
    that are never rebound, [generalized], and the views. *)
Definition core (s s' : loop) : Prop :=
  class_of s' = class_of s /\ initialization s' = initialization s /\
  max_iter s' = max_iter s /\ tol s' = tol s /\
  constrained s' = constrained s /\ stochastic s' = stochastic s /\
  generalized s' = generalized s /\
  views (fit_attrs s') = views (fit_attrs s).

(** Whatever its outcome, the method leaves the configuration as it was
    and the environment related by [Renv] to the one it found. *)
Definition keeps (Renv : env -> env -> Prop) {A} (m : M A) : Prop :=
  forall s e, core s (snd (fst (m s e))) /\ Renv e (snd (m s e)).

(** A call that issues no warning; a call that only adds warnings. *)
Definition same_warnings (e e' : env) : Prop := warned e' = warned e.

Definition more_warnings (e e' : env) : Prop := exists l, warned e' = warned e ++ l.

(** An environment to run examples in: every random draw is 0.5. *)
Definition env0 : env :=
  {| warned := []; random := fun _ => 0.5; drawn := O; printed := [];
     sklearn_fit := fun _ _ y => y; parikh2014 := fun _ _ _ => true |}.

(** The message of the warning for more than two views. *)
Definition views_warning : string := "For more than 2 views require generalized=True".

(** The fit [initialize] may run. *)
Definition unregularized_fit (vs : list matrix) (e : env) : result loop * env :=
  returned (fit_at 1 vs (new PLS 100 1e-5 false "random") e).

(** The budget the configuration gives view [i]: the default 1, the
    scalar, or the entry of the list. *)
Definition c_entry (h : hyper R) (i : nat) : option R :=
  match h with
  | HNone => Some 1
  | HScalar a => Some a
  | HList l => nth_error l i
  end.

(** The configuration of the specification's example: two views, [c = 0.5]. *)
Definition pmd_half : loop :=
  set_hyp {| c := HScalar 0.5; positive := HNone; l1_ratio := HNone;
             mu := HNone; lam := HNone; eta := inl HNone |}
          (new PMD 100 1e-5 false "unregularized").

(** The 2-d array [m] has [r] rows of [k] entries. *)
Definition shaped (r k : nat) (m : matrix) : Prop :=
  length m = r /\ Forall (fun row => length row = k) m.

(** The object as [check_params] and [initialize] leave it for view [i],
    a view [X] of [N] samples and [p] features: scores for the view,
    weights of [p] entries, [z[i]] and [eta[i]] of shape (N,1), and
    per-view lists [mu], [lam] and [c], with [lam[i] <> 0]. *)
Definition admm_set_up (i : nat) (X : matrix) (N p : nat) (s : loop) : Prop :=
  index (views (fit_attrs s)) i = Ok X /\ shaped N p X /\
  (exists sc, scores (fit_attrs s) = Some sc /\ (i < length sc)%nat) /\
  (exists ws w, weights (fit_attrs s) = Some ws /\ index ws i = Ok w /\ length w = p) /\
  (exists zs zv, z (solver s) = Some zs /\ index zs i = Ok (Arr2 (column zv)) /\
                 length zv = N) /\
  (exists es ev, eta (hyp s) = inr es /\ index es i = Ok (Arr2 (column ev)) /\
                 length ev = N) /\
  (exists mus lams l, mu (hyp s) = HList mus /\ (i < length mus)%nat /\
                      lam (hyp s) = HList lams /\ index lams i = Ok l /\ l <> 0) /\
  (exists cs, c (hyp s) = HList cs /\ (i < length cs)%nat).

(** The way the first round ends on such an object.  The gradient step
    [X.T @ (X @ w - z + eta)] has shape (p,N); the weights, of shape (p,),
    broadcast against it only if [p = N], [p = 1] or [N = 1], and
    [prox_mu_f] then fails on an array of two dimensions. *)
Definition first_round_error (N p : nat) : exn :=
  if ((p =? N) || (p =? 1) || (N =? 1))%nat then IndexError
  else ValueError "operands could not be broadcast together".

(** The object of the call
    [ADMM(max_iter=3, initialization='random').fit(X1, X2)] on
    two views [[1.]] when the first update begins, every random draw
    being 0.5. *)
Definition admm_first : loop :=
  {| class_of := ADMM; initialization := "random"; max_iter := 3;
     tol := 1e-5; constrained := false; stochastic := true; generalized := false;
     fit_attrs := {| views := [[[1]]; [[1]]]; scores := Some [[0.5]; [0.5]];
                     weights := Some [[0.5]; [0.5]];
                     track_objective := Some []; old_scores := None |};
     hyp := {| c := HList [0; 0]; positive := HNone; l1_ratio := HList [1; 1];
               mu := HList [1 / 1; 1 / 1];
               lam := HList [1; 1];
               eta := inr [Arr2 [[0 * 1]]; Arr2 [[0 * 1]]] |};
     solver := {| gamma := None; regressors := None;
                  z := Some [Arr2 [[0]]; Arr2 [[0]]] |} |}.

(** An ADMM loop with its attributes set: two views [[1]], scores 1 and
    3, weights 0.5, [mu = lam = 1], [c = 0], [z] and [eta] the zero
    arrays of shape (1,1), one round per update. *)
Definition admm_example : loop :=
  {| class_of := ADMM; initialization := "random"; max_iter := 1;
     tol := 1e-5; constrained := false; stochastic := true; generalized := false;
     fit_attrs := {| views := [[[1]]; [[1]]]; scores := Some [[1]; [3]];
                     weights := Some [[0.5]; [0.5]];
                     track_objective := Some []; old_scores := None |};
     hyp := {| c := HList [0; 0]; positive := HNone; l1_ratio := HList [1; 1];
               mu := HList [1; 1]; lam := HList [1; 1];
               eta := inr [Arr2 [[0]]; Arr2 [[0]]] |};
     solver := {| gamma := None; regressors := None;
                  z := Some [Arr2 [[0]]; Arr2 [[0]]] |} |}.

(** The target as the specification words it for generalized mode: the
    mean of the score vectors of all views but view [i]. *)
Definition mean_of_others (scores : list vec) (view_index : nat) : result vec :=
  row <-r index scores view_index ;
  match remove_nth view_index scores with
  | [] => NonFinite
  | others =>
    Ok (map (fun x => x / INR (length others)) (vsum (length row) others))
  end.

(** What the update rule of class [k] leaves in each of the [n] views. *)
Definition norms_hold (k : class) (con : bool) (n : nat) (s : loop) : Prop :=
  match k with
  | PLS => forall i, (i < n)%nat -> view_state unit_weights s i
  | PMD | Parkhomenko =>
    forall i, (i < n)%nat -> view_state (fun _ w => norm2 w = 1) s i
  | Elastic =>
    con = false -> forall i, (i < n)%nat -> view_state unit_scores s i
  | _ => True
  end.

(** A loop whose scores are those of the iteration before. *)
Definition settled_example : loop :=
  set_old_scores [[1]; [1]]
    (set_scores [[1]; [1]] (new PLS 5 1e-5 false "random")).

(** The scores of the second view have changed sign since the iteration
    before. *)
Definition turned_example : loop :=
  set_old_scores [[1]; [-1]]
    (set_scores [[1]; [1]] (new PLS 5 1e-5 false "random")).

(** What thresholding does to one entry. *)
Definition shrunk (t xi oi : R) : Prop :=
  Rabs oi = Rmax (Rabs xi - t) 0 /\ Rabs oi <= Rabs xi /\ 0 <= oi * xi /\
  (Rabs xi <= t -> oi = 0).

(** An entry of the answer lies on the side of zero of the entry of the
    input it comes from, or is zero. *)
Definition same_side (wi ci : R) : Prop := 0 <= wi * ci /\ (wi = 0 -> ci = 0).

(** The value of [obj] after the loop over [combinations(scores, 2)]. *)
Definition pairwise (sc : list vec) : R :=
  fold_left (fun obj p => obj + dot (fst p) (snd p)) (combinations2 sc) 0.

(** Three views of two samples with their scores. *)
Definition scored_example : loop :=
  set_scores [[1; 2]; [3; 4]; [5; 6]] (new PLS 1 1e-5 false "random").

(** The method leaves the object related by [Rs] to the one it found. *)
Definition stays (Rs : loop -> loop -> Prop) {A} (m : M A) : Prop :=
  forall s e, Rs s (snd (fst (m s e))).

(** What the update rules never assign to: the configuration, the views,
    the hyperparameters other than [eta], the objective trace and the
    scores kept from the iteration before. *)
Definition iteration_frame (s s' : loop) : Prop :=
  frame s s' /\
  track_objective (fit_attrs s') = track_objective (fit_attrs s) /\
  old_scores (fit_attrs s') = old_scores (fit_attrs s).

(** The initialization is spelt in none of the three ways [initialize]
    knows. *)
Definition unknown_initialization (s : loop) : Prop :=
  initialization s <> "random"%string /\
  initialization s <> "uniform"%string /\
  initialization s <> "unregularized"%string.

(** A loop of the given class with the budget [c] given as one number. *)
Definition with_budget (k : class) (budget : R) : loop :=
  set_hyp {| c := HScalar budget; positive := HNone; l1_ratio := HNone;
             mu := HNone; lam := HNone; eta := inl HNone |}
          (new k 100 1e-5 false "random").

(** What a validated ADMM loop [s'] holds, for the views [vs] and the
    hyperparameters [given] to the constructor. *)
Definition admm_validated (vs : list matrix) (given : hypers) (s' : loop) : Prop :=
  exists cs lams mus etas,
    c (hyp s') = HList cs /\ lam (hyp s') = HList lams /\ mu (hyp s') = HList mus /\
    l1_ratio (hyp s') = HList (repeat 1 (length vs)) /\
    eta (hyp s') =
      inr (map (fun p => Arr2 (column (vscale (snd p) (ones (nrows (fst p))))))
               (combine vs etas)) /\
    z (solver s') = Some (map (fun view => Arr2 (column (zeros (nrows view)))) vs) /\
    _process_parameter "c" (c given) 0 (length vs) = Ok cs /\
    _process_parameter "lam" (lam given) 1 (length vs) = Ok lams /\
    (mu given = HNone ->
     Forall2 (fun m p => rdiv (fst p) (frobenius (snd p) ^ 2) = Ok m)
             mus (combine lams vs)) /\
    (mu given <> HNone -> _process_parameter "mu" (mu given) 0 (length vs) = Ok mus) /\
    (exists h, eta given = inl h /\
               _process_parameter "eta" h 0 (length vs) = Ok etas) /\
    length cs = length vs /\ length lams = length vs /\
    length mus = length vs /\ length etas = length vs /\
    Forall (fun m => 0 < m) mus.

(** An ADMM loop with [mu=1] on two views of one sample and one feature. *)
Definition admm_unit : loop :=
  set_views [[[1]]; [[1]]]
    (set_hyp {| c := HNone; positive := HNone; l1_ratio := HNone;
                mu := HScalar 1; lam := HNone; eta := inl HNone |}
             (new ADMM 1 1e-5 false "random")).

(** The object at the start of a constrained solve for view [i]: [gamma]
    and the regressors have an entry for the view, and [gamma[i]] lies
    strictly between -1 and 1. *)
Definition solver_ready (i : nat) (s : loop) : Prop :=
  exists gs g regs,
    gamma (solver s) = Some gs /\ index gs i = Ok g /\ -1 < g < 1 /\
    regressors (solver s) = Some regs /\ (i < length regs)%nat.


(** The outcome is one a Python call can have: the fuel of the model's
    loops did not run out. *)
Definition finite {A} (r : result A) : Prop := r <> OutOfFuel.

(** The method comes to an end on every object and environment. *)
Definition finishes {A} (m : M A) : Prop :=
  forall s e, finite (fst (fst (m s e))).

(** Two views [[2]] with scores and weights 1, before an update. *)
Definition pair_example (k : class) : loop :=
  set_c [2; 2]
    (set_positive [false; false]
       (set_weights [[1]; [1]]
          (set_scores [[1]; [1]]
             (set_views [[[2]]; [[2]]] (new k 1 1e-5 false "random"))))).

(** What a validated elastic loop [s'] holds, for the object [s] it was
    validated from. *)
Definition elastic_validated (s s' : loop) : Prop :=
  let n := length (views (fit_attrs s)) in
  exists cs ratios ps,
    _process_parameter "c" (c (hyp s)) 0 n = Ok cs /\
    _process_parameter "l1_ratio" (l1_ratio (hyp s)) 0 n = Ok ratios /\
    _process_parameter "positive" (positive (hyp s)) false n = Ok ps /\
    c (hyp s') = HList cs /\ l1_ratio (hyp s') = HList ratios /\
    positive (hyp s') = HList ps /\
    regressors (solver s') =
      Some (map (fun p => {| estimator_of :=
                               ElasticInnerLoop.choose_estimator (stochastic s) (tol s) n
                                 (fst (fst p)) (snd (fst p)) (snd p);
                             coef_ := None |})
                (combine (combine cs ratios) ps)) /\
    gamma (solver s') =
      (if constrained s then Some (repeat 0 n) else gamma (solver s)) /\
    (constrained s = true -> forall i, (i < n)%nat -> solver_ready i s').

(** A constrained elastic loop on two views of one sample and one
    feature. *)
Definition elastic_example : loop :=
  {| class_of := Elastic; initialization := "random"; max_iter := 1;
     tol := 1e-5; constrained := true; stochastic := false; generalized := false;
     fit_attrs := {| views := [[[1]]; [[1]]]; scores := None; weights := None;
                     track_objective := None; old_scores := None |};
     hyp := {| c := HNone; positive := HNone; l1_ratio := HNone;
               mu := HNone; lam := HNone; eta := inl HNone |};
     solver := {| gamma := None; regressors := None; z := None |} |}.

(** * Properties *)

(** ** Norms *)

Lemma sumsq_nonneg (v : vec) : 0 <= sumsq v.
Proof.
  induction v as [|x v IH]; unfold sumsq in *; simpl; [lra | nra].
Qed.

Lemma norm2_nonneg (v : vec) : 0 <= norm2 v.
Proof. apply sqrt_pos. Qed.

Lemma norm1_nonneg (v : vec) : 0 <= norm1 v.
Proof.
  induction v as [|x v IH]; unfold norm1 in *; simpl; [lra|].
  pose proof (Rabs_pos x). lra.
Qed.

Lemma sumsq_zero (v : vec) : sumsq v = 0 -> v = zeros (length v).
Proof.
  induction v as [|x v IH]; intros H; [reflexivity|].
  unfold sumsq in *. simpl in *.
  pose proof (sumsq_nonneg v) as Hv. unfold sumsq in Hv.
  assert (x = 0) by nra. subst x.
  unfold zeros in *. simpl. f_equal. apply IH. nra.
Qed.

Lemma norm2_zero (v : vec) : norm2 v = 0 -> v = zeros (length v).
Proof.
  intros H. apply sumsq_zero. unfold norm2 in H.
  apply sqrt_eq_0 in H; [exact H | apply sumsq_nonneg].
Qed.

Lemma norm2_zeros (n : nat) : norm2 (zeros n) = 0.
Proof.
  unfold norm2. replace (sumsq (zeros n)) with 0; [apply sqrt_0|].
  induction n as [|n IH]; unfold sumsq, zeros in *; simpl; [reflexivity|].
  rewrite <- IH. lra.
Qed.

Lemma sumsq_div (v : vec) (d : R) :
  d <> 0 -> sumsq (map (fun x => x / d) v) = sumsq v / (d * d).
Proof.
  intros Hd. induction v as [|x v IH]; unfold sumsq in *; simpl.
  - field. exact Hd.
  - rewrite IH. field. exact Hd.
Qed.

Lemma norm2_div (v : vec) (d : R) :
  0 < d -> norm2 (map (fun x => x / d) v) = norm2 v / d.
Proof.
  intros Hd. unfold norm2. rewrite sumsq_div by lra.
  unfold Rdiv at 1. rewrite sqrt_mult_alt by apply sumsq_nonneg.
  rewrite Rinv_mult, sqrt_square by (left; apply Rinv_0_lt_compat; exact Hd).
  reflexivity.
Qed.

Lemma norm2_normalized (v : vec) :
  0 < norm2 v -> norm2 (map (fun x => x / norm2 v) v) = 1.
Proof.
  intros H. rewrite norm2_div by exact H. field. lra.
Qed.

Lemma map_div_one (v : vec) : map (fun x => x / 1) v = v.
Proof.
  induction v as [|x v IH]; simpl; [reflexivity|].
  rewrite IH. f_equal. field.
Qed.

(** ** The projection [prox_lam_g] *)

Lemma prox_lam_g_projection (x : vec) :
  ADMMInnerLoop.prox_lam_g x = unit_ball_projection x.
Proof.
  unfold ADMMInnerLoop.prox_lam_g, unit_ball_projection.
  destruct (Rlt_dec (norm2 x) 1) as [Hlt|Hge];
    destruct (Rle_dec (norm2 x) 1) as [Hle|Hgt]; try reflexivity; try lra.
  - assert (E : norm2 x = 1) by lra. rewrite E.
    rewrite Rmax_left by lra. apply map_div_one.
  - rewrite Rmax_right by lra. reflexivity.
Qed.

Lemma prox_lam_g_norm (x : vec) : norm2 (ADMMInnerLoop.prox_lam_g x) <= 1.
Proof.
  rewrite prox_lam_g_projection. unfold unit_ball_projection.
  destruct (Rle_dec (norm2 x) 1) as [Hle|Hgt]; [exact Hle|].
  rewrite norm2_normalized by lra. lra.
Qed.

(** C9: [prox_lam_g] is the projection onto the unit L2 ball (the input
    itself when its norm is at most 1, the input divided by its norm
    otherwise), and applying it twice is the same as applying it once. *)
Theorem prox_lam_g_idempotent (x : vec) :
  ADMMInnerLoop.prox_lam_g x = unit_ball_projection x /\
  (norm2 x <= 1 -> ADMMInnerLoop.prox_lam_g x = x) /\
  (1 < norm2 x -> ADMMInnerLoop.prox_lam_g x = map (fun xi => xi / norm2 x) x) /\
  ADMMInnerLoop.prox_lam_g (ADMMInnerLoop.prox_lam_g x) = ADMMInnerLoop.prox_lam_g x.
Proof.
  split; [apply prox_lam_g_projection|].
  split; [|split].
  - intros H. rewrite prox_lam_g_projection. unfold unit_ball_projection.
    destruct (Rle_dec (norm2 x) 1); [reflexivity | lra].
  - intros H. rewrite prox_lam_g_projection. unfold unit_ball_projection.
    destruct (Rle_dec (norm2 x) 1); [lra | reflexivity].
  - rewrite (prox_lam_g_projection (ADMMInnerLoop.prox_lam_g x)).
    unfold unit_ball_projection.
    destruct (Rle_dec (norm2 (ADMMInnerLoop.prox_lam_g x)) 1) as [H|H]; [reflexivity|].
    pose proof (prox_lam_g_norm x). lra.
Qed.

(** The vector [3; 4] has norm 5 and is sent to [3/5; 4/5], on which a
    second application changes nothing. *)
Lemma prox_lam_g_idempotent_witness :
  1 < norm2 [3; 4] /\
  ADMMInnerLoop.prox_lam_g [3; 4] = map (fun xi => xi / norm2 [3; 4]) [3; 4] /\
  ADMMInnerLoop.prox_lam_g (ADMMInnerLoop.prox_lam_g [3; 4]) = ADMMInnerLoop.prox_lam_g [3; 4].
Proof.
  assert (Hn : norm2 [3; 4] = 5).
  { unfold norm2, sumsq. simpl.
    replace (3 * 3 + (4 * 4 + 0)) with (5 * 5) by lra.
    apply sqrt_square. lra. }
  assert (H1 : 1 < norm2 [3; 4]) by (rewrite Hn; lra).
  destruct (prox_lam_g_idempotent [3; 4]) as (_ & _ & Hout & Hidem).
  split; [exact H1|]. split; [exact (Hout H1) | exact Hidem].
Defined.

(** ** Soft thresholding *)

Lemma vzip_length (f : R -> R -> R) (a b : vec) :
  length a = length b -> length (vzip f a b) = length a.
Proof.
  intros H. unfold vzip. rewrite length_map, length_combine, H.
  apply Nat.min_id.
Qed.

Lemma soft_threshold_length (x : vec) (t : R) (p : bool) :
  length (_soft_threshold x t p) = length x.
Proof.
  unfold _soft_threshold. rewrite vzip_length; rewrite !length_map; reflexivity.
Qed.

Lemma soft_threshold_formula (x : vec) (t : R) (p : bool) :
  _soft_threshold x t p = map (fun xi => sign xi * Rmax (Rabs xi - t) 0) x.
Proof.
  unfold _soft_threshold, vzip.
  induction x as [|xi x IH]; simpl; [reflexivity|].
  rewrite IH. f_equal. unfold Rmax.
  destruct (Rlt_dec (Rabs xi - t) 0), (Rle_dec (Rabs xi - t) 0);
    try reflexivity; try lra.
  assert (E : Rabs xi - t = 0) by lra. rewrite E. reflexivity.
Qed.

Lemma sign_neg (x : R) : x < 0 -> sign x = -1.
Proof.
  intros H. unfold sign.
  destruct (Rlt_dec 0 x); [lra|]. destruct (Rlt_dec x 0); [reflexivity | lra].
Qed.

Lemma sign_pos (x : R) : 0 < x -> sign x = 1.
Proof. intros H. unfold sign. destruct (Rlt_dec 0 x); [reflexivity | lra]. Qed.

Lemma sign_zero : sign 0 = 0.
Proof.
  unfold sign. destruct (Rlt_dec 0 0); [lra|]. destruct (Rlt_dec 0 0); [lra|].
  reflexivity.
Qed.

(** C4: [_soft_threshold] computes sign(x)·max(|x|−t, 0) in every
    component whatever the flag, so with [positive] set a negative entry
    comes out negative: on x = [-2], t = 1 the output is [-1]. *)
Theorem soft_threshold_positive_ignored :
  (forall x t p,
      _soft_threshold x t p = map (fun xi => sign xi * Rmax (Rabs xi - t) 0) x) /\
  (forall x t, _soft_threshold x t true = _soft_threshold x t false) /\
  _soft_threshold [-2] 1 true = [-1].
Proof.
  split; [apply soft_threshold_formula|]. split; [reflexivity|].
  rewrite soft_threshold_formula. simpl.
  rewrite sign_neg by lra. rewrite Rabs_left by lra.
  rewrite Rmax_left by lra. f_equal. lra.
Qed.

(** ** The bisection step *)

(** [_bin_search] always assigns [new]: over the reals one of the two
    tests on [previous_val] holds in either branch. *)
Lemma bin_search_le (current previous cv : R) (pv : option R) (min_ max_ : R) :
  cv <= 0 ->
  _bin_search current previous cv pv min_ max_ =
  Ok (if Rle_dec (match pv with None => cv | Some v => v end) 0
      then (current + max_) / 2 else (current + previous) / 2,
      current,
      if Rgt_dec current min_ then current else min_,
      max_).
Proof.
  intros H. unfold _bin_search.
  destruct (Rle_dec cv 0); [|lra]. destruct (Rgt_dec cv 0); [lra|].
  destruct (Rle_dec _ 0), (Rgt_dec _ 0); try reflexivity; lra.
Qed.

Lemma bin_search_gt (current previous cv : R) (pv : option R) (min_ max_ : R) :
  cv > 0 ->
  _bin_search current previous cv pv min_ max_ =
  Ok (if Rgt_dec (match pv with None => cv | Some v => v end) 0
      then (current + min_) / 2 else (current + previous) / 2,
      current,
      min_,
      if Rlt_dec current max_ then current else max_).
Proof.
  intros H. unfold _bin_search.
  destruct (Rle_dec cv 0); [lra|]. destruct (Rgt_dec cv 0); [|lra].
  destruct (Rgt_dec _ 0), (Rle_dec _ 0); try reflexivity; lra.
Qed.

Lemma bin_search_total (current previous cv : R) (pv : option R) (min_ max_ : R) :
  exists new min' max',
    _bin_search current previous cv pv min_ max_ = Ok (new, current, min', max').
Proof.
  destruct (Rle_dec cv 0) as [H|H].
  - rewrite bin_search_le by exact H. eauto.
  - rewrite bin_search_gt by lra. eauto.
Qed.

(** ** The candidates of [_delta_search] *)

Lemma delta_candidate_ok (w : vec) (current : R) (p : bool) :
  exists coef,
    delta_candidate w current p = Ok coef /\
    length coef = length w /\
    (coef = zeros (length w) \/ norm2 coef = 1).
Proof.
  unfold delta_candidate.
  set (coef := _soft_threshold w current p).
  assert (Hlen : length coef = length w) by apply soft_threshold_length.
  destruct (Rgt_dec (norm2 coef) 0) as [Hpos|Hzero].
  - unfold vdiv. destruct coef as [|a coef'] eqn:E.
    + exfalso. unfold norm2, sumsq in Hpos. simpl in Hpos.
      rewrite sqrt_0 in Hpos. lra.
    + rewrite <- E in *. destruct (Req_dec_T (norm2 coef) 0); [lra|].
      eexists. split; [reflexivity|]. split.
      * rewrite length_map. exact Hlen.
      * right. apply norm2_normalized. lra.
  - exists coef. split; [reflexivity|]. split; [exact Hlen|].
    left. rewrite <- Hlen. apply norm2_zero.
    pose proof (norm2_nonneg coef). lra.
Qed.

(** The loop returns by its own tests: with [50 - i] rounds of fuel or
    more it never runs out, it stops with [i <= 50], and what it returns
    is the candidate of its last round. *)
Lemma delta_loop_returns (fuel : nat) (w : vec) (c : R) (p : bool) :
  forall st,
    (dl_i st < 50)%nat -> (50 - dl_i st <= fuel)%nat ->
    exists coef i current,
      delta_loop fuel w c p st = Ok (coef, i) /\
      (dl_i st < i <= 50)%nat /\
      delta_candidate w current p = Ok coef.
Proof.
  induction fuel as [|fuel IH]; intros st Hi Hfuel; [lia|].
  simpl.
  destruct (delta_candidate_ok w (dl_current st) p) as (coef & Hc & _ & _).
  rewrite Hc. simpl.
  destruct (bin_search_total (dl_current st) (dl_previous st) (c - norm1 coef)
                             (dl_previous_val st) (dl_min st) (dl_max st))
    as (new & min' & max' & Hb).
  rewrite Hb. simpl.
  destruct (Rlt_dec (Rabs (c - norm1 coef)) _);
    [exists coef, (S (dl_i st)), (dl_current st); repeat split; auto; lia|].
  destruct (Rlt_dec (Rabs (max' - min')) _);
    [exists coef, (S (dl_i st)), (dl_current st); repeat split; auto; lia|].
  destruct (Nat.eqb_spec (dl_i st) 49) as [E|E];
    [exists coef, (S (dl_i st)), (dl_current st); repeat split; auto; lia|].
  match goal with
  | |- context [delta_loop fuel w c p ?st'] =>
    destruct (IH st') as (coef' & i' & cur' & Hl & Hi' & Hc');
      [cbn [dl_i]; lia | cbn [dl_i]; lia | rewrite Hl]
  end.
  exists coef', i', cur'. cbn [dl_i] in Hi'. repeat split; auto; lia.
Qed.

Lemma delta_loop_fuel (fuel : nat) (w : vec) (c : R) (p : bool) :
  forall st,
    (dl_i st < 50)%nat -> (50 - dl_i st <= fuel)%nat ->
    delta_loop fuel w c p st = delta_loop (50 - dl_i st) w c p st.
Proof.
  induction fuel as [|fuel IH]; intros st Hi Hfuel; [lia|].
  destruct (50 - dl_i st)%nat as [|k] eqn:Ek; [lia|].
  simpl. destruct (delta_candidate w (dl_current st) p) as [coef| | |]; try reflexivity.
  simpl. destruct (_bin_search _ _ _ _ _ _) as [[[[cur prev] mn] mx]| | |]; try reflexivity.
  simpl.
  destruct (Rlt_dec (Rabs (c - norm1 coef)) _); [reflexivity|].
  destruct (Rlt_dec (Rabs (mx - mn)) _); [reflexivity|].
  destruct (Nat.eqb_spec (dl_i st) 49) as [E|E]; [reflexivity|].
  rewrite IH by (cbn [dl_i]; lia). cbn [dl_i].
  replace (50 - S (dl_i st))%nat with k by lia. reflexivity.
Qed.

(** With fifty rounds or more the answer of [_delta_search] does not
    depend on the fuel. *)
Lemma delta_search_run_fuel (fuel : nat) (w : vec) (c : R) (p : bool) (init : R) :
  (50 <= fuel)%nat ->
  delta_search_run fuel w c p init = delta_search_run 50 w c p init.
Proof.
  intros H. unfold delta_search_run.
  destruct (vdiv w (norm2 w)) as [w'| | |]; simpl; try reflexivity.
  rewrite (delta_loop_fuel fuel) by (simpl; lia). reflexivity.
Qed.

Lemma vdiv_ok (v : vec) (d : R) :
  d <> 0 -> vdiv v d = Ok (map (fun x => x / d) v).
Proof.
  intros H. unfold vdiv. destruct v; [reflexivity|].
  destruct (Req_dec_T d 0); [contradiction | reflexivity].
Qed.

Lemma norm2_singleton (x : R) : norm2 [x] = Rabs x.
Proof.
  unfold norm2, sumsq. simpl. rewrite Rplus_0_r.
  replace (x * x) with (Rsqr x) by reflexivity. apply sqrt_Rsqr_abs.
Qed.

Lemma delta_search_run_returns (w : vec) (c : R) (p : bool) (init : R) :
  norm2 w <> 0 ->
  exists coef i current,
    delta_search_run 50 w c p init = Ok (coef, i) /\
    (1 <= i <= 50)%nat /\
    delta_candidate (map (fun x => x / norm2 w) w) current p = Ok coef.
Proof.
  intros Hw. unfold delta_search_run. rewrite vdiv_ok by exact Hw. simpl rbind.
  destruct (delta_loop_returns 50 (map (fun x => x / norm2 w) w) c p (delta_init init))
    as (coef & i & cur & Hl & Hi & Hc); [simpl; lia | simpl; lia |].
  exists coef, i, cur. simpl in Hi. repeat split; auto; lia.
Qed.

(** C10: for an input of nonzero norm [_delta_search] returns a vector
    (the outcome is [Ok]: no division met a zero divisor, the
    renormalisation in the loop dividing under the test [norm > 0] only
    and leaving the candidate as it is otherwise), and the vector returned
    is all zero or has unit L2 norm. *)
Theorem delta_search_zero_or_unit (w : vec) (c : R) (positive : bool) (init : R) :
  norm2 w <> 0 ->
  (forall v current,
      let coef := _soft_threshold v current positive in
      (norm2 coef > 0 ->
       delta_candidate v current positive = Ok (map (fun x => x / norm2 coef) coef)) /\
      (~ norm2 coef > 0 -> delta_candidate v current positive = Ok coef)) /\
  exists coef,
    _delta_search w c positive init = Ok coef /\
    length coef = length w /\
    (coef = zeros (length w) \/ norm2 coef = 1).
Proof.
  intros Hw. split.
  - intros v current coef. unfold delta_candidate. fold coef. split; intros H.
    + destruct (Rgt_dec (norm2 coef) 0); [|contradiction].
      apply vdiv_ok. lra.
    + destruct (Rgt_dec (norm2 coef) 0); [contradiction | reflexivity].
  - destruct (delta_search_run_returns w c positive init Hw)
      as (coef & i & cur & Hrun & _ & Hc).
    exists coef. unfold _delta_search. rewrite Hrun. simpl.
    split; [reflexivity|].
    destruct (delta_candidate_ok (map (fun x => x / norm2 w) w) cur positive)
      as (coef' & Hc' & Hlen & Hnorm).
    rewrite Hc in Hc'. injection Hc' as <-.
    rewrite length_map in Hlen, Hnorm. auto.
Qed.

(** On the vector [3], of norm 3, with budget 1. *)
Lemma delta_search_zero_or_unit_witness :
  norm2 [3] <> 0 /\
  exists coef,
    _delta_search [3] 1 true 0 = Ok coef /\
    length coef = length [3] /\
    (coef = zeros (length [3]) \/ norm2 coef = 1).
Proof.
  assert (Hn : norm2 [3] <> 0).
  { rewrite norm2_singleton, Rabs_right; lra. }
  split; [exact Hn|].
  apply (delta_search_zero_or_unit [3] 1 true 0 Hn).
Defined.

(** ** The L1 norm of a candidate falls as the threshold grows *)

Lemma soft_threshold_norm1 (w : vec) (delta : R) (p : bool) :
  0 <= delta -> norm1 (_soft_threshold w delta p) = Rsum (mags delta w).
Proof.
  intros Hd. rewrite soft_threshold_formula. unfold norm1, mags.
  induction w as [|x w IH]; simpl; [reflexivity|].
  rewrite IH. f_equal.
  assert (Hm : 0 <= Rmax (Rabs x - delta) 0) by apply Rmax_r.
  destruct (Rtotal_order x 0) as [H|[H|H]].
  - rewrite sign_neg by exact H.
    replace (-1 * Rmax (Rabs x - delta) 0) with (- Rmax (Rabs x - delta) 0) by lra.
    rewrite Rabs_Ropp. apply Rabs_right. lra.
  - subst x. rewrite sign_zero, Rmult_0_l, Rabs_R0.
    rewrite Rmax_right; [reflexivity | lra].
  - rewrite sign_pos by exact H. rewrite Rmult_1_l. apply Rabs_right. lra.
Qed.

Lemma soft_threshold_sumsq (w : vec) (delta : R) (p : bool) :
  0 <= delta ->
  sumsq (_soft_threshold w delta p) = Rsum (map (fun m => m * m) (mags delta w)).
Proof.
  intros Hd. rewrite soft_threshold_formula. unfold sumsq, mags.
  induction w as [|x w IH]; simpl; [reflexivity|].
  rewrite IH. f_equal.
  destruct (Rtotal_order x 0) as [H|[H|H]].
  - rewrite sign_neg by exact H. lra.
  - subst x. rewrite sign_zero, Rabs_R0. rewrite Rmax_right by lra. lra.
  - rewrite sign_pos by exact H. lra.
Qed.

Lemma norm1_div (v : vec) (d : R) :
  0 < d -> norm1 (map (fun x => x / d) v) = norm1 v / d.
Proof.
  intros Hd. unfold norm1. induction v as [|x v IH]; simpl; [lra|].
  rewrite IH. unfold Rdiv. rewrite Rabs_mult.
  rewrite (Rabs_right (/ d)); [lra|].
  left. apply Rinv_0_lt_compat. exact Hd.
Qed.

(** The sums over the two thresholdings of one vector, split by the
    entries that survive the larger threshold. *)
Lemma mags_sums (w : vec) (d d' : R) :
  d <= d' ->
  exists A B k U1 U2,
    Rsum (mags d' w) = A /\
    Rsum (map (fun m => m * m) (mags d' w)) = B /\
    Rsum (mags d w) = A + k * (d' - d) + U1 /\
    Rsum (map (fun m => m * m) (mags d w)) =
      B + 2 * (d' - d) * A + k * ((d' - d) * (d' - d)) + U2 /\
    A * A <= k * B /\ U2 <= (d' - d) * U1 /\
    0 <= U1 /\ 0 <= U2 /\ 0 <= A /\ 0 <= B /\ 0 <= k.
Proof.
  intros Hd. induction w as [|x w IH].
  - exists 0, 0, 0, 0, 0. simpl. repeat split; lra.
  - destruct IH as (A & B & k & U1 & U2 & HA & HB & HS1 & HS2 & Hcs & HU & H1 & H2 & H3 & H4 & H5).
    unfold mags in *. simpl. rewrite HA, HB, HS1, HS2.
    destruct (Rle_dec (Rabs x - d') 0) as [Hx|Hx].
    + (* thresholded away at d' *)
      rewrite (Rmax_right (Rabs x - d') 0) by exact Hx.
      set (s := Rmax (Rabs x - d) 0).
      assert (Hs : 0 <= s <= d' - d).
      { unfold s, Rmax. destruct (Rle_dec (Rabs x - d) 0); lra. }
      exists A, B, k, (U1 + s), (U2 + s * s).
      repeat split; try lra; nra.
    + (* survives d', hence d *)
      rewrite (Rmax_left (Rabs x - d') 0) by lra.
      rewrite (Rmax_left (Rabs x - d) 0) by lra.
      replace (Rabs x - d) with ((Rabs x - d') + (d' - d)) by lra.
      assert (Ht : 0 < Rabs x - d') by lra.
      generalize dependent (Rabs x - d'). intros t _ Ht.
      exists (A + t), (B + t * t), (k + 1), U1, U2.
      repeat split; try lra; try nra.
      assert (Hsq : (2 * A * t) * (2 * A * t) <= (B + k * (t * t)) * (B + k * (t * t))).
      { pose proof (Rle_0_sqr (B - k * (t * t))) as Hq. unfold Rsqr in Hq.
        assert (A * A * (t * t) <= k * B * (t * t)).
        { apply Rmult_le_compat_r; [nra | exact Hcs]. }
        lra. }
      assert (2 * A * t <= B + k * (t * t)).
      { assert (0 <= t) by lra.
        assert (0 <= B + k * (t * t)) by nra.
        apply Rnot_lt_le. intros Hlt. nra. }
      nra.
Qed.

Lemma delta_candidate_eq (w : vec) (delta : R) (p : bool) :
  delta_candidate w delta p = Ok (candidate w delta p).
Proof.
  unfold delta_candidate, candidate.
  destruct (Rgt_dec _ 0); [apply vdiv_ok; lra | reflexivity].
Qed.

Lemma candidate_norm1 (w : vec) (delta : R) (p : bool) :
  0 <= delta ->
  let N1 := Rsum (mags delta w) in
  let N2 := Rsum (map (fun m => m * m) (mags delta w)) in
  (0 < N2 -> norm1 (candidate w delta p) = N1 / sqrt N2) /\
  (~ 0 < N2 -> norm1 (candidate w delta p) = 0).
Proof.
  intros Hd N1 N2. unfold candidate.
  pose proof (soft_threshold_norm1 w delta p Hd) as E1.
  pose proof (soft_threshold_sumsq w delta p Hd) as E2.
  fold N1 in E1. fold N2 in E2.
  set (coef := _soft_threshold w delta p) in *.
  assert (En : norm2 coef = sqrt N2) by (unfold norm2; rewrite E2; reflexivity).
  destruct (Rgt_dec (norm2 coef) 0) as [Hn|Hn]; split; intros H.
  - rewrite norm1_div by lra. rewrite E1, En. reflexivity.
  - exfalso. rewrite En in Hn. assert (HN : N2 <= 0) by lra.
    rewrite (sqrt_neg_0 N2 HN) in Hn. lra.
  - exfalso. apply Hn. rewrite En. apply sqrt_lt_R0. exact H.
  - rewrite (sumsq_zero coef).
    + clear. induction (length coef) as [|n IH]; unfold norm1, zeros in *; simpl; [reflexivity|].
      rewrite IH, Rabs_R0. lra.
    + pose proof (sumsq_nonneg coef). lra.
Qed.

Lemma ratio_le (A B S1 S2 : R) :
  0 <= A -> 0 <= S1 -> 0 < B -> 0 < S2 ->
  A * A * S2 <= S1 * S1 * B ->
  A / sqrt B <= S1 / sqrt S2.
Proof.
  intros HA HS1 HB HS2 Hkey.
  assert (Hb : 0 < sqrt B) by (apply sqrt_lt_R0; exact HB).
  assert (Hs : 0 < sqrt S2) by (apply sqrt_lt_R0; exact HS2).
  pose proof (sqrt_sqrt B (Rlt_le _ _ HB)) as EB.
  pose proof (sqrt_sqrt S2 (Rlt_le _ _ HS2)) as ES.
  generalize dependent (sqrt B). generalize dependent (sqrt S2).
  intros s Hs ES b Hb EB.
  assert (Hprod : A * s <= S1 * b).
  { apply Rnot_lt_le. intros Hlt.
    assert (0 <= S1 * b) by nra.
    assert (Hsq : (S1 * b) * (S1 * b) < (A * s) * (A * s)) by nra.
    replace ((S1 * b) * (S1 * b)) with (S1 * S1 * (b * b)) in Hsq by ring.
    replace ((A * s) * (A * s)) with (A * A * (s * s)) in Hsq by ring.
    rewrite EB, ES in Hsq. lra. }
  unfold Rdiv.
  apply Rmult_le_reg_r with (r := b * s); [nra|].
  replace (A * / b * (b * s)) with (A * s) by (field; lra).
  replace (S1 * / s * (b * s)) with (S1 * b) by (field; lra).
  exact Hprod.
Qed.

Lemma ratio_key (A B k U1 U2 h : R) :
  A * A <= k * B -> U2 <= h * U1 ->
  0 <= U1 -> 0 <= U2 -> 0 <= A -> 0 < B -> 0 <= k -> 0 <= h ->
  A / sqrt B <=
  (A + k * h + U1) / sqrt (B + 2 * h * A + k * (h * h) + U2).
Proof.
  intros Hcs HU H1 H2 H3 H4 H5 Hh.
  assert (Hkh : 0 <= k * h) by nra.
  assert (HhA : 0 <= h * A) by nra.
  assert (Hkhh : 0 <= k * (h * h)) by nra.
  apply ratio_le; try lra.
  assert (E1 : A * A * (2 * h * A) <= k * B * (2 * h * A)).
  { apply Rmult_le_compat_r; lra. }
  assert (E2 : A * A * (k * (h * h)) <= k * B * (k * (h * h))).
  { apply Rmult_le_compat_r; lra. }
  assert (HkB : 0 <= k * B) by nra.
  assert (E3 : A * A * U2 <= k * B * (h * U1)).
  { apply Rle_trans with (k * B * U2).
    - apply Rmult_le_compat_r; lra.
    - apply Rmult_le_compat_l; lra. }
  assert (E4 : 0 <= B * (U1 * U1)) by (repeat apply Rmult_le_pos; lra).
  assert (E5 : 0 <= B * (A * U1)) by (repeat apply Rmult_le_pos; lra).
  assert (E6 : 0 <= B * (k * h * U1)) by (repeat apply Rmult_le_pos; lra).
  lra.
Qed.

Lemma candidate_norm1_antitone (w : vec) (p : bool) (d d' : R) :
  0 <= d -> d <= d' ->
  norm1 (candidate w d' p) <= norm1 (candidate w d p).
Proof.
  intros H0 Hd.
  destruct (candidate_norm1 w d p H0) as [Hp Hz].
  destruct (candidate_norm1 w d' p) as [Hp' Hz']; [lra|].
  destruct (mags_sums w d d' Hd)
    as (A & B & k & U1 & U2 & HA & HB & HS1 & HS2 & Hcs & HU & H1 & H2 & H3 & H4 & H5).
  rewrite HA, HB in *. rewrite HS1, HS2 in *.
  assert (Hh : 0 <= d' - d) by lra.
  destruct (Rlt_dec 0 B) as [HB0|HB0].
  - rewrite Hp' by exact HB0.
    rewrite Hp.
    + apply ratio_key; assumption.
    + assert (0 <= (d' - d) * A) by (apply Rmult_le_pos; lra).
      assert (0 <= k * ((d' - d) * (d' - d))).
      { apply Rmult_le_pos; [lra|]. apply Rmult_le_pos; lra. }
      lra.
  - rewrite Hz' by exact HB0. apply norm1_nonneg.
Qed.

(** ** The bisection of [_delta_search] *)

Lemma bisect_inv (cv : R) (st : delta_locals) :
  bracket_inv st -> bracket_inv (bisect cv st).
Proof.
  intros (H0 & H1 & H2 & _). unfold bisect, bracket_inv.
  destruct (Rle_dec cv 0); simpl; repeat split; try lra; intros; lra.
Qed.

Lemma delta_loop_step (fuel : nat) (w : vec) (c : R) (p : bool) (st : delta_locals) :
  bracket_inv st ->
  let coef := candidate w (dl_current st) p in
  let cv := c - norm1 coef in
  let st' := bisect cv st in
  delta_loop (S fuel) w c p st =
  if Rlt_dec (Rabs cv) 1e-5 then Ok (coef, S (dl_i st))
  else if Rlt_dec (Rabs (dl_max st' - dl_min st')) 1e-30 then Ok (coef, S (dl_i st))
  else if Nat.eqb (S (dl_i st)) 50 then Ok (coef, S (dl_i st))
  else delta_loop fuel w c p st'.
Proof.
  intros (H0 & H1 & H2 & Hpv) coef cv st'.
  cbn [delta_loop]. rewrite delta_candidate_eq. cbn [rbind].
  fold coef. fold cv. unfold st', bisect.
  destruct (Rle_dec cv 0) as [Hcv|Hcv].
  - rewrite bin_search_le by exact Hcv. cbn [rbind dl_max dl_min].
    assert (Emin : (if Rgt_dec (dl_current st) (dl_min st)
                    then dl_current st else dl_min st) = dl_current st).
    { destruct (Rgt_dec _ _); lra. }
    assert (Enew : (if Rle_dec (match dl_previous_val st with
                                | None => cv | Some v => v end) 0
                    then (dl_current st + dl_max st) / 2
                    else (dl_current st + dl_previous st) / 2)
                   = (dl_current st + dl_max st) / 2).
    { destruct (dl_previous_val st) as [v|].
      - destruct (Rle_dec v 0); [reflexivity|].
        destruct Hpv as [_ Hp]. rewrite Hp by lra. reflexivity.
      - destruct (Rle_dec cv 0); [reflexivity | contradiction]. }
    rewrite Emin, Enew. reflexivity.
  - rewrite bin_search_gt by lra. cbn [rbind dl_max dl_min].
    assert (Emax : (if Rlt_dec (dl_current st) (dl_max st)
                    then dl_current st else dl_max st) = dl_current st).
    { destruct (Rlt_dec _ _); lra. }
    assert (Enew : (if Rgt_dec (match dl_previous_val st with
                                | None => cv | Some v => v end) 0
                    then (dl_current st + dl_min st) / 2
                    else (dl_current st + dl_previous st) / 2)
                   = (dl_current st + dl_min st) / 2).
    { destruct (dl_previous_val st) as [v|].
      - destruct (Rgt_dec v 0); [reflexivity|].
        destruct Hpv as [Hp _]. rewrite Hp by lra. reflexivity.
      - destruct (Rgt_dec cv 0); [reflexivity | lra]. }
    rewrite Emax, Enew. reflexivity.
Qed.

Lemma bisect_bracket (cv : R) (st : delta_locals) :
  bracket_inv st ->
  dl_min st <= dl_min (bisect cv st) /\ dl_max (bisect cv st) <= dl_max st /\
  (cv <= 0 -> dl_min (bisect cv st) = dl_current st) /\
  (cv > 0 -> dl_max (bisect cv st) = dl_current st).
Proof.
  intros (H0 & H1 & H2 & _). unfold bisect.
  destruct (Rle_dec cv 0); simpl; repeat split; try lra; intros; lra.
Qed.

(** Every threshold the loop tries from [st] on lies in the bracket of
    [st]. *)
Lemma delta_loop_range (fuel : nat) (w : vec) (c : R) (p : bool) :
  forall st coef i,
    bracket_inv st ->
    delta_loop fuel w c p st = Ok (coef, i) ->
    exists delta,
      dl_min st <= delta <= dl_max st /\ coef = candidate w delta p.
Proof.
  induction fuel as [|fuel IH]; intros st coef i Hinv Hrun; [discriminate|].
  rewrite delta_loop_step in Hrun by exact Hinv.
  set (cv := c - norm1 (candidate w (dl_current st) p)) in *.
  assert (Hhere : exists delta, dl_min st <= delta <= dl_max st /\
                                candidate w (dl_current st) p = candidate w delta p).
  { exists (dl_current st). destruct Hinv as (H0 & H1 & H2 & _). split; [lra | reflexivity]. }
  destruct (Rlt_dec (Rabs cv) _);
    [injection Hrun as <- _; exact Hhere|].
  destruct (Rlt_dec (Rabs _) _);
    [injection Hrun as <- _; exact Hhere|].
  destruct (Nat.eqb _ _);
    [injection Hrun as <- _; exact Hhere|].
  destruct (IH _ _ _ (bisect_inv cv st Hinv) Hrun) as (delta & Hd & E).
  destruct (bisect_bracket cv st Hinv) as (Hmin & Hmax & _).
  exists delta. split; [lra | exact E].
Qed.

(** After a round at [current] the answer is on the side of [current]
    that the value of the round points to. *)
Lemma delta_loop_side (fuel : nat) (w : vec) (c : R) (p : bool) :
  forall st coef i,
    bracket_inv st ->
    delta_loop (S fuel) w c p st = Ok (coef, i) ->
    let cv := c - norm1 (candidate w (dl_current st) p) in
    (cv <= 0 -> norm1 coef <= norm1 (candidate w (dl_current st) p)) /\
    (cv > 0 -> norm1 (candidate w (dl_current st) p) <= norm1 coef).
Proof.
  intros st coef i Hinv Hrun cv.
  rewrite delta_loop_step in Hrun by exact Hinv. fold cv in Hrun.
  destruct (Rlt_dec (Rabs cv) _);
    [injection Hrun as <- _; split; intros; lra|].
  destruct (Rlt_dec (Rabs _) _);
    [injection Hrun as <- _; split; intros; lra|].
  destruct (Nat.eqb _ _);
    [injection Hrun as <- _; split; intros; lra|].
  destruct (delta_loop_range _ _ _ _ _ _ _ (bisect_inv cv st Hinv) Hrun)
    as (delta & Hd & ->).
  destruct (bisect_bracket cv st Hinv) as (Hmin & Hmax & Hle & Hgt).
  destruct Hinv as (H0 & H1 & H2 & _).
  split; intros Hcv.
  - rewrite (Hle Hcv) in Hd. apply candidate_norm1_antitone; lra.
  - assert (0 <= delta) by lra.
    rewrite (Hgt Hcv) in Hd. apply candidate_norm1_antitone; lra.
Qed.

Lemma bisect_aligned (cv1 cv2 : R) (st1 st2 : delta_locals) :
  aligned st1 st2 -> (cv1 <= 0 <-> cv2 <= 0) ->
  aligned (bisect cv1 st1) (bisect cv2 st2).
Proof.
  intros (E1 & E2 & E3 & E4) Hs. unfold bisect, aligned.
  destruct (Rle_dec cv1 0), (Rle_dec cv2 0); simpl;
    try (rewrite E1, ?E2, ?E3, ?E4; auto); tauto.
Qed.

Lemma delta_loop_monotone (fuel : nat) (w : vec) (p : bool) (c1 c2 : R) :
  c1 < c2 ->
  forall st1 st2 a i1 b i2,
    aligned st1 st2 -> bracket_inv st1 -> bracket_inv st2 ->
    delta_loop fuel w c1 p st1 = Ok (a, i1) ->
    delta_loop fuel w c2 p st2 = Ok (b, i2) ->
    norm1 a <= norm1 b.
Proof.
  intros Hc. induction fuel as [|fuel IH];
    intros st1 st2 a i1 b i2 Hal Hinv1 Hinv2 Hrun1 Hrun2; [discriminate|].
  pose proof (delta_loop_side _ _ _ _ _ _ _ Hinv1 Hrun1) as [Hle1 Hgt1].
  pose proof (delta_loop_side _ _ _ _ _ _ _ Hinv2 Hrun2) as [Hle2 Hgt2].
  rewrite delta_loop_step in Hrun1, Hrun2 by assumption.
  pose proof Hal as (E1 & E2 & E3 & E4).
  rewrite <- E1 in *.
  set (L := norm1 (candidate w (dl_current st1) p)) in *.
  destruct (Rle_dec (c1 - L) 0) as [Hs1|Hs1]; destruct (Rle_dec (c2 - L) 0) as [Hs2|Hs2].
  - (* both values at most 0 *)
    assert (Hal' : aligned (bisect (c1 - L) st1) (bisect (c2 - L) st2))
      by (apply bisect_aligned; [exact Hal | tauto]).
    destruct Hal' as (_ & E2' & E3' & _).
    rewrite <- E2', <- E3', <- E4 in Hrun2.
    destruct (Rlt_dec (Rabs (c2 - L)) _) as [Ht2|Ht2].
    + injection Hrun2 as <- _. apply Hle1. exact Hs1.
    + destruct (Rlt_dec (Rabs (c1 - L)) _) as [Ht1|Ht1].
      * exfalso. rewrite Rabs_left1 in Ht1, Ht2 by lra. lra.
      * destruct (Rlt_dec (Rabs _) _).
        { injection Hrun1 as <- _. injection Hrun2 as <- _. lra. }
        destruct (Nat.eqb _ _).
        { injection Hrun1 as <- _. injection Hrun2 as <- _. lra. }
        eapply IH; [| | |exact Hrun1|exact Hrun2].
        -- apply bisect_aligned; [exact Hal | tauto].
        -- apply bisect_inv; exact Hinv1.
        -- apply bisect_inv; exact Hinv2.
  - (* the searches part: the first moves up, the second down *)
    apply Rle_trans with L; [apply Hle1; exact Hs1 | apply Hgt2; lra].
  - exfalso. lra.
  - (* both values positive *)
    assert (Hal' : aligned (bisect (c1 - L) st1) (bisect (c2 - L) st2))
      by (apply bisect_aligned; [exact Hal | tauto]).
    destruct Hal' as (_ & E2' & E3' & _).
    rewrite <- E2', <- E3', <- E4 in Hrun2.
    destruct (Rlt_dec (Rabs (c1 - L)) _) as [Ht1|Ht1].
    + injection Hrun1 as <- _. apply Hgt2. lra.
    + destruct (Rlt_dec (Rabs (c2 - L)) _) as [Ht2|Ht2].
      * exfalso. rewrite Rabs_right in Ht1, Ht2 by lra. lra.
      * destruct (Rlt_dec (Rabs _) _).
        { injection Hrun1 as <- _. injection Hrun2 as <- _. lra. }
        destruct (Nat.eqb _ _).
        { injection Hrun1 as <- _. injection Hrun2 as <- _. lra. }
        eapply IH; [| | |exact Hrun1|exact Hrun2].
        -- apply bisect_aligned; [exact Hal | tauto].
        -- apply bisect_inv; exact Hinv1.
        -- apply bisect_inv; exact Hinv2.
Qed.

Lemma delta_init_inv : bracket_inv (delta_init 0).
Proof. unfold bracket_inv, delta_init. simpl. repeat split; lra. Qed.

Lemma delta_search_run_monotone (w : vec) (p : bool) (c1 c2 : R) (r1 r2 : vec * nat) :
  c1 < c2 ->
  delta_search_run 50 w c1 p 0 = Ok r1 ->
  delta_search_run 50 w c2 p 0 = Ok r2 ->
  norm1 (fst r1) <= norm1 (fst r2).
Proof.
  intros Hc H1 H2. unfold delta_search_run in *.
  destruct (vdiv w (norm2 w)) as [w'| | |]; try discriminate.
  simpl in H1, H2. destruct r1 as [a i1], r2 as [b i2].
  eapply (delta_loop_monotone 50 w' p c1 c2 Hc); eauto using delta_init_inv.
  repeat split.
Qed.

(** ** [_delta_search] over a rising sequence of budgets *)

Lemma delta_search_fst (w : vec) (c : R) (p : bool) (init : R) (r : vec * nat) :
  delta_search_run 50 w c p init = Ok r ->
  _delta_search w c p init = Ok (fst r).
Proof. intros H. unfold _delta_search. rewrite H. reflexivity. Qed.

(** C8, as amended: for an input vector of nonzero L2 norm, the calls of
    [_delta_search] on a strictly increasing sequence of budgets all
    return, each within 50 rounds of the search (more fuel than fifty
    rounds changes nothing), and the L1 norms of the vectors returned form
    a non-decreasing sequence. *)
Theorem delta_search_monotone (w : vec) (positive : bool) (cs : list R) :
  norm2 w <> 0 ->
  StronglySorted Rlt cs ->
  exists runs,
    mapR (fun c => delta_search_run 50 w c positive 0) cs = Ok runs /\
    mapR (fun c => _delta_search w c positive 0) cs = Ok (map fst runs) /\
    StronglySorted Rle (map (fun r => norm1 (fst r)) runs) /\
    Forall (fun r => (1 <= snd r <= 50)%nat) runs /\
    forall fuel c, (50 <= fuel)%nat ->
                   delta_search_run fuel w c positive 0 =
                   delta_search_run 50 w c positive 0.
Proof.
  intros Hw Hs.
  induction Hs as [|c cs Hs IH Hall].
  - exists []. simpl. repeat split; try constructor.
    intros fuel c Hf. apply delta_search_run_fuel. exact Hf.
  - destruct IH as (runs & Hruns & Hds & Hsorted & Hbound & Hfuel).
    destruct (delta_search_run_returns w c positive 0 Hw)
      as (coef & i & cur & Hrun & Hi & _).
    exists ((coef, i) :: runs). simpl.
    rewrite Hrun, Hruns, (delta_search_fst _ _ _ _ _ Hrun), Hds. simpl.
    repeat split; try constructor; auto.
    clear Hsorted Hbound Hds Hs.
    revert runs Hruns. induction Hall as [|c' cs' Hc Hall IHall]; intros runs Hruns.
    + injection Hruns as <-. constructor.
    + simpl in Hruns.
      destruct (delta_search_run 50 w c' positive 0) as [r'| | |] eqn:Hr'; try discriminate.
      simpl in Hruns.
      destruct (mapR _ cs') as [runs'| | |] eqn:Hrs'; try discriminate.
      injection Hruns as <-. simpl. constructor.
      * apply (delta_search_run_monotone w positive c c' (coef, i) r' Hc Hrun Hr').
      * apply IHall. reflexivity.
Qed.

Lemma delta_search_monotone_witness :
  norm2 [3; 4] <> 0 /\ StronglySorted Rlt [1; 1.2; 1.4] /\
  exists runs,
    mapR (fun c => delta_search_run 50 [3; 4] c false 0) [1; 1.2; 1.4] = Ok runs /\
    mapR (fun c => _delta_search [3; 4] c false 0) [1; 1.2; 1.4] = Ok (map fst runs) /\
    StronglySorted Rle (map (fun r => norm1 (fst r)) runs) /\
    Forall (fun r => (1 <= snd r <= 50)%nat) runs /\
    forall fuel c, (50 <= fuel)%nat ->
                   delta_search_run fuel [3; 4] c false 0 =
                   delta_search_run 50 [3; 4] c false 0.
Proof.
  assert (Hn : norm2 [3; 4] <> 0).
  { unfold norm2, sumsq. simpl.
    replace (3 * 3 + (4 * 4 + 0)) with (5 * 5) by lra.
    rewrite sqrt_square; lra. }
  assert (Hs : StronglySorted Rlt [1; 1.2; 1.4]).
  { repeat constructor; lra. }
  split; [exact Hn|]. split; [exact Hs|].
  exact (delta_search_monotone [3; 4] false [1; 1.2; 1.4] Hn Hs).
Defined.

(** C8, the claim refuted: on the zero vector the normalisation
    [w / np.linalg.norm(w, 2)] at the head of [_delta_search] divides by
    zero (numpy answers [nan], no comparison of [_bin_search] holds of it
    and [new] stays unassigned), so no budget gets a vector back. *)
Lemma delta_search_zero_vector :
  _delta_search [0] 1 false 0 = NonFinite /\
  _delta_search [0] 2 false 0 = NonFinite /\
  ~ exists runs, mapR (fun c => _delta_search [0] c false 0) [1; 2] = Ok runs.
Proof.
  assert (E : forall c, _delta_search [0] c false 0 = NonFinite).
  { intros c. unfold _delta_search, delta_search_run, vdiv.
    rewrite norm2_singleton, Rabs_R0.
    destruct (Req_dec_T 0 0); [reflexivity | contradiction]. }
  repeat split; try apply E.
  intros (runs & H). simpl in H. rewrite E in H. discriminate.
Qed.

(** ** Reasoning about methods *)

Lemma bind_ok {A B} (m : M A) (k : A -> M B) s e b s' e' :
  bind m k s e = (Ok b, s', e') ->
  exists a s1 e1, m s e = (Ok a, s1, e1) /\ k a s1 e1 = (Ok b, s', e').
Proof.
  unfold bind. destruct (m s e) as [[[a| | |] s1] e1]; intros H; try discriminate.
  exists a, s1, e1. auto.
Qed.

Lemma bind_run {A B} (m : M A) (k : A -> M B) s e a s1 e1 :
  m s e = (Ok a, s1, e1) -> bind m k s e = k a s1 e1.
Proof. intros H. unfold bind. rewrite H. reflexivity. Qed.

Lemma lift_ok {A} (r : result A) s e a s' e' :
  lift r s e = (Ok a, s', e') -> r = Ok a /\ s' = s /\ e' = e.
Proof. unfold lift. intros H. injection H as -> -> ->. auto. Qed.

Lemma get_ok {A} (f : loop -> A) s e a s' e' :
  get f s e = (Ok a, s', e') -> a = f s /\ s' = s /\ e' = e.
Proof. unfold get. intros H. injection H as <- <- <-. auto. Qed.

Lemma ask_ok {A} (f : env -> A) s e a s' e' :
  ask f s e = (Ok a, s', e') -> a = f e /\ s' = s /\ e' = e.
Proof. unfold ask. intros H. injection H as <- <- <-. auto. Qed.

Lemma modify_ok (f : loop -> loop) s e u s' e' :
  modify f s e = (Ok u, s', e') -> s' = f s /\ e' = e.
Proof. unfold modify. intros H. injection H as _ <- <-. auto. Qed.

Lemma ret_ok {A} (x : A) s e a s' e' :
  ret x s e = (Ok a, s', e') -> a = x /\ s' = s /\ e' = e.
Proof. unfold ret. intros H. injection H as <- <- <-. auto. Qed.

Lemma attr_ok {A} (name : string) (f : loop -> option A) s e a s' e' :
  attr name f s e = (Ok a, s', e') -> f s = Some a /\ s' = s /\ e' = e.
Proof.
  unfold attr. destruct (f s) as [x|]; intros H; [|discriminate].
  injection H as <- <- <-. auto.
Qed.

(** Unfold one successful run into the runs of its steps. *)
Ltac run_inv H :=
  lazymatch type of H with
  | bind _ _ _ _ = (Ok _, _, _) =>
    let a := fresh "a" in let s1 := fresh "s" in let e1 := fresh "e" in
    let H1 := fresh "Hm" in let H2 := fresh "Hk" in
    apply bind_ok in H; destruct H as (a & s1 & e1 & H1 & H2);
    run_inv H1; run_inv H2
  | lift _ _ _ = (Ok _, _, _) =>
    let E := fresh "E" in
    apply lift_ok in H; destruct H as (E & -> & ->)
  | get _ _ _ = (Ok _, _, _) =>
    apply get_ok in H; destruct H as (-> & -> & ->)
  | ask _ _ _ = (Ok _, _, _) =>
    apply ask_ok in H; destruct H as (-> & -> & ->)
  | modify _ _ _ = (Ok _, _, _) =>
    apply modify_ok in H; destruct H as (-> & ->)
  | ret _ _ _ = (Ok _, _, _) =>
    apply ret_ok in H; destruct H as (-> & -> & ->)
  | attr _ _ _ _ = (Ok _, _, _) =>
    let E := fresh "E" in
    apply attr_ok in H; destruct H as (E & -> & ->)
  | get_views _ _ = (Ok _, _, _) => unfold get_views in H; run_inv H
  | get_scores _ _ = (Ok _, _, _) => unfold get_scores in H; run_inv H
  | get_weights _ _ = (Ok _, _, _) => unfold get_weights in H; run_inv H
  | get_z _ _ = (Ok _, _, _) => unfold get_z in H; run_inv H
  | get_regressors _ _ = (Ok _, _, _) => unfold get_regressors in H; run_inv H
  | get_gamma _ _ = (Ok _, _, _) => unfold get_gamma in H; run_inv H
  | put_weight _ _ _ _ = (Ok _, _, _) => unfold put_weight in H; run_inv H
  | put_score _ _ _ _ = (Ok _, _, _) => unfold put_score in H; run_inv H
  | put_z _ _ _ _ = (Ok _, _, _) => unfold put_z in H; run_inv H
  | view_at _ _ _ = (Ok _, _, _) => unfold view_at in H; run_inv H
  | weight_at _ _ _ = (Ok _, _, _) => unfold weight_at in H; run_inv H
  | c_at _ _ _ = (Ok _, _, _) => unfold c_at in H; run_inv H
  | _ => idtac
  end.

(** ** Lists updated at an index *)

Lemma assign_index {A} (l : list A) (i : nat) (v : A) l' :
  assign l i v = Ok l' ->
  index l' i = Ok v /\ length l' = length l /\
  forall j, j <> i -> index l' j = index l j.
Proof.
  revert i l'. induction l as [|h t IH]; intros i l' H; [discriminate|].
  destruct i as [|i]; simpl in H.
  - injection H as <-. repeat split. intros [|j] Hj; [contradiction | reflexivity].
  - destruct (assign t i v) as [t'| | |] eqn:Et; try discriminate.
    simpl in H. injection H as <-.
    destruct (IH _ _ Et) as (H1 & H2 & H3).
    repeat split.
    + exact H1.
    + simpl. f_equal. exact H2.
    + intros [|j] Hj; [reflexivity|]. apply (H3 j). lia.
Qed.

Lemma assign_assign {A} (l : list A) (i : nat) (v v' : A) l1 :
  assign l i v = Ok l1 -> assign l1 i v' = assign l i v'.
Proof.
  revert i l1. induction l as [|h t IH]; intros i l1 H; [discriminate|].
  destruct i as [|i]; simpl in H.
  - injection H as <-. reflexivity.
  - destruct (assign t i v) as [t'| | |] eqn:Et; try discriminate.
    simpl in H. injection H as <-. simpl. rewrite (IH _ _ Et). reflexivity.
Qed.

Lemma index_lt {A} (l : list A) (i : nat) (a : A) :
  index l i = Ok a -> (i < length l)%nat.
Proof.
  unfold index. destruct (nth_error l i) eqn:E; intros H; [|discriminate].
  apply nth_error_Some. congruence.
Qed.


(** ** What an update of one view leaves alone *)

Lemma frame_refl (s : loop) : frame s s.
Proof. unfold frame. repeat split. Qed.

Lemma frame_trans (s1 s2 s3 : loop) : frame s1 s2 -> frame s2 s3 -> frame s1 s3.
Proof.
  unfold frame. intros H1 H2.
  repeat match goal with H : _ /\ _ |- _ => destruct H end.
  repeat split; congruence.
Qed.

(** Identify the values that two equations give to one expression. *)
Ltac unify_eqs :=
  repeat match goal with
  | H : Some _ = Some _ |- _ => injection H as H; subst
  | H : Ok _ = Ok _ |- _ => injection H as H; subst
  | H1 : ?x = Some _, H2 : ?x = Some _ |- _ =>
    rewrite H1 in H2; injection H2 as H2; subst
  | H1 : ?x = Ok _, H2 : ?x = Ok _ |- _ =>
    rewrite H1 in H2; injection H2 as H2; subst
  | H1 : assign ?l ?i ?v = Ok ?l', H2 : index ?l' ?i = Ok _ |- _ =>
    rewrite (proj1 (assign_index l i v l' H1)) in H2; injection H2 as H2; subst
  | H1 : assign ?l ?i ?v = Ok ?l1, H2 : assign ?l1 ?i ?v' = Ok _ |- _ =>
    rewrite (assign_assign l i v v' l1 H1) in H2
  end.

Lemma PLS_update_view_ok (i : nat) s e s' e' :
  PLSInnerLoop.update_view i s e = (Ok tt, s', e') ->
  exists sc X target w,
    scores (fit_attrs s) = Some sc /\
    index (views (fit_attrs s)) i = Ok X /\
    masked_sum sc i = Ok target /\
    vdiv (tmatvec X target) (norm2 (tmatvec X target)) = Ok w /\
    updated i w s s' /\ e' = e.
Proof.
  intros H. unfold PLSInnerLoop.update_view in H. run_inv H.
  simpl in *. unify_eqs.
  do 4 eexists. repeat split; eauto.
  do 5 eexists. repeat split; eauto.
Qed.

(** ** The norms the update rules establish *)

Lemma vdiv_inv (v : vec) (d : R) (w : vec) :
  vdiv v d = Ok w -> (v = [] /\ w = []) \/ (d <> 0 /\ w = map (fun x => x / d) v).
Proof.
  unfold vdiv. destruct v as [|x v]; intros H.
  - injection H as <-. auto.
  - destruct (Req_dec_T d 0); [discriminate|]. injection H as <-. auto.
Qed.

Lemma vdiv_unit (v w : vec) :
  vdiv v (norm2 v) = Ok w -> w <> [] -> norm2 w = 1.
Proof.
  intros H Hw. destruct (vdiv_inv _ _ _ H) as [[_ ->]|[Hd ->]]; [contradiction|].
  apply norm2_normalized. pose proof (norm2_nonneg v). lra.
Qed.

Lemma check_converged_ok (w : vec) (i : nat) (u : unit) :
  _check_converged_weights w i = Ok u -> norm2 w <> 0.
Proof.
  unfold _check_converged_weights. destruct (Req_dec_T (norm2 w) 0); [discriminate | auto].
Qed.

Lemma norm2_nil : norm2 [] = 0.
Proof. unfold norm2, sumsq. simpl. apply sqrt_0. Qed.

Lemma delta_loop_candidate (fuel : nat) (w : vec) (c : R) (p : bool) :
  forall st coef i,
    delta_loop fuel w c p st = Ok (coef, i) ->
    exists current, delta_candidate w current p = Ok coef.
Proof.
  induction fuel as [|fuel IH]; intros st coef i H; [discriminate|].
  simpl in H.
  destruct (delta_candidate w (dl_current st) p) as [cand| | |] eqn:Ec; try discriminate.
  simpl in H.
  destruct (_bin_search _ _ _ _ _ _) as [[[[cur prev] mn] mx]| | |]; try discriminate.
  simpl in H.
  destruct (Rlt_dec (Rabs (c - norm1 cand)) _);
    [injection H as <- _; eauto|].
  destruct (Rlt_dec (Rabs (mx - mn)) _);
    [injection H as <- _; eauto|].
  destruct (Nat.eqb _ _);
    [injection H as <- _; eauto|].
  exact (IH _ _ _ H).
Qed.

Lemma delta_search_ok_unit (w : vec) (c : R) (p : bool) (init : R) (coef : vec) :
  _delta_search w c p init = Ok coef -> norm2 coef = 0 \/ norm2 coef = 1.
Proof.
  unfold _delta_search, delta_search_run. intros H.
  destruct (vdiv w (norm2 w)) as [w'| | |]; try discriminate. cbn [rbind] in H.
  destruct (delta_loop 50 w' c p (delta_init init)) as [[coef' i]| | |] eqn:El;
    try discriminate.
  cbn [rbind fst] in H. injection H as <-.
  destruct (delta_loop_candidate _ _ _ _ _ _ _ El) as (cur & Hc).
  destruct (delta_candidate_ok w' cur p) as (coef & Hc' & _ & [Hz|Hu]).
  - rewrite Hc in Hc'. injection Hc' as <-. left. rewrite Hz. apply norm2_zeros.
  - rewrite Hc in Hc'. injection Hc' as <-. auto.
Qed.

Lemma dot_div (row w : vec) (d : R) :
  dot row (map (fun x => x / d) w) = dot row w / d.
Proof.
  unfold dot, vzip. revert w. induction row as [|r row IH]; intros w.
  - simpl. unfold Rdiv. lra.
  - destruct w as [|x w]; simpl; [unfold Rdiv; lra|].
    fold (Rsum (map (fun p => fst p * snd p) (combine row (map (fun x => x / d) w)))).
    fold (Rsum (map (fun p => fst p * snd p) (combine row w))).
    rewrite IH. unfold Rdiv. lra.
Qed.

Lemma matvec_div (X : matrix) (w : vec) (d : R) :
  matvec X (map (fun x => x / d) w) = map (fun x => x / d) (matvec X w).
Proof.
  unfold matvec. rewrite map_map. apply map_ext. intros row. apply dot_div.
Qed.

Lemma PMD_update_view_ok (i : nat) s e s' e' :
  PMDInnerLoop.update_view i s e = (Ok tt, s', e') ->
  exists w, norm2 w = 1 /\ updated i w s s' /\ e' = e.
Proof.
  intros H. unfold PMDInnerLoop.update_view in H. run_inv H.
  simpl in *. unify_eqs.
  match goal with
  | H : _delta_search _ _ _ _ = Ok ?w |- _ =>
    exists w; destruct (delta_search_ok_unit _ _ _ _ _ H) as [Hz|Hu]
  end.
  - match goal with
    | H : _check_converged_weights _ _ = Ok _ |- _ =>
      apply check_converged_ok in H; contradiction
    end.
  - repeat split; auto. do 5 eexists. repeat split; eauto.
Qed.

Lemma Parkhomenko_update_view_ok (i : nat) s e s' e' :
  ParkhomenkoInnerLoop.update_view i s e = (Ok tt, s', e') ->
  exists w, norm2 w = 1 /\ updated i w s s' /\ e' = e.
Proof.
  intros H. unfold ParkhomenkoInnerLoop.update_view in H. run_inv H.
  simpl in *. unify_eqs.
  match goal with
  | H : vdiv (_soft_threshold ?v ?t ?p) _ = Ok ?w,
    Hc : _check_converged_weights (_soft_threshold ?v ?t ?p) _ = Ok _ |- _ =>
    exists w; apply check_converged_ok in Hc;
    destruct (vdiv_inv _ _ _ H) as [[Hn _]|[Hd ->]];
    [rewrite Hn, norm2_nil in Hc; contradiction|]
  end.
  split.
  - apply norm2_normalized.
    match goal with |- 0 < norm2 ?v => pose proof (norm2_nonneg v); lra end.
  - repeat split; auto. do 5 eexists. repeat split; eauto.
Qed.

Lemma Elastic_update_view_ok (i : nat) s e s' e' :
  constrained s = false ->
  ElasticInnerLoop.update_view i s e = (Ok tt, s', e') ->
  exists sc X target regs reg w,
    scores (fit_attrs s) = Some sc /\
    index (views (fit_attrs s)) i = Ok X /\
    ElasticInnerLoop.target_of (generalized s) sc i = Ok target /\
    regressors (solver s) = Some regs /\ index regs i = Ok reg /\
    vdiv (sklearn_fit e reg X target)
         (norm2 (matvec X (sklearn_fit e reg X target))) = Ok w /\
    norm2 (matvec X w) = 1 /\
    updated i w s s' /\ e' = e.
Proof.
  intros Hcon H. unfold ElasticInnerLoop.update_view in H. run_inv H.
  match goal with
  | H : (if constrained ?s then _ else _) _ _ = _ |- _ =>
    rewrite Hcon in H; unfold ElasticInnerLoop.elastic_solver, regressor_fit in H; run_inv H
  end.
  simpl in *. unify_eqs.
  match goal with
  | H : vdiv ?coef (norm2 (matvec ?X ?coef)) = Ok ?w,
    Hc : _check_converged_weights ?w _ = Ok _ |- _ =>
    apply check_converged_ok in Hc;
    destruct (vdiv_inv _ _ _ H) as [[_ Hn]|[Hd Hw]];
    [rewrite Hn, norm2_nil in Hc; contradiction|];
    assert (Hunit : norm2 (matvec X w) = 1)
  end.
  { rewrite Hw, matvec_div. apply norm2_normalized.
    match goal with |- 0 < norm2 ?v => pose proof (norm2_nonneg v); lra end. }
  do 6 eexists. repeat split; eauto.
  do 5 eexists. repeat split; eauto.
Qed.

(** ** Evaluating the plumbing of a method *)

(** Reduce the plumbing of a method (binds, attribute reads and writes)
    and nothing else. *)
Ltac mred :=
  cbv beta iota zeta delta
      [bind get attr lift modify ret ask get_views get_scores get_weights get_z
       get_eta get_regressors get_gamma put_weight put_score put_z put_eta
       view_at weight_at c_at
       set_weights set_scores set_views set_fit_attrs set_track_objective
       set_old_scores set_generalized set_hyp set_solver set_c set_positive
       set_l1_ratio set_mu set_lam set_eta set_gamma set_regressors set_z
       fit_attrs hyp solver views scores weights track_objective old_scores
       class_of initialization max_iter tol constrained stochastic generalized
       c positive l1_ratio mu lam eta gamma regressors z].

Ltac destruct_loop s :=
  let k := fresh "k" in let ini := fresh "ini" in let mi := fresh "mi" in
  let tl := fresh "tl" in let con := fresh "con" in let sto := fresh "sto" in
  let gen := fresh "gen" in let vs := fresh "vs" in let osc := fresh "osc" in
  let ows := fresh "ows" in let tr := fresh "tr" in let old := fresh "old" in
  let hc := fresh "hc" in let hp := fresh "hp" in let hl := fresh "hl" in
  let hm := fresh "hm" in let hla := fresh "hla" in let he := fresh "he" in
  let sg := fresh "sg" in let sr := fresh "sr" in let sz := fresh "sz" in
  destruct s as [k ini mi tl con sto gen [vs osc ows tr old]
                   [hc hp hl hm hla he] [sg sr sz]].

Lemma vdiv_singleton (x : R) : 0 < x -> vdiv [x] (norm2 [x]) = Ok [1].
Proof.
  intros H. rewrite norm2_singleton, Rabs_right by lra.
  rewrite vdiv_ok by lra. simpl. f_equal. f_equal. field. lra.
Qed.

(** ** One pass over the views *)

Lemma updated_here (P : matrix -> vec -> Prop) i w s s' X :
  updated i w s s' -> index (views (fit_attrs s)) i = Ok X -> P X w ->
  view_state P s' i.
Proof.
  intros (Hf & X' & sc & ws & sc' & ws' & HX & Hsc & Hws & Hsc' & Hws' & Haw & Has) HX2 HP.
  rewrite HX in HX2. injection HX2 as ->.
  exists X, sc', ws', w. repeat split; auto.
  - destruct Hf as (_ & _ & _ & _ & _ & _ & _ & Hv & _). rewrite Hv. exact HX.
  - apply (assign_index _ _ _ _ Haw).
  - apply (assign_index _ _ _ _ Has).
Qed.

Lemma updated_other (P : matrix -> vec -> Prop) i w s s' j :
  updated i w s s' -> j <> i -> view_state P s j -> view_state P s' j.
Proof.
  intros (Hf & X' & sc & ws & sc' & ws' & HX & Hsc & Hws & Hsc' & Hws' & Haw & Has) Hj
         (X & sc0 & ws0 & w0 & HXj & Hsc0 & Hws0 & Hw0 & Hs0 & HP).
  rewrite Hsc in Hsc0. injection Hsc0 as <-.
  rewrite Hws in Hws0. injection Hws0 as <-.
  exists X, sc', ws', w0. repeat split; auto.
  - destruct Hf as (_ & _ & _ & _ & _ & _ & _ & Hv & _). rewrite Hv. exact HXj.
  - rewrite (proj2 (proj2 (assign_index _ _ _ _ Haw)) j Hj). exact Hw0.
  - rewrite (proj2 (proj2 (assign_index _ _ _ _ Has)) j Hj). exact Hs0.
Qed.

Lemma for_each_views (P : matrix -> vec -> Prop) (Q : loop -> Prop)
      (upd : nat -> M unit) :
  (forall s s', frame s s' -> Q s -> Q s') ->
  (forall i s e s' e',
      Q s -> upd i s e = (Ok tt, s', e') ->
      exists w X, index (views (fit_attrs s)) i = Ok X /\ P X w /\ updated i w s s') ->
  forall n k s e s' e',
    Q s -> for_each (seq k n) upd s e = (Ok tt, s', e') ->
    frame s s' /\
    (forall j, (j < k)%nat -> view_state P s j -> view_state P s' j) /\
    (forall j, (k <= j < k + n)%nat -> view_state P s' j).
Proof.
  intros HQ Hupd. induction n as [|n IH]; intros k s e s' e' Hq Hrun.
  - simpl in Hrun. apply ret_ok in Hrun. destruct Hrun as (_ & -> & ->).
    split; [apply frame_refl|]. split; [auto | intros j Hj; lia].
  - simpl in Hrun. apply bind_ok in Hrun.
    destruct Hrun as ([] & s1 & e1 & Hstep & Hrest).
    destruct (Hupd _ _ _ _ _ Hq Hstep) as (w & X & HX & HP & Hu).
    pose proof Hu as (Hf1 & _).
    destruct (IH (S k) s1 e1 s' e' (HQ _ _ Hf1 Hq) Hrest) as (Hf2 & Hbelow & Hfrom).
    split; [eapply frame_trans; eauto|]. split.
    + intros j Hj Hv. apply Hbelow; [lia|].
      eapply updated_other; eauto. lia.
    + intros j Hj. destruct (Nat.eq_dec j k) as [->|Hne].
      * apply Hbelow; [lia|]. eapply updated_here; eauto.
      * apply Hfrom. lia.
Qed.

Lemma class_frame (k : class) (s s' : loop) :
  frame s s' -> class_of s = k -> class_of s' = k.
Proof. intros (H & _) E. congruence. Qed.

Lemma inner_iteration_views (P : matrix -> vec -> Prop) (Q : loop -> Prop) :
  (forall s s', frame s s' -> Q s -> Q s') ->
  (forall s, Q s -> class_of s <> Base) ->
  (forall i s e s' e',
      Q s -> update_view i s e = (Ok tt, s', e') ->
      exists w X, index (views (fit_attrs s)) i = Ok X /\ P X w /\ updated i w s s') ->
  forall s e s' e',
    Q s -> inner_iteration s e = (Ok tt, s', e') ->
    frame s s' /\
    forall i, (i < length (views (fit_attrs s)))%nat -> view_state P s' i.
Proof.
  intros HQ Hcls Hupd s e s' e' Hq Hrun.
  unfold inner_iteration in Hrun. apply bind_ok in Hrun.
  destruct Hrun as (k & s1 & e1 & Hget & Hrun). run_inv Hget.
  assert (Hfor : (vs <- get_views ;; for_each (seq 0 (length vs)) update_view) s e
                 = (Ok tt, s', e')).
  { pose proof (Hcls s Hq). destruct (class_of s); try exact Hrun. contradiction. }
  apply bind_ok in Hfor. destruct Hfor as (vs & s1 & e1 & Hget & Hfor). run_inv Hget.
  destruct (for_each_views P Q update_view HQ Hupd _ _ _ _ _ _ Hq Hfor)
    as (Hf & _ & Hall).
  split; [exact Hf|]. intros i Hi. apply Hall. lia.
Qed.

Lemma update_view_class (k : class) (i : nat) s e :
  class_of s = k ->
  update_view i s e =
  match k with
  | Base => lift (Raise (AttributeError "update_view"))
  | PLS => PLSInnerLoop.update_view i
  | PMD => PMDInnerLoop.update_view i
  | Parkhomenko => ParkhomenkoInnerLoop.update_view i
  | Elastic => ElasticInnerLoop.update_view i
  | ADMM => ADMMInnerLoop.update_view i
  end s e.
Proof. intros <-. reflexivity. Qed.

Lemma updated_view i w s s' :
  updated i w s s' -> exists X, index (views (fit_attrs s)) i = Ok X.
Proof. intros (_ & X & _ & _ & _ & _ & HX & _). eauto. Qed.

(** One pass over the views, by class. *)
Lemma inner_iteration_pass s e s' e' :
  inner_iteration s e = (Ok tt, s', e') ->
  (class_of s = PLS ->
   forall i, (i < length (views (fit_attrs s)))%nat -> view_state unit_weights s' i) /\
  (class_of s = PMD \/ class_of s = Parkhomenko ->
   forall i, (i < length (views (fit_attrs s)))%nat ->
             view_state (fun _ w => norm2 w = 1) s' i) /\
  (class_of s = Elastic -> constrained s = false ->
   forall i, (i < length (views (fit_attrs s)))%nat -> view_state unit_scores s' i).
Proof.
  intros Hrun. split; [|split].
  - intros Hk.
    refine (proj2 (inner_iteration_views unit_weights (fun s => class_of s = PLS)
                     _ _ _ s e s' e' Hk Hrun)).
    + intros s1 s2 Hf. apply class_frame. exact Hf.
    + intros s1 E. rewrite E. discriminate.
    + intros i s1 e1 s2 e2 E Hu. rewrite (update_view_class _ _ _ _ E) in Hu.
      destruct (PLS_update_view_ok _ _ _ _ _ Hu) as (sc & X & t & w & _ & HX & _ & Hw & Hup & _).
      exists w, X. split; [exact HX|]. split; [|exact Hup].
      intros Hne. eapply vdiv_unit; eauto.
  - intros Hk.
    refine (proj2 (inner_iteration_views (fun _ w => norm2 w = 1)
                     (fun s => class_of s = PMD \/
                               class_of s = Parkhomenko)
                     _ _ _ s e s' e' Hk Hrun)).
    + intros s1 s2 Hf [E|E]; [left | right]; eapply class_frame; eauto.
    + intros s1 [E|E]; rewrite E; discriminate.
    + intros i s1 e1 s2 e2 [E|E] Hu; rewrite (update_view_class _ _ _ _ E) in Hu.
      * destruct (PMD_update_view_ok _ _ _ _ _ Hu) as (w & Hn & Hup & _).
        destruct (updated_view _ _ _ _ Hup) as (X & HX). exists w, X. auto.
      * destruct (Parkhomenko_update_view_ok _ _ _ _ _ Hu) as (w & Hn & Hup & _).
        destruct (updated_view _ _ _ _ Hup) as (X & HX). exists w, X. auto.
  - intros Hk Hcon.
    refine (proj2 (inner_iteration_views unit_scores
                     (fun s => class_of s = Elastic /\ constrained s = false)
                     _ _ _ s e s' e' (conj Hk Hcon) Hrun)).
    + intros s1 s2 Hf [E1 E2]. split; [eapply class_frame; eauto|].
      destruct Hf as (_ & _ & _ & _ & Hc & _). congruence.
    + intros s1 [E _]. rewrite E. discriminate.
    + intros i s1 e1 s2 e2 [E Hc] Hu. rewrite (update_view_class _ _ _ _ E) in Hu.
      destruct (Elastic_update_view_ok _ _ _ _ _ Hc Hu)
        as (sc & X & t & regs & reg & w & _ & HX & _ & _ & _ & _ & Hn & Hup & _).
      exists w, X. auto.
Qed.

(** ** What no method but [fit] assigns to *)

Lemma core_refl s : core s s.
Proof. unfold core. repeat split. Qed.

Lemma core_trans s1 s2 s3 : core s1 s2 -> core s2 s3 -> core s1 s3.
Proof.
  unfold core. intros H1 H2.
  repeat match goal with H : _ /\ _ |- _ => destruct H end.
  repeat split; congruence.
Qed.

Section Keeps.

(** [Renv] relates the environment before a call to the one after it. *)
Variable Renv : env -> env -> Prop.
Hypothesis Renv_refl : forall e, Renv e e.
Hypothesis Renv_trans : forall e1 e2 e3, Renv e1 e2 -> Renv e2 e3 -> Renv e1 e3.
Hypothesis Renv_draw : forall n e, Renv e (env_draw n e).
Hypothesis Renv_print : forall l e, Renv e (env_print l e).

Lemma keeps_ret {A} (a : A) : keeps Renv (ret a).
Proof. intros s e. simpl. split; [apply core_refl | apply Renv_refl]. Qed.

Lemma keeps_lift {A} (r : result A) : keeps Renv (lift r).
Proof. intros s e. simpl. split; [apply core_refl | apply Renv_refl]. Qed.

Lemma keeps_get {A} (f : loop -> A) : keeps Renv (get f).
Proof. intros s e. simpl. split; [apply core_refl | apply Renv_refl]. Qed.

Lemma keeps_ask {A} (f : env -> A) : keeps Renv (ask f).
Proof. intros s e. simpl. split; [apply core_refl | apply Renv_refl]. Qed.

Lemma keeps_attr {A} (name : string) (f : loop -> option A) : keeps Renv (attr name f).
Proof.
  intros s e. unfold attr. destruct (f s); simpl;
    (split; [apply core_refl | apply Renv_refl]).
Qed.

Lemma keeps_get_eta : keeps Renv get_eta.
Proof.
  intros s e. unfold get_eta. destruct (eta (hyp s)); simpl;
    (split; [apply core_refl | apply Renv_refl]).
Qed.

Lemma keeps_modify (f : loop -> loop) :
  (forall s, core s (f s)) -> keeps Renv (modify f).
Proof. intros H s e. simpl. split; [apply H | apply Renv_refl]. Qed.

Lemma keeps_rand (n : nat) : keeps Renv (rand n).
Proof. intros s e. simpl. split; [apply core_refl | apply Renv_draw]. Qed.

Lemma keeps_print (l : string) : keeps Renv (print l).
Proof. intros s e. simpl. split; [apply core_refl | apply Renv_print]. Qed.

Lemma keeps_bind {A B} (m : M A) (k : A -> M B) :
  keeps Renv m -> (forall a, keeps Renv (k a)) -> keeps Renv (bind m k).
Proof.
  intros Hm Hk s e. unfold bind. specialize (Hm s e).
  destruct (m s e) as [[[a| | |] s1] e1]; simpl in *; try exact Hm.
  destruct Hm as [Hc He]. specialize (Hk a s1 e1).
  destruct (k a s1 e1) as [[r s2] e2]. simpl in *. destruct Hk as [Hc' He'].
  split; [eapply core_trans; eauto | eapply Renv_trans; eauto].
Qed.

Lemma keeps_for_each {A} (l : list A) (body : A -> M unit) :
  (forall a, keeps Renv (body a)) -> keeps Renv (for_each l body).
Proof.
  intros H. induction l as [|a l IH]; simpl; [apply keeps_ret|].
  apply keeps_bind; auto.
Qed.

Lemma keeps_mapM {A B} (f : A -> M B) (l : list A) :
  (forall a, keeps Renv (f a)) -> keeps Renv (mapM f l).
Proof.
  intros H. induction l as [|a l IH]; simpl; [apply keeps_ret|].
  apply keeps_bind; [auto|]. intros b. apply keeps_bind; [auto|].
  intros t. apply keeps_ret.
Qed.

(** One step of the structural argument. *)
Ltac keeps_step :=
  lazymatch goal with
  | |- keeps _ (bind _ _) => apply keeps_bind; [|intros]
  | |- keeps _ (ret _) => apply keeps_ret
  | |- keeps _ (lift _) => apply keeps_lift
  | |- keeps _ (get _) => apply keeps_get
  | |- keeps _ (ask _) => apply keeps_ask
  | |- keeps _ (attr _ _) => apply keeps_attr
  | |- keeps _ get_eta => apply keeps_get_eta
  | |- keeps _ (rand _) => apply keeps_rand
  | |- keeps _ (print _) => apply keeps_print
  | |- keeps _ (modify _) =>
    apply keeps_modify; intros; unfold core; repeat split
  | |- keeps _ (for_each _ _) => apply keeps_for_each; intros
  | |- keeps _ (mapM _ _) => apply keeps_mapM; intros
  | |- keeps _ (if ?b then _ else _) => destruct b
  | |- keeps _ (match ?x with _ => _ end) => destruct x
  | |- keeps _ (let '(_, _) := ?x in _) => destruct x
  | |- keeps _ get_views => unfold get_views
  | |- keeps _ get_scores => unfold get_scores
  | |- keeps _ get_weights => unfold get_weights
  | |- keeps _ get_z => unfold get_z
  | |- keeps _ get_regressors => unfold get_regressors
  | |- keeps _ get_gamma => unfold get_gamma
  | |- keeps _ (put_weight _ _) => unfold put_weight
  | |- keeps _ (put_score _ _) => unfold put_score
  | |- keeps _ (put_z _ _) => unfold put_z
  | |- keeps _ (put_eta _ _) => unfold put_eta
  | |- keeps _ (view_at _) => unfold view_at
  | |- keeps _ (weight_at _) => unfold weight_at
  | |- keeps _ (c_at _) => unfold c_at
  | |- keeps _ (regressor_fit _ _ _) => unfold regressor_fit
  end.

Ltac keeps_tac := repeat keeps_step.

Lemma keeps_check_params : keeps Renv check_params.
Proof.
  unfold check_params. keeps_tac.
  - unfold BaseInnerLoop.check_params. keeps_tac.
  - unfold PLSInnerLoop.check_params. keeps_tac.
  - unfold PMDInnerLoop.check_params. keeps_tac.
  - unfold ParkhomenkoInnerLoop.check_params. keeps_tac.
  - unfold ElasticInnerLoop.check_params. keeps_tac.
  - unfold ADMMInnerLoop.check_params. keeps_tac.
Qed.

Lemma keeps_constrained_loop fuel X y i st :
  keeps Renv (ElasticInnerLoop.constrained_loop fuel X y i st).
Proof.
  revert st. induction fuel as [|fuel IH]; intros st; simpl; keeps_tac.
  apply IH.
Qed.

Lemma keeps_update_rounds n i mu lam N g tr :
  keeps Renv (ADMMInnerLoop.update_rounds n i mu lam N g tr).
Proof.
  revert tr. induction n as [|n IH]; intros tr; simpl; keeps_tac; [|apply IH].
  unfold ADMMInnerLoop.update_round. keeps_tac.
Qed.

Lemma keeps_update_view i : keeps Renv (update_view i).
Proof.
  unfold update_view. keeps_tac.
  - unfold PLSInnerLoop.update_view. keeps_tac.
  - unfold PMDInnerLoop.update_view. keeps_tac.
  - unfold ParkhomenkoInnerLoop.update_view. keeps_tac.
  - unfold ElasticInnerLoop.update_view. keeps_tac.
    + unfold ElasticInnerLoop.elastic_solver_constrained. keeps_tac.
      apply keeps_constrained_loop.
    + unfold ElasticInnerLoop.elastic_solver. keeps_tac.
  - unfold ADMMInnerLoop.update_view, ADMMInnerLoop.update_view_loop. keeps_tac.
    apply keeps_update_rounds.
Qed.

Lemma keeps_inner_iteration : keeps Renv inner_iteration.
Proof.
  unfold inner_iteration. keeps_tac;
    try (unfold BaseInnerLoop.inner_iteration; keeps_tac);
    apply keeps_update_view.
Qed.

Lemma keeps_objective : keeps Renv objective.
Proof.
  unfold objective. keeps_tac;
    try (unfold BaseInnerLoop.objective; keeps_tac);
    unfold elastic_cca_objective; keeps_tac.
Qed.

Lemma keeps_early_stop : keeps Renv early_stop.
Proof.
  unfold early_stop. keeps_tac;
    try (unfold BaseInnerLoop.early_stop; keeps_tac);
    unfold PLSInnerLoop.early_stop; keeps_tac.
Qed.

Lemma keeps_iterate n k : keeps Renv (iterate n k).
Proof.
  revert k. induction n as [|n IH]; intros k; simpl; keeps_tac;
    try apply keeps_inner_iteration; try apply keeps_objective;
    try apply keeps_early_stop; try apply IH.
Qed.

(** [initialize] hands the views of the object to the nested fit. *)
Lemma keeps_initialize (nested : list matrix -> env -> result loop * env) s e :
  (forall e1, Renv e1 (snd (nested (views (fit_attrs s)) e1))) ->
  core s (snd (fst (BaseInnerLoop.initialize nested s e))) /\
  Renv e (snd (BaseInnerLoop.initialize nested s e)).
Proof.
  intros Hn. unfold BaseInnerLoop.initialize.
  unfold bind at 1. unfold get at 1. cbv beta iota.
  unfold bind at 1. unfold get_views at 1. unfold get at 1. cbv beta iota.
  match goal with
  | |- core s (snd (fst (?m s e))) /\ _ => cut (keeps Renv m); [intros H; exact (H s e)|]
  end.
  keeps_tac.
  intros s1 e1. specialize (Hn e1).
  destruct (nested (views (fit_attrs s)) e1) as [r e'].
  simpl in *. split; [apply core_refl | exact Hn].
Qed.

Lemma keeps_bind_at {A B} (m : M A) (k : A -> M B) s e :
  core s (snd (fst (m s e))) /\ Renv e (snd (m s e)) ->
  (forall a s1 e1,
      m s e = (Ok a, s1, e1) ->
      core s1 (snd (fst (k a s1 e1))) /\ Renv e1 (snd (k a s1 e1))) ->
  core s (snd (fst (bind m k s e))) /\ Renv e (snd (bind m k s e)).
Proof.
  intros Hm Hk. unfold bind.
  destruct (m s e) as [[[a| | |] s1] e1]; try exact Hm.
  destruct Hm as [Hc He]. destruct (Hk a s1 e1 eq_refl) as [Hc' He'].
  split; [eapply core_trans; eauto | eapply Renv_trans; eauto].
Qed.

Lemma keeps_fit_body (nested : list matrix -> env -> result loop * env) s e :
  (forall e1, Renv e1 (snd (nested (views (fit_attrs s)) e1))) ->
  core s (snd (fst (fit_body nested s e))) /\
  Renv e (snd (fit_body nested s e)).
Proof.
  intros Hn. unfold fit_body.
  apply keeps_bind_at; [apply keeps_check_params|].
  intros u s1 e1 H1.
  assert (Hv : views (fit_attrs s1) = views (fit_attrs s)).
  { pose proof (keeps_check_params s e) as [Hc _]. rewrite H1 in Hc.
    apply Hc. }
  apply keeps_bind_at.
  - apply keeps_initialize. intros e0. rewrite Hv. apply Hn.
  - intros u2 s2 e2 _.
    match goal with
    | |- core s2 (snd (fst (?m s2 e2))) /\ _ => cut (keeps Renv m); [intros H; exact (H s2 e2)|]
    end.
    keeps_tac. apply keeps_iterate.
Qed.

End Keeps.

Lemma more_warnings_trans e1 e2 e3 :
  more_warnings e1 e2 -> more_warnings e2 e3 -> more_warnings e1 e3.
Proof.
  intros (l1 & H1) (l2 & H2). exists (l1 ++ l2). rewrite H2, H1, app_assoc. reflexivity.
Qed.

Lemma more_warnings_refl e : more_warnings e e.
Proof. exists []. rewrite app_nil_r. reflexivity. Qed.

Lemma same_warnings_trans e1 e2 e3 :
  same_warnings e1 e2 -> same_warnings e2 e3 -> same_warnings e1 e3.
Proof. unfold same_warnings. congruence. Qed.

Lemma snd_returned (run : result unit * loop * env) : snd (returned run) = snd run.
Proof. destruct run as [[[u| | |] s] e]; reflexivity. Qed.

(** The two ways into the body of [fit]. *)
Lemma fit_at_unfold (depth : nat) (vs : list matrix) s e :
  fit_at (S depth) vs s e =
  fit_body (fun vs e =>
              returned (fit_at depth vs (new PLS 100 1e-5 false "random") e))
           (if (2 <? length vs)%nat
            then set_generalized true (set_views vs s) else set_views vs s)
           (if (2 <? length vs)%nat
            then env_warn "For more than 2 views require generalized=True" e else e).
Proof. cbn [fit_at]. destruct (2 <? length vs)%nat; reflexivity. Qed.


Lemma views_set (vs : list matrix) (b : bool) s :
  views (fit_attrs (if b then set_generalized true (set_views vs s)
                    else set_views vs s)) = vs.
Proof. destruct b; reflexivity. Qed.

Lemma fit_at_same_warnings (depth : nat) :
  forall vs s e, (length vs <= 2)%nat -> same_warnings e (snd (fit_at depth vs s e)).
Proof.
  induction depth as [|depth IH]; intros vs s e Hlen; [reflexivity|].
  rewrite fit_at_unfold.
  assert (E : (2 <? length vs)%nat = false) by (apply Nat.ltb_ge; exact Hlen).
  rewrite E.
  apply (keeps_fit_body same_warnings (fun _ => eq_refl) same_warnings_trans).
  - reflexivity.
  - reflexivity.
  - intros e1. rewrite snd_returned. apply IH. exact Hlen.
Qed.

(** ** [fit] and the number of views *)

(** Evaluate a call on given data, leaving the arithmetic on reals as it
    stands. *)
Ltac meval :=
  cbv beta iota zeta delta
      [fit fit_at fit_body returned iterate inner_iteration objective early_stop
       update_view check_params
       BaseInnerLoop.check_params BaseInnerLoop.inner_iteration BaseInnerLoop.early_stop
       BaseInnerLoop.objective BaseInnerLoop.initialize
       PLSInnerLoop.check_params PLSInnerLoop.update_view PLSInnerLoop.early_stop PLSInnerLoop.all_similar
       PMDInnerLoop.check_params _process_parameter
       ADMMInnerLoop.update_view ADMMInnerLoop.update_view_loop ADMMInnerLoop.update_rounds ADMMInnerLoop.update_round
       hyper_index hyper_list
       combinations2 masked_sum remove_nth vsum index assign mapM for_each
       rand warn print env_draw env_warn env_print new
       bind get attr lift modify ret ask get_views get_scores get_weights get_z
       get_eta get_regressors get_gamma put_weight put_score put_z put_eta
       view_at weight_at c_at rbind
       set_weights set_scores set_views set_fit_attrs set_track_objective
       set_old_scores set_generalized set_hyp set_solver set_c set_positive
       set_l1_ratio set_mu set_lam set_eta set_gamma set_regressors set_z
       fit_attrs hyp solver views scores weights track_objective old_scores
       class_of initialization max_iter tol constrained stochastic generalized
       c positive l1_ratio mu lam eta gamma regressors z
       warned random drawn printed sklearn_fit parikh2014
       unnorm_z norm_eta norm_weights norm_proj
       nrows ncols
       length seq map app nth_error combine fold_right fold_left repeat existsb
       fst snd
       Nat.ltb Nat.leb Nat.eqb Nat.add
       String.eqb Ascii.eqb Bool.eqb
       Z.to_nat Pos.to_nat Pos.iter_op].

Lemma tmatvec_singleton (x y : R) : tmatvec [[x]] [y] = [y * x].
Proof. unfold tmatvec, vadd, vzip. simpl. f_equal. lra. Qed.

Lemma matvec_singleton (x w : R) : matvec [[x]] [w] = [x * w].
Proof. unfold matvec, dot, vzip. simpl. f_equal. lra. Qed.

(** C1, the claim refuted: a PLS loop fitted on a single view (one sample,
    one feature) raises nothing; the fit runs its iteration and returns
    with weights [[1]]. *)
Lemma fit_single_view_returns :
  (length [[[1]]] < 2)%nat /\
  exists s' e',
    fit [[[1]]] (new PLS 1 1e-5 false "random") env0 = (Ok tt, s', e') /\
    weights (fit_attrs s') = Some [[1]] /\
    track_objective (fit_attrs s') = Some [0] /\
    warned e' = [].
Proof.
  split; [simpl; lia|].
  unfold env0. meval.
  rewrite tmatvec_singleton. rewrite vdiv_singleton by lra. meval.
  do 2 eexists. split; [reflexivity|]. simpl. auto.
Qed.

(** C1, as amended: [fit] has no test for too few views.  With fewer
    than 2 views it issues no warning, leaves [generalized] as it was
    configured, and is the run of [check_params], [initialize] and the
    iterations on the object with its views set; an error can come from
    those only. *)
Theorem fit_few_views (vs : list matrix) s e :
  (length vs < 2)%nat ->
  fit vs s e = fit_body unregularized_fit (set_views vs s) e /\
  generalized (snd (fst (fit vs s e))) = generalized s /\
  warned (snd (fit vs s e)) = warned e.
Proof.
  intros Hlen. unfold fit.
  assert (E : (2 <? length vs)%nat = false) by (apply Nat.ltb_ge; lia).
  split; [|split].
  - rewrite fit_at_unfold, E. reflexivity.
  - rewrite fit_at_unfold, E.
    destruct (keeps_fit_body same_warnings (fun _ => eq_refl) same_warnings_trans
                (fun _ _ => eq_refl) (fun _ _ => eq_refl)
                (fun vs e => returned (fit_at 1 vs (new PLS 100 1e-5 false "random") e))
                (set_views vs s) e) as [Hc _].
    + intros e1. rewrite snd_returned. apply fit_at_same_warnings. simpl. lia.
    + destruct Hc as (_ & _ & _ & _ & _ & _ & Hg & _). exact Hg.
  - apply fit_at_same_warnings. lia.
Qed.

Lemma fit_few_views_witness :
  (length [[[1]]] < 2)%nat /\
  fit [[[1]]] (new PLS 1 1e-5 false "random") env0 =
    fit_body unregularized_fit
             (set_views [[[1]]] (new PLS 1 1e-5 false "random")) env0 /\
  generalized (snd (fst (fit [[[1]]] (new PLS 1 1e-5 false "random") env0)))
    = false /\
  warned (snd (fit [[[1]]] (new PLS 1 1e-5 false "random") env0)) = [].
Proof.
  assert (H : (length [[[1]]] < 2)%nat) by (simpl; lia).
  split; [exact H|].
  exact (fit_few_views [[[1]]] (new PLS 1 1e-5 false "random") env0 H).
Defined.

(** ** More than two views *)




(** ** Validation of the PMD budgets *)

Lemma nth_error_repeat {A} (a : A) (n i : nat) :
  (i < n)%nat -> nth_error (repeat a n) i = Some a.
Proof.
  revert i. induction n as [|n IH]; intros i H; [lia|].
  destruct i as [|i]; simpl; [reflexivity|]. apply IH. lia.
Qed.

Lemma existsb_nth {A} (f : A -> bool) (l : list A) (i : nat) (a : A) :
  nth_error l i = Some a -> f a = true -> existsb f l = true.
Proof.
  intros Hn Hf. apply existsb_exists. exists a. split; [|exact Hf].
  eapply nth_error_In; eauto.
Qed.

Lemma nth_error_combine {A B} (l : list A) (l' : list B) (i : nat) a b :
  nth_error l i = Some a -> nth_error l' i = Some b ->
  nth_error (combine l l') i = Some (a, b).
Proof.
  revert l' i. induction l as [|x l IH]; intros l' i Ha Hb.
  - destruct i; discriminate.
  - destruct l' as [|y l']; [destruct i; discriminate|].
    destruct i as [|i]; simpl in *; [congruence|]. apply IH; assumption.
Qed.

(** The per-view list [check_params] makes of the configured budget. *)
Lemma process_c_entry (h : hyper R) (n i : nat) (ci : R) :
  (i < n)%nat -> c_entry h i = Some ci ->
  (exists msg, _process_parameter "c" h 1 n = Raise (ValueError msg)) \/
  (exists cs, _process_parameter "c" h 1 n = Ok cs /\ nth_error cs i = Some ci).
Proof.
  intros Hi Hc. destruct h as [|a|l]; simpl in *.
  - injection Hc as <-. right. eexists. split; [reflexivity|].
    apply nth_error_repeat. exact Hi.
  - injection Hc as <-. right. eexists. split; [reflexivity|].
    apply nth_error_repeat. exact Hi.
  - destruct (Nat.eqb (length l) n); [right | left]; eauto.
Qed.

Lemma PMD_check_params_rejects s e (i : nat) (view : matrix) (ci : R) :
  nth_error (views (fit_attrs s)) i = Some view ->
  c_entry (c (hyp s)) i = Some ci ->
  ci < 1 \/ ci > sqrt (INR (ncols view)) ->
  exists msg s',
    PMDInnerLoop.check_params s e = (Raise (ValueError msg), s', e) /\
    fit_attrs s' = fit_attrs s /\ core s s'.
Proof.
  intros Hview Hc Hbad.
  assert (Hi : (i < length (views (fit_attrs s)))%nat).
  { apply nth_error_Some. congruence. }
  unfold PMDInnerLoop.check_params. destruct_loop s. simpl in Hview, Hc, Hi.
  cbv beta iota zeta delta [bind get get_views lift modify ret fit_attrs hyp views c].
  destruct (process_c_entry hc (length vs) i ci Hi Hc) as [(msg & E)|(cs & E & Hn)];
    rewrite E; cbv beta iota.
  - exists msg. eexists. split; [reflexivity|]. split; [reflexivity|].
    unfold core. repeat split.
  - cbv beta iota zeta delta [set_c set_hyp hyp fit_attrs views c positive l1_ratio mu lam eta
                               class_of initialization max_iter tol constrained stochastic
                               generalized solver].
    destruct (existsb (fun c => if Rlt_dec c 1 then true else false) cs) eqn:Elow.
    + cbv beta iota. do 2 eexists. split; [reflexivity|]. split; [reflexivity|].
      unfold core. repeat split.
    + cbv beta iota.
      assert (Ehigh : existsb (fun p => if Rgt_dec (fst p) (snd p) then true else false)
                              (combine cs (map (fun view => sqrt (INR (ncols view))) vs))
                      = true).
      { destruct Hbad as [Hlow|Hhigh].
        - exfalso. rewrite (existsb_nth _ cs i ci Hn) in Elow; [discriminate|].
          destruct (Rlt_dec ci 1); [reflexivity | contradiction].
        - apply (existsb_nth _ _ i (ci, sqrt (INR (ncols view)))).
          + apply nth_error_combine; [exact Hn|].
            rewrite nth_error_map, Hview. reflexivity.
          + simpl. destruct (Rgt_dec ci (sqrt (INR (ncols view)))); [reflexivity | contradiction]. }
      rewrite Ehigh. cbv beta iota.
      do 2 eexists. split; [reflexivity|]. split; [reflexivity|].
      unfold core. repeat split.
Qed.

Lemma fit_body_check_raises nested s e x s' e' :
  check_params s e = (Raise x, s', e') ->
  fit_body nested s e = (Raise x, s', e').
Proof. intros H. unfold fit_body, bind. rewrite H. reflexivity. Qed.

(** C5: a PMD fit in which the budget of some view is below 1 or above
    the square root of the number of features of that view ends in a
    [ValueError], raised by [check_params]: the scores, the weights and
    the objective trace are as before the call and no random number has
    been drawn, so neither [initialize] nor an iteration has run. *)
Theorem pmd_fit_rejects_budget (vs : list matrix) s e (i : nat) (view : matrix) (ci : R) :
  class_of s = PMD ->
  nth_error vs i = Some view ->
  c_entry (c (hyp s)) i = Some ci ->
  ci < 1 \/ ci > sqrt (INR (ncols view)) ->
  exists msg s' e',
    fit vs s e = (Raise (ValueError msg), s', e') /\
    scores (fit_attrs s') = scores (fit_attrs s) /\
    weights (fit_attrs s') = weights (fit_attrs s) /\
    track_objective (fit_attrs s') = track_objective (fit_attrs s) /\
    drawn e' = drawn e.
Proof.
  intros Hk Hview Hc Hbad. unfold fit. rewrite fit_at_unfold.
  set (s1 := if (2 <? length vs)%nat
             then set_generalized true (set_views vs s) else set_views vs s).
  set (e1 := if (2 <? length vs)%nat
             then env_warn "For more than 2 views require generalized=True" e else e).
  assert (Hs1 : class_of s1 = PMD /\ views (fit_attrs s1) = vs /\
                c (hyp s1) = c (hyp s) /\
                scores (fit_attrs s1) = scores (fit_attrs s) /\
                weights (fit_attrs s1) = weights (fit_attrs s) /\
                track_objective (fit_attrs s1) = track_objective (fit_attrs s)).
  { unfold s1. destruct (2 <? length vs)%nat; simpl; repeat split; auto. }
  destruct Hs1 as (Hk1 & Hv1 & Hc1 & Hsc & Hws & Htr).
  destruct (PMD_check_params_rejects s1 e1 i view ci) as (msg & s' & Hrun & Hfit & _).
  { rewrite Hv1. exact Hview. }
  { rewrite Hc1. exact Hc. }
  { exact Hbad. }
  exists msg, s', e1. split.
  - apply fit_body_check_raises. unfold check_params, bind, get. rewrite Hk1. exact Hrun.
  - rewrite Hfit. repeat split; auto.
    unfold e1. destruct (2 <? length vs)%nat; reflexivity.
Qed.

Lemma pmd_fit_rejects_budget_witness :
  class_of pmd_half = PMD /\
  nth_error [[[1; 2]]; [[3; 4]]] 0 = Some [[1; 2]] /\
  c_entry (c (hyp pmd_half)) 0 = Some 0.5 /\
  (0.5 < 1 \/ 0.5 > sqrt (INR (ncols [[1; 2]]))) /\
  exists msg s' e',
    fit [[[1; 2]]; [[3; 4]]] pmd_half env0 = (Raise (ValueError msg), s', e') /\
    scores (fit_attrs s') = scores (fit_attrs pmd_half) /\
    weights (fit_attrs s') = weights (fit_attrs pmd_half) /\
    track_objective (fit_attrs s') = track_objective (fit_attrs pmd_half) /\
    drawn e' = drawn env0.
Proof.
  assert (H : 0.5 < 1 \/ 0.5 > sqrt (INR (ncols [[1; 2]]))) by (left; lra).
  repeat split; try reflexivity; try exact H.
  exact (pmd_fit_rejects_budget [[[1; 2]]; [[3; 4]]] pmd_half env0 0 [[1; 2]] 0.5
           eq_refl eq_refl eq_refl H).
Defined.

(** ** Shapes under broadcasting *)

Lemma ncols_shaped (r k : nat) (m : matrix) :
  shaped r k m -> (1 <= r)%nat -> ncols m = k.
Proof.
  intros [Hr Hk] H1. destruct m as [|row m]; simpl in *; [lia|].
  inversion Hk; assumption.
Qed.

Lemma shaped_column (v : vec) : shaped (length v) 1 (column v).
Proof.
  unfold shaped, column. rewrite length_map. split; [reflexivity|].
  apply Forall_map. apply Forall_forall. intros; reflexivity.
Qed.

Lemma shaped_row (u : vec) : shaped 1 (length u) [u].
Proof. split; [reflexivity | constructor; [reflexivity | constructor]]. Qed.

Lemma broadcast_dim_l (n m r : nat) :
  broadcast_dim n m = Some r -> n = r \/ n = 1%nat.
Proof.
  unfold broadcast_dim.
  destruct (Nat.eqb_spec n m); [intros H; inversion H; auto|].
  destruct (Nat.eqb_spec n 1); [auto|].
  destruct (Nat.eqb_spec m 1); intros H; inversion H; auto.
Qed.

Lemma broadcast_dim_r (n m r : nat) :
  broadcast_dim n m = Some r -> m = r \/ m = 1%nat.
Proof.
  unfold broadcast_dim.
  destruct (Nat.eqb_spec n m); [intros H; inversion H; subst; auto|].
  destruct (Nat.eqb_spec n 1); [intros H; inversion H; auto|].
  destruct (Nat.eqb_spec m 1); intros H; inversion H; auto.
Qed.

Lemma stretch_length {A} (l : list A) (r : nat) :
  length l = r \/ length l = 1%nat -> length (stretch r l) = r.
Proof.
  destruct l as [|a [|b t]]; cbn [stretch length].
  - intros [H|H]; [exact H | discriminate].
  - intros _. apply repeat_length.
  - intros [H|H]; [exact H | discriminate].
Qed.

Lemma stretch_length_l {A} (l : list A) (n r : nat) :
  broadcast_dim (length l) n = Some r -> length (stretch r l) = r.
Proof. intros H. apply stretch_length. eapply broadcast_dim_l. exact H. Qed.

Lemma stretch_length_r {A} (l : list A) (n r : nat) :
  broadcast_dim n (length l) = Some r -> length (stretch r l) = r.
Proof. intros H. apply stretch_length. eapply broadcast_dim_r. exact H. Qed.

Lemma stretch_Forall {A} (P : A -> Prop) (l : list A) (r : nat) :
  Forall P l -> Forall P (stretch r l).
Proof.
  intros H. destruct l as [|a [|b t]]; simpl; try exact H.
  apply Forall_forall. intros x Hx. apply repeat_spec in Hx. subst.
  inversion H; assumption.
Qed.

Lemma Forall_combine {A B} (P : A -> Prop) (Q : B -> Prop) (a : list A) (b : list B) :
  Forall P a -> Forall Q b -> Forall (fun p => P (fst p) /\ Q (snd p)) (combine a b).
Proof.
  intros Ha. revert b. induction Ha as [|x a Hx Ha IH]; intros b Hb; simpl; [constructor|].
  destruct Hb as [|y b Hy Hb]; constructor; [split; assumption | apply IH; assumption].
Qed.

(** Two arrays whose shapes broadcast give an array of the broadcast
    shape. *)
Lemma mzip_shaped (f : R -> R -> R) (a b : matrix) (ra ka rb kb r k : nat) :
  shaped ra ka a -> shaped rb kb b -> (1 <= ra)%nat -> (1 <= rb)%nat ->
  broadcast_dim ra rb = Some r -> broadcast_dim ka kb = Some k ->
  exists m, mzip f a b = Ok m /\ shaped r k m.
Proof.
  intros Ha Hb H1 H2 Hr Hk. unfold mzip, nrows.
  rewrite (ncols_shaped _ _ _ Ha H1), (ncols_shaped _ _ _ Hb H2).
  destruct Ha as [Ea Fa], Hb as [Eb Fb]. rewrite Ea, Eb, Hr, Hk.
  eexists. split; [reflexivity|]. split.
  - rewrite length_map, length_combine.
    rewrite (stretch_length_l a rb r), (stretch_length_r b ra r) by congruence.
    apply Nat.min_id.
  - apply Forall_map.
    eapply Forall_impl;
      [|apply (Forall_combine _ _ _ _ (stretch_Forall _ _ r Fa) (stretch_Forall _ _ r Fb))].
    intros [u v] [Hu Hv]. simpl in *. rewrite vzip_length.
    + apply (stretch_length_l u kb k). congruence.
    + rewrite (stretch_length_l u kb k), (stretch_length_r v ka k) by congruence.
      reflexivity.
Qed.

(** Two arrays whose columns do not broadcast cannot be combined. *)
Lemma mzip_unbroadcast (f : R -> R -> R) (a b : matrix) (ra ka rb kb : nat) :
  shaped ra ka a -> shaped rb kb b -> (1 <= ra)%nat -> (1 <= rb)%nat ->
  broadcast_dim ka kb = None ->
  mzip f a b = Raise (ValueError "operands could not be broadcast together").
Proof.
  intros Ha Hb H1 H2 Hk. unfold mzip.
  rewrite (ncols_shaped _ _ _ Ha H1), (ncols_shaped _ _ _ Hb H2), Hk.
  destruct (broadcast_dim (nrows a) (nrows b)); reflexivity.
Qed.

Lemma fold_vadd_length (k : nat) (l : list vec) :
  Forall (fun row => length row = k) l ->
  length (fold_right vadd (zeros k) l) = k.
Proof.
  intros H. induction H as [|row l Hrow _ IH]; cbn [fold_right].
  - apply repeat_length.
  - unfold vadd at 1. rewrite vzip_length; [exact Hrow|].
    rewrite Hrow. symmetry. exact IH.
Qed.

Lemma tmatvec_length (r k : nat) (m : matrix) (y : vec) :
  shaped r k m -> (1 <= r)%nat -> length (tmatvec m y) = k.
Proof.
  intros Hm H1. unfold tmatvec. rewrite (ncols_shaped _ _ _ Hm H1).
  apply fold_vadd_length. destruct Hm as [_ Hk].
  apply Forall_map.
  eapply Forall_impl;
    [|apply (Forall_combine (fun row => length row = k) (fun _ => True) m y Hk);
      apply Forall_forall; intros; exact I].
  intros [row x] [Hrow _]. unfold vscale. rewrite length_map. exact Hrow.
Qed.

Lemma shaped_transpose (N p : nat) (X : matrix) :
  shaped N p X -> (1 <= N)%nat -> shaped p N (transpose X).
Proof.
  intros HX H1. unfold transpose. rewrite (ncols_shaped _ _ _ HX H1).
  destruct HX as [EN _]. split.
  - rewrite length_map, length_seq. reflexivity.
  - apply Forall_map. apply Forall_forall. intros j _. rewrite length_map. exact EN.
Qed.

(** [X.T @ m] for a view of shape (N,p) and an array of shape (N,k). *)
Lemma nd_tmatmul_shaped (N p k : nat) (X m : matrix) :
  shaped N p X -> shaped N k m -> (1 <= N)%nat ->
  exists g, nd_tmatmul X (Arr2 m) = Ok (Arr2 g) /\ shaped p k g.
Proof.
  intros HX Hm H1. unfold nd_tmatmul, nrows.
  rewrite (proj1 HX), (proj1 Hm), Nat.eqb_refl.
  eexists. split; [reflexivity|].
  destruct (shaped_transpose _ _ _ HX H1) as [Et _]. split.
  - rewrite length_map. exact Et.
  - apply Forall_map. apply Forall_forall. intros col _.
    apply (tmatvec_length N k m col Hm H1).
Qed.

Lemma shaped_map (f : R -> R) (r k : nat) (m : matrix) :
  shaped r k m -> shaped r k (map (map f) m).
Proof.
  intros [Er Hk]. split; [rewrite length_map; exact Er|].
  apply Forall_map. eapply Forall_impl; [|exact Hk].
  intros row Hrow. rewrite length_map. exact Hrow.
Qed.

Lemma broadcast_dim_same (n : nat) : broadcast_dim n n = Some n.
Proof. unfold broadcast_dim. rewrite Nat.eqb_refl. reflexivity. Qed.

Lemma broadcast_dim_1_l (n : nat) : broadcast_dim 1 n = Some n.
Proof.
  unfold broadcast_dim. destruct (Nat.eqb_spec 1 n); [subst; reflexivity | reflexivity].
Qed.

Lemma broadcast_dim_1_r (n : nat) : broadcast_dim n 1 = Some n.
Proof.
  unfold broadcast_dim. destruct (Nat.eqb_spec n 1); [reflexivity|].
  simpl. reflexivity.
Qed.

(** ** The first round of the ADMM update *)

Lemma index_ok {A} (l : list A) (i : nat) :
  (i < length l)%nat -> exists a, index l i = Ok a.
Proof.
  intros H. unfold index. destruct (nth_error l i) eqn:E; [eauto|].
  apply nth_error_None in E. lia.
Qed.

Lemma broadcast_dim_first_round (N p : nat) :
  match broadcast_dim p N with
  | Some k => first_round_error N p = IndexError /\ broadcast_dim k p = Some k
  | None => first_round_error N p = ValueError "operands could not be broadcast together"
  end.
Proof.
  unfold broadcast_dim at 1, first_round_error.
  destruct (Nat.eqb_spec p N) as [E|E]; cbn [orb].
  - split; [reflexivity | apply broadcast_dim_same].
  - destruct (Nat.eqb_spec p 1) as [E1|E1]; cbn [orb].
    + split; [reflexivity|]. subst p. apply broadcast_dim_1_r.
    + destruct (Nat.eqb_spec N 1) as [E2|E2]; [|reflexivity].
      split; [reflexivity | apply broadcast_dim_same].
Qed.

Lemma matvec_length (X : matrix) (w : vec) : length (matvec X w) = length X.
Proof. unfold matvec. apply length_map. Qed.

Lemma update_round_set_up (i : nat) (X : matrix) (N p : nat) (m l : R) (N' : nat)
      (g : vec) (tr : admm_trace) s e :
  admm_set_up i X N p s -> (1 <= N)%nat -> (1 <= p)%nat -> l <> 0 -> length g = p ->
  ADMMInnerLoop.update_round i m l N' g tr s e = (Raise (first_round_error N p), s, e).
Proof.
  intros (HX & Hsh & _ & (ws & w & Hws & Hw & Hlw) & (zs & zv & Hzs & Hzi & Hlz) &
          (es & ev & Hes & Hei & Hle) & _ & (cs & Hcs & Hic)) HN Hp Hl Hg.
  destruct (index_ok _ _ Hic) as (ci & Hci).
  (* the shapes of the intermediate arrays *)
  assert (Hrow : shaped 1 N [matvec X w]).
  { rewrite <- (proj1 Hsh), <- (matvec_length X w). apply shaped_row. }
  assert (Hzc : shaped N 1 (column zv)) by (rewrite <- Hlz; apply shaped_column).
  assert (Hec : shaped N 1 (column ev)) by (rewrite <- Hle; apply shaped_column).
  destruct (mzip_shaped Rminus _ _ _ _ _ _ N N Hrow Hzc (le_n 1) HN
              (broadcast_dim_1_l N) (broadcast_dim_1_r N)) as (r1 & Er1 & Hr1).
  destruct (mzip_shaped Rplus _ _ _ _ _ _ N N Hr1 Hec HN HN
              (broadcast_dim_same N) (broadcast_dim_1_r N)) as (r2 & Er2 & Hr2).
  destruct (nd_tmatmul_shaped N p N X r2 Hsh Hr2 HN) as (g1 & Eg1 & Hg1).
  assert (Hw1 : shaped 1 p [w]) by (rewrite <- Hlw; apply shaped_row).
  unfold ADMMInnerLoop.update_round. destruct_loop s. simpl in HX, Hws, Hzs, Hes, Hcs. subst.
  mred. rewrite Hw. cbv iota beta.
  unfold rdiv. destruct (Req_dec_T l 0) as [E0|_]; [contradiction|]. cbv iota beta.
  rewrite HX. cbv iota beta. rewrite Hzi. cbv iota beta.
  cbn [ndzip]. rewrite Er1. cbn [rbind]. cbv iota beta.
  rewrite Hei. cbv iota beta. cbn [ndzip]. rewrite Er2. cbn [rbind]. cbv iota beta.
  rewrite Eg1. cbv iota beta. cbn [ndmap].
  pose proof (broadcast_dim_first_round (length zv) (length w)) as Hb.
  destruct (broadcast_dim (length w) (length zv)) as [k'|] eqn:Ek.
  - destruct Hb as [Herr Hk].
    destruct (mzip_shaped Rminus [w] (map (map (Rmult (m / l))) g1) _ _ _ _ (length w) k'
                Hw1 (shaped_map _ _ _ _ Hg1) (le_n 1) Hp
                (broadcast_dim_1_l _) Ek) as (x & Ex & Hx).
    rewrite Ex. cbn [rbind]. cbv iota beta.
    unfold hyper_index. rewrite Hci. cbv iota beta.
    assert (Hc1 : shaped 1 (length w) [vscale m g]).
    { replace (length w) with (length (vscale m g))
        by (unfold vscale; rewrite length_map; exact Hg).
      apply shaped_row. }
    destruct (mzip_shaped Rplus x [vscale m g] _ _ _ _ (length w) k'
                Hx Hc1 Hp (le_n 1) (broadcast_dim_1_r _) Hk) as (mask & Emask & _).
    unfold ADMMInnerLoop.prox_mu_f_call. cbn [ndzip]. rewrite Emask. cbn [rbind].
    rewrite Herr. reflexivity.
  - rewrite (mzip_unbroadcast Rminus [w] (map (map (Rmult (m / l))) g1) _ _ _ _
               Hw1 (shaped_map _ _ _ _ Hg1) (le_n 1) Hp Ek).
    cbn [rbind]. rewrite Hb. reflexivity.
Qed.

Lemma ADMM_update_view_set_up (i : nat) (X : matrix) (N p : nat) s e :
  admm_set_up i X N p s -> (1 <= N)%nat -> (1 <= p)%nat -> (0 < max_iter s)%Z ->
  ADMMInnerLoop.update_view i s e = (Raise (first_round_error N p), s, e).
Proof.
  intros Hs HN Hp Hmax.
  pose proof Hs as (HX & Hsh & (sc & Hsc & Hisc) & _ & _ & _ &
                    (mus & lams & l & Hmu & Himu & Hlam & Hl & Hl0) & _).
  destruct (index_ok _ _ Hisc) as (row & Hrow).
  destruct (index_ok _ _ Himu) as (m & Hm).
  assert (Hms : exists target, masked_sum sc i = Ok target).
  { unfold masked_sum. rewrite Hrow. simpl. destruct (remove_nth i sc); eauto. }
  destruct Hms as (target & Ht).
  destruct (Z.to_nat (max_iter s)) as [|n] eqn:En; [lia|].
  pose proof (update_round_set_up i X N p m l (nrows X) (tmatvec X target)
                {| unnorm_z := []; norm_eta := []; norm_weights := []; norm_proj := [] |}
                s e Hs HN Hp Hl0 (tmatvec_length N p X target Hsh HN)) as Hround.
  unfold ADMMInnerLoop.update_view, ADMMInnerLoop.update_view_loop.
  unfold bind at 1. unfold bind at 1.
  unfold get_scores, attr. rewrite Hsc.
  unfold bind at 1. unfold lift at 1. rewrite Ht.
  unfold bind at 1. unfold view_at at 1, bind at 1, get_views, get, lift. rewrite HX.
  unfold bind at 1. rewrite Hmu. unfold bind at 1, hyper_index. rewrite Hm.
  unfold bind at 1. rewrite Hlam. unfold bind at 1. rewrite Hl.
  unfold bind at 1. rewrite En. cbn [ADMMInnerLoop.update_rounds].
  unfold bind at 1. rewrite Hround. reflexivity.
Qed.

(** C6, how the code departs from the claim.  On an object as
    [check_params] and [initialize] leave it, the update of a view of [N]
    samples and [p] features does not run its loop [max_iter] times: the
    first round raises, [IndexError] if [p = N], [p = 1] or [N = 1] and
    [ValueError] otherwise, before the round's first assignment, so that
    the object and the environment are as the call found them.  The dual
    variables have shape (N,1) where the weights have shape (p,). *)
Theorem admm_update_fails_in_first_round (i : nat) (X : matrix) (N p : nat) s e :
  class_of s = ADMM ->
  admm_set_up i X N p s -> (1 <= N)%nat -> (1 <= p)%nat -> (0 < max_iter s)%Z ->
  update_view i s e = (Raise (first_round_error N p), s, e).
Proof.
  intros Hk Hs HN Hp Hmax. unfold update_view, bind, get. rewrite Hk.
  apply (ADMM_update_view_set_up i X N p); assumption.
Qed.

Lemma admm_first_set_up : admm_set_up 0 [[1]] 1 1 admm_first.
Proof.
  unfold admm_set_up, admm_first. cbn.
  split; [reflexivity|].
  split; [split; [reflexivity | repeat constructor]|].
  split; [exists [[0.5]; [0.5]]; split; [reflexivity | simpl; lia]|].
  split; [exists [[0.5]; [0.5]], [0.5]; repeat split|].
  split; [exists [Arr2 [[0]]; Arr2 [[0]]], [0]; repeat split|].
  split; [exists [Arr2 [[0 * 1]]; Arr2 [[0 * 1]]], [0 * 1]; repeat split|].
  split.
  - exists [1 / 1; 1 / 1], [1; 1], 1.
    repeat split; simpl; try lia. lra.
  - exists [0; 0]. split; [reflexivity | simpl; lia].
Qed.

Lemma admm_update_fails_in_first_round_witness :
  class_of admm_first = ADMM /\ admm_set_up 0 [[1]] 1 1 admm_first /\
  (1 <= 1)%nat /\ (0 < max_iter admm_first)%Z /\
  update_view 0 admm_first env0 = (Raise IndexError, admm_first, env0).
Proof.
  assert (Hmax : (0 < max_iter admm_first)%Z) by (simpl; lia).
  split; [reflexivity|]. split; [exact admm_first_set_up|].
  split; [exact (le_n 1)|]. split; [exact Hmax|].
  exact (admm_update_fails_in_first_round 0 [[1]] 1 1 admm_first env0 eq_refl
           admm_first_set_up (le_n 1) (le_n 1) Hmax).
Defined.

Lemma frobenius_unit : frobenius [[1]] ^ 2 = 1.
Proof.
  unfold frobenius. cbn [concat app]. rewrite norm2_singleton, Rabs_right by lra. lra.
Qed.

(** The call itself: [fit] validates, initialises, and raises in the
    first round of the first update, with no objective recorded and the
    weights as they were drawn. *)
Lemma admm_fit_example :
  fit [[[1]]; [[1]]] (new ADMM 3 1e-5 false "random") env0
  = (Raise IndexError, admm_first, env_draw 4 env0).
Proof.
  unfold fit, env0. meval. unfold ADMMInnerLoop.check_params. meval.
  cbn [mapR fst snd]. unfold rdiv. rewrite frobenius_unit.
  destruct (Req_dec_T 1 0) as [E|_]; [lra|]. cbn [rbind]. meval.
  destruct (Rle_dec (1 / 1) 0) as [E|_]; [lra|]. cbn [orb]. meval.
  destruct (Req_dec_T 1 0) as [E|_]; [lra|].
  cbv beta iota zeta delta
      [ndzip mzip broadcast_dim stretch column zeros ones vscale matvec nrows ncols
       nd_tmatmul transpose ndmap ADMMInnerLoop.prox_mu_f_call rbind
       Nat.eqb map combine repeat length seq nth fst snd].
  reflexivity.
Qed.

(** ** Examples: what the updates leave of the score norms *)

Lemma vadd_zeros_singleton (x : R) : vadd [x] (zeros 1) = [x + 0].
Proof. reflexivity. Qed.

(** PLS on two views, one sample and one feature each, both [[2]]. *)
Lemma pls_fit_example :
  exists s' e',
    fit [[[2]]; [[2]]] (new PLS 1 1e-5 false "random") env0 = (Ok tt, s', e') /\
    weights (fit_attrs s') = Some [[1]; [1]] /\
    scores (fit_attrs s') = Some [[2 * 1]; [2 * 1]].
Proof.
  unfold env0. meval.
  rewrite vadd_zeros_singleton, tmatvec_singleton. rewrite vdiv_singleton by lra. meval.
  rewrite !matvec_singleton.
  rewrite vadd_zeros_singleton, tmatvec_singleton. rewrite vdiv_singleton by lra. meval.
  rewrite !matvec_singleton. meval.
  do 2 eexists. split; [reflexivity|]. simpl. auto.
Qed.

Lemma rdiv_ok (x d : R) : d <> 0 -> rdiv x d = Ok (x / d).
Proof. intros H. unfold rdiv. destruct (Req_dec_T d 0); [contradiction | reflexivity]. Qed.

(** C2, the claim refuted.  A PLS fit of one iteration on two views
    [[2]] ends with scores [2] in both views, of norm 2: the rule
    normalises the weights, not the scores. *)
Lemma score_norms_not_unit :
  exists s' e',
    fit [[[2]]; [[2]]] (new PLS 1 1e-5 false "random") env0 = (Ok tt, s', e') /\
    scores (fit_attrs s') = Some [[2 * 1]; [2 * 1]] /\
    norm2 [2 * 1] <> 1.
Proof.
  destruct pls_fit_example as (s' & e' & Hfit & _ & Hsc).
  exists s', e'. repeat split; auto.
  rewrite norm2_singleton, Rabs_right; lra.
Qed.

(** ** The regression target of the elastic update *)

(** C3, the claim refuted: with scores [1] and [3] the target for view 0
    in generalized mode is [2], the mean over both views, where the mean
    of the other view's scores is [3]. *)
Lemma elastic_target_includes_self :
  ElasticInnerLoop.target_of true [[1]; [3]] 0 = Ok [2] /\
  mean_of_others [[1]; [3]] 0 = Ok [3] /\
  ElasticInnerLoop.target_of true [[1]; [3]] 0 <> mean_of_others [[1]; [3]] 0.
Proof.
  assert (E1 : ElasticInnerLoop.target_of true [[1]; [3]] 0 = Ok [2]).
  { unfold ElasticInnerLoop.target_of, mean_rows, vsum, vadd, vzip, zeros. simpl.
    do 2 f_equal. lra. }
  assert (E2 : mean_of_others [[1]; [3]] 0 = Ok [3]).
  { unfold mean_of_others, vsum, vadd, vzip, zeros. simpl.
    do 2 f_equal. lra. }
  split; [exact E1|]. split; [exact E2|].
  rewrite E1, E2. intros H. injection H as H. lra.
Qed.

Lemma nth_vadd (a b : vec) (k : nat) :
  length a = length b ->
  nth k (vadd a b) 0 = nth k a 0 + nth k b 0.
Proof.
  revert b k. induction a as [|x a IH]; intros b k Hlen.
  - destruct b; [|discriminate]. destruct k; simpl; lra.
  - destruct b as [|y b]; [discriminate|]. injection Hlen as Hlen.
    destruct k as [|k]; simpl; [reflexivity|]. apply IH. exact Hlen.
Qed.

Lemma vadd_length (a b : vec) : length a = length b -> length (vadd a b) = length a.
Proof. apply vzip_length. Qed.

Lemma nth_zeros (n k : nat) : nth k (zeros n) 0 = 0.
Proof.
  unfold zeros. revert k. induction n as [|n IH]; intros [|k]; simpl; auto.
Qed.

Lemma vsum_length (n : nat) (rows : list vec) :
  Forall (fun row => length row = n) rows -> length (vsum n rows) = n.
Proof.
  intros H. induction H as [|row rows Hrow _ IH]; simpl.
  - unfold zeros. apply repeat_length.
  - rewrite vadd_length; congruence.
Qed.

Lemma nth_vsum (n : nat) (rows : list vec) (k : nat) :
  Forall (fun row => length row = n) rows ->
  nth k (vsum n rows) 0 = Rsum (map (fun row => nth k row 0) rows).
Proof.
  intros H. induction H as [|row rows Hrow Hrows IH]; simpl.
  - apply nth_zeros.
  - rewrite nth_vadd by (rewrite vsum_length; auto). rewrite IH. reflexivity.
Qed.

Lemma index_last {A} (l : list A) (d : A) :
  l <> [] -> index l (length l - 1) = Ok (last l d).
Proof.
  induction l as [|a l IH]; intros H; [contradiction|].
  destruct l as [|b l]; [reflexivity|].
  specialize (IH ltac:(discriminate)).
  replace (length (a :: b :: l) - 1)%nat with (S (length (b :: l) - 1))
    by (simpl; lia).
  change (last (a :: b :: l) d) with (last (b :: l) d).
  rewrite <- IH. reflexivity.
Qed.

(** C3, as amended: in generalized mode the regression target of the
    elastic update is the mean of the score vectors of ALL views, the
    view's own included (entry [k] is the sum of the [k]-th scores of all
    views over the number of views, whichever view is updated); otherwise
    it is [scores[view_index - 1]], the scores of the view before, and
    for view 0 those of the last view: with two views, the other one.
    It is the target the solver of a completed update was given. *)
Theorem elastic_target (rows : list vec) (view_index : nat) :
  (rows <> [] ->
   exists target,
     ElasticInnerLoop.target_of true rows view_index = Ok target /\
     forall n k, Forall (fun row => length row = n) rows ->
                 nth k target 0 =
                 Rsum (map (fun row => nth k row 0) rows) / INR (length rows)) /\
  (forall i, view_index = S i ->
             ElasticInnerLoop.target_of false rows view_index = index rows i) /\
  (view_index = O -> rows <> [] ->
   ElasticInnerLoop.target_of false rows view_index = Ok (last rows [])) /\
  (forall a b, ElasticInnerLoop.target_of false [a; b] 0 = Ok b /\
               ElasticInnerLoop.target_of false [a; b] 1 = Ok a) /\
  (forall s e s' e',
      constrained s = false ->
      ElasticInnerLoop.update_view view_index s e = (Ok tt, s', e') ->
      exists sc X target regs reg w,
        scores (fit_attrs s) = Some sc /\
        index (views (fit_attrs s)) view_index = Ok X /\
        ElasticInnerLoop.target_of (generalized s) sc view_index = Ok target /\
        regressors (solver s) = Some regs /\ index regs view_index = Ok reg /\
        vdiv (sklearn_fit e reg X target)
             (norm2 (matvec X (sklearn_fit e reg X target))) = Ok w /\
        updated view_index w s s').
Proof.
  split; [|split; [|split; [|split]]].
  - intros Hne. destruct rows as [|row rest]; [contradiction|].
    eexists. split; [reflexivity|].
    intros n k Hall.
    replace 0 with (0 / INR (length (row :: rest))) at 1
      by (unfold Rdiv; apply Rmult_0_l).
    rewrite (map_nth (fun x => x / INR (length (row :: rest)))).
    f_equal. apply nth_vsum.
    inversion Hall as [|? ? Hrow Hrest]; subst. constructor; auto.
  - intros i ->. unfold ElasticInnerLoop.target_of, py_index.
    replace (Z.of_nat (S i) - 1)%Z with (Z.of_nat i) by lia.
    destruct (Z.ltb_spec (Z.of_nat i) 0) as [H|H]; [lia|].
    rewrite Nat2Z.id. reflexivity.
  - intros -> Hne. unfold ElasticInnerLoop.target_of, py_index. simpl (Z.of_nat 0 - 1)%Z.
    assert (Hlen : (0 < length rows)%nat) by (destruct rows; [contradiction | simpl; lia]).
    destruct (Z.ltb_spec (-1) 0) as [_|H]; [|lia].
    destruct (Z.ltb_spec (-1 + Z.of_nat (length rows)) 0) as [H|_]; [lia|].
    replace (Z.to_nat (-1 + Z.of_nat (length rows))) with (length rows - 1)%nat by lia.
    apply index_last. exact Hne.
  - intros a b. split; reflexivity.
  - intros s e s' e' Hcon Hrun.
    destruct (Elastic_update_view_ok _ _ _ _ _ Hcon Hrun)
      as (sc & X & t & regs & reg & w & H1 & H2 & H3 & H4 & H5 & H6 & _ & H7 & _).
    exists sc, X, t, regs, reg, w. split; [exact H1|]. split; [exact H2|].
    split; [exact H3|]. split; [exact H4|]. split; [exact H5|]. split; [exact H6 | exact H7].
Qed.

Lemma elastic_target_witness :
  [[1]; [3]] <> [] /\
  exists target,
    ElasticInnerLoop.target_of true [[1]; [3]] 0 = Ok target /\
    forall n k, Forall (fun row => length row = n) [[1]; [3]] ->
                nth k target 0 =
                Rsum (map (fun row => nth k row 0) [[1]; [3]]) / INR (length [[1]; [3]]).
Proof.
  assert (H : [[1]; [3]] <> @nil vec) by discriminate.
  split; [exact H|].
  exact (proj1 (elastic_target [[1]; [3]] 0) H).
Defined.

(** ** A fit on three views *)

Lemma vadd_zeros_pair (x y : R) : vadd [x] (vadd [y] (zeros 1)) = [x + (y + 0)].
Proof. reflexivity. Qed.

(** A PLS loop configured with [generalized=False] fitted on three views
    [[2]]: the call returns, [generalized] is set and the warning issued. *)
Lemma pls_fit_three_views :
  exists s' e',
    fit [[[2]]; [[2]]; [[2]]] (new PLS 1 1e-5 false "random") env0
      = (Ok tt, s', e') /\
    generalized s' = true /\
    warned e' = [views_warning] /\
    weights (fit_attrs s') = Some [[1]; [1]; [1]].
Proof.
  unfold env0. meval.
  rewrite vadd_zeros_pair, tmatvec_singleton. rewrite vdiv_singleton by lra. meval.
  rewrite !matvec_singleton.
  rewrite vadd_zeros_pair, tmatvec_singleton. rewrite vdiv_singleton by lra. meval.
  rewrite !matvec_singleton.
  rewrite vadd_zeros_pair, tmatvec_singleton. rewrite vdiv_singleton by lra. meval.
  do 2 eexists. split; [reflexivity|]. simpl. auto.
Qed.

(** ** The norms after each outer iteration of a fit *)

Lemma inner_iteration_norms_hold s e s' e' :
  inner_iteration s e = (Ok tt, s', e') ->
  norms_hold (class_of s) (constrained s) (length (views (fit_attrs s))) s'.
Proof.
  intros H. destruct (inner_iteration_pass s e s' e' H) as (H1 & H2 & H3).
  unfold norms_hold. destruct (class_of s); auto.
Qed.

Lemma view_state_ext (P : matrix -> vec -> Prop) s s' i :
  views (fit_attrs s') = views (fit_attrs s) ->
  scores (fit_attrs s') = scores (fit_attrs s) ->
  weights (fit_attrs s') = weights (fit_attrs s) ->
  view_state P s i -> view_state P s' i.
Proof.
  intros Hv Hs Hw (X & sc & ws & w & H1 & H2 & H3 & H4 & H5 & H6).
  exists X, sc, ws, w. rewrite Hv, Hs, Hw. repeat split; assumption.
Qed.

Lemma norms_hold_ext k con n s s' :
  views (fit_attrs s') = views (fit_attrs s) ->
  scores (fit_attrs s') = scores (fit_attrs s) ->
  weights (fit_attrs s') = weights (fit_attrs s) ->
  norms_hold k con n s -> norms_hold k con n s'.
Proof.
  intros Hv Hs Hw H. unfold norms_hold in *.
  destruct k; auto; intros; eapply view_state_ext; eauto.
Qed.

Lemma objective_ok s e obj s' e' :
  objective s e = (Ok obj, s', e') -> s' = s /\ e' = e.
Proof.
  intros H. unfold objective in H. apply bind_ok in H.
  destruct H as (k & s1 & e1 & Hg & H). run_inv Hg.
  destruct (class_of s);
    try (unfold BaseInnerLoop.objective in H; run_inv H; auto);
    unfold elastic_cca_objective in H; run_inv H; auto.
Qed.

Lemma early_stop_ok s e b s' e' :
  early_stop s e = (Ok b, s', e') -> s' = s /\ e' = e.
Proof.
  intros H. unfold early_stop in H. apply bind_ok in H.
  destruct H as (k & s1 & e1 & Hg & H). run_inv Hg.
  destruct (class_of s);
    try (unfold BaseInnerLoop.early_stop in H; run_inv H; auto);
    unfold PLSInnerLoop.early_stop in H; run_inv H; auto.
Qed.

Lemma frame_core s s' : frame s s' -> core s s'.
Proof.
  unfold frame, core. intros H.
  repeat match goal with H : _ /\ _ |- _ => destruct H end.
  repeat split; assumption.
Qed.

Lemma inner_iteration_frame s e s' e' :
  inner_iteration s e = (Ok tt, s', e') -> core s s'.
Proof.
  intros H.
  pose proof (keeps_inner_iteration same_warnings (fun _ => eq_refl)
                same_warnings_trans (fun _ _ => eq_refl) s e) as [Hc _].
  rewrite H in Hc. exact Hc.
Qed.

Lemma iterate_norms_hold (n : nat) :
  forall k s e s' e',
    (0 < n)%nat ->
    iterate n k s e = (Ok tt, s', e') ->
    core s s' /\
    norms_hold (class_of s) (constrained s) (length (views (fit_attrs s))) s'.
Proof.
  induction n as [|n IH]; intros k s e s' e' Hn H; [lia|].
  cbn [iterate] in H.
  apply bind_ok in H. destruct H as ([] & s1 & e1 & Hpass & H).
  pose proof (inner_iteration_norms_hold _ _ _ _ Hpass) as Hnorm.
  pose proof (inner_iteration_frame _ _ _ _ Hpass) as Hc1.
  apply bind_ok in H. destruct H as (obj & s2 & e2 & Hobj & H).
  apply objective_ok in Hobj. destruct Hobj as (-> & ->).
  apply bind_ok in H. destruct H as (track & s2 & e2 & Htr & H). run_inv Htr.
  apply bind_ok in H. destruct H as ([] & s2 & e2 & Hset & H). run_inv Hset.
  apply bind_ok in H. destruct H as (stop & s3 & e3 & Hstop & H).
  assert (Es3 : s3 = set_track_objective (track ++ [obj]) s1).
  { destruct (0 <? k)%nat.
    - apply early_stop_ok in Hstop. apply Hstop.
    - run_inv Hstop. reflexivity. }
  subst s3.
  assert (Hc2 : core s (set_track_objective (track ++ [obj]) s1)).
  { eapply core_trans; [exact Hc1|]. unfold core. repeat split. }
  assert (Hnorm2 : norms_hold (class_of s) (constrained s)
                              (length (views (fit_attrs s)))
                              (set_track_objective (track ++ [obj]) s1)).
  { eapply norms_hold_ext; [| | |exact Hnorm]; reflexivity. }
  destruct stop.
  - apply ret_ok in H. destruct H as (_ & -> & ->). auto.
  - apply bind_ok in H. destruct H as (sc & s4 & e4 & Hsc & H). run_inv Hsc.
    apply bind_ok in H. destruct H as ([] & s4 & e4 & Hold & H). run_inv Hold.
    set (s4 := set_old_scores sc (set_track_objective (track ++ [obj]) s1)) in *.
    assert (Hc4 : core s s4).
    { eapply core_trans; [exact Hc2|]. unfold core. repeat split. }
    destruct n as [|n].
    + cbn [iterate] in H. apply ret_ok in H. destruct H as (_ & -> & _).
      split; [exact Hc4|].
      eapply norms_hold_ext; [| | |exact Hnorm2]; reflexivity.
    + destruct (IH (S k) s4 e3 s' e' ltac:(lia) H) as [Hc5 Hn5].
      split; [eapply core_trans; eauto|].
      destruct Hc4 as (E1 & _ & _ & _ & E5 & _ & _ & E8).
      rewrite E1, E5, E8 in Hn5. exact Hn5.
Qed.

Lemma fit_body_norms_hold nested s e s' e' :
  fit_body nested s e = (Ok tt, s', e') ->
  (0 < max_iter s)%Z ->
  norms_hold (class_of s) (constrained s) (length (views (fit_attrs s))) s'.
Proof.
  intros H Hmax. unfold fit_body in H.
  apply bind_ok in H. destruct H as ([] & s1 & e1 & Hcheck & H).
  assert (Hc1 : core s s1).
  { pose proof (keeps_check_params more_warnings more_warnings_refl
                  more_warnings_trans s e) as [Hc _].
    rewrite Hcheck in Hc. exact Hc. }
  apply bind_ok in H. destruct H as ([] & s2 & e2 & Hinit & H).
  assert (Hc2 : core s1 s2).
  { pose proof (keeps_initialize (fun _ _ => True) (fun _ => I) (fun _ _ _ _ _ => I)
                  (fun _ _ => I) nested s1 e1 (fun _ => I)) as [Hc _].
    rewrite Hinit in Hc. exact Hc. }
  apply bind_ok in H. destruct H as ([] & s3 & e3 & Hset & H). run_inv Hset.
  apply bind_ok in H. destruct H as (n & s3 & e3 & Hget & H). run_inv Hget.
  set (s3 := set_track_objective [] s2) in *.
  assert (Hc3 : core s s3).
  { eapply core_trans; [exact Hc1|]. eapply core_trans; [exact Hc2|].
    unfold core. repeat split. }
  assert (Hpos : (0 < Z.to_nat (max_iter s3))%nat).
  { destruct Hc3 as (_ & _ & E3 & _). rewrite E3. lia. }
  destruct (iterate_norms_hold _ _ _ _ _ _ Hpos H) as [_ Hn].
  destruct Hc3 as (E1 & _ & _ & _ & E5 & _ & _ & E8).
  rewrite E1, E5, E8 in Hn. exact Hn.
Qed.

(** C2, as amended: after each outer iteration that completes without
    a division by a zero norm (the outcome [Ok] of the pass over the
    views of [inner_iteration], and so of a fit of one iteration or more;
    where numpy divides by a zero norm the weights are [nan] and the
    outcome here is [NonFinite]), the PLS, PMD and Parkhomenko rules have
    left every view with weights of L2 norm 1 and with the scores
    [view_i @ weights_i], which are not normalised; the elastic rule with
    its plain solver has left every view with scores
    [view_i @ weights_i] of L2 norm 1.  Nothing is stated of the ADMM
    rule. *)
Theorem iteration_norms :
  (forall s e s' e',
      inner_iteration s e = (Ok tt, s', e') ->
      norms_hold (class_of s) (constrained s) (length (views (fit_attrs s))) s') /\
  (forall vs s e s' e',
      fit vs s e = (Ok tt, s', e') ->
      (0 < max_iter s)%Z ->
      norms_hold (class_of s) (constrained s) (length vs) s').
Proof.
  split; [apply inner_iteration_norms_hold|].
  intros vs s e s' e' H Hmax. unfold fit in H. rewrite fit_at_unfold in H.
  apply fit_body_norms_hold in H.
  - destruct (2 <? length vs)%nat; exact H.
  - destruct (2 <? length vs)%nat; exact Hmax.
Qed.

Lemma iteration_norms_witness :
  exists s' e',
    fit [[[2]]; [[2]]] (new PLS 1 1e-5 false "random") env0 = (Ok tt, s', e') /\
    (0 < max_iter (new PLS 1 1e-5 false "random"))%Z /\
    norms_hold PLS false 2 s'.
Proof.
  destruct pls_fit_example as (s' & e' & Hfit & _).
  exists s', e'. split; [exact Hfit|].
  assert (Hmax : (0 < max_iter (new PLS 1 1e-5 false "random"))%Z)
    by (simpl; lia).
  split; [exact Hmax|].
  exact (proj2 iteration_norms _ _ _ _ _ Hfit Hmax).
Defined.

(** * Further properties of the functions of the module *)

(** ** Sums of products *)

Lemma dot_cons (x y : R) (a b : vec) : dot (x :: a) (y :: b) = x * y + dot a b.
Proof. reflexivity. Qed.

Lemma dot_nil_l (b : vec) : dot [] b = 0.
Proof. reflexivity. Qed.

Lemma dot_nil_r (a : vec) : dot a [] = 0.
Proof. destruct a; reflexivity. Qed.

Lemma sumsq_cons (x : R) (a : vec) : sumsq (x :: a) = x * x + sumsq a.
Proof. reflexivity. Qed.

Lemma dot_comm (a b : vec) : dot a b = dot b a.
Proof.
  revert b. induction a as [|x a IH]; intros [|y b];
    try reflexivity.
  rewrite !dot_cons, IH. lra.
Qed.

Lemma dot_self (a : vec) : dot a a = sumsq a.
Proof.
  induction a as [|x a IH]; [reflexivity|].
  rewrite dot_cons, sumsq_cons, IH. reflexivity.
Qed.

(** The step of the Cauchy-Schwarz inequality. *)
Lemma cauchy_step (x y D A B : R) :
  0 <= A -> 0 <= B -> D * D <= A * B ->
  (x * y + D) * (x * y + D) <= (x * x + A) * (y * y + B).
Proof.
  intros HA HB HD.
  assert (Hkey : 2 * (x * y * D) <= x * x * B + y * y * A).
  { destruct (Req_dec A 0) as [E|E].
    - subst A. assert (D * D <= 0) by lra.
      assert (0 <= D * D) by apply Rle_0_sqr.
      assert (D = 0).
      { destruct (Req_dec D 0) as [|Hn]; [assumption|].
        pose proof (Rsqr_pos_lt D Hn) as Hp. unfold Rsqr in Hp. lra. }
      subst D. pose proof (Rle_0_sqr x) as Hx. unfold Rsqr in Hx.
      pose proof (Rmult_le_pos _ _ Hx HB). lra.
    - assert (HApos : 0 < A) by lra.
      assert (H1 : 0 <= (x * D - y * A) * (x * D - y * A)) by apply Rle_0_sqr.
      assert (H2 : 0 <= (x * x) * (A * B - D * D)).
      { apply Rmult_le_pos; [apply Rle_0_sqr | lra]. }
      assert (H3 : 0 <= A * (x * x * B + y * y * A - 2 * (x * y * D))).
      { replace (A * (x * x * B + y * y * A - 2 * (x * y * D)))
          with ((x * D - y * A) * (x * D - y * A) + (x * x) * (A * B - D * D)) by ring.
        lra. }
      assert (H4 : 0 <= x * x * B + y * y * A - 2 * (x * y * D)).
      { destruct (Rle_dec 0 (x * x * B + y * y * A - 2 * (x * y * D))) as [|Hn];
          [assumption|].
        exfalso. apply Rnot_le_lt in Hn.
        assert (A * (x * x * B + y * y * A - 2 * (x * y * D)) < 0).
        { rewrite <- (Rmult_0_r A). apply Rmult_lt_compat_l; assumption. }
        lra. }
      lra. }
  replace ((x * y + D) * (x * y + D))
    with (x * y * (x * y) + 2 * (x * y * D) + D * D) by ring.
  replace ((x * x + A) * (y * y + B))
    with (x * y * (x * y) + (x * x * B + y * y * A) + A * B) by ring.
  lra.
Qed.

Lemma cauchy_schwarz (a b : vec) : dot a b * dot a b <= sumsq a * sumsq b.
Proof.
  revert b. induction a as [|x a IH]; intros b.
  - rewrite dot_nil_l. replace (sumsq []) with 0 by reflexivity. lra.
  - destruct b as [|y b].
    + rewrite dot_nil_r. replace (sumsq []) with 0 by reflexivity. lra.
    + rewrite dot_cons, !sumsq_cons.
      apply cauchy_step; [apply sumsq_nonneg | apply sumsq_nonneg | apply IH].
Qed.

Lemma norm2_sqr (a : vec) : norm2 a * norm2 a = sumsq a.
Proof. unfold norm2. apply sqrt_sqrt. apply sumsq_nonneg. Qed.

Lemma dot_le_norms (a b : vec) : Rabs (dot a b) <= norm2 a * norm2 b.
Proof.
  pose proof (cauchy_schwarz a b) as H.
  rewrite <- (norm2_sqr a), <- (norm2_sqr b) in H.
  pose proof (norm2_nonneg a) as Ha. pose proof (norm2_nonneg b) as Hb.
  assert (Hp : 0 <= norm2 a * norm2 b) by (apply Rmult_le_pos; assumption).
  rewrite <- (Rabs_right (norm2 a * norm2 b)) by lra.
  apply Rsqr_le_abs_0. unfold Rsqr.
  replace (norm2 a * norm2 b * (norm2 a * norm2 b))
    with (norm2 a * norm2 a * (norm2 b * norm2 b)) by ring.
  exact H.
Qed.
Lemma sumsq_vscale (k : R) (a : vec) : sumsq (vscale k a) = k * k * sumsq a.
Proof.
  induction a as [|x a IH]; simpl.
  - unfold sumsq. simpl. lra.
  - unfold vscale in *. simpl. rewrite !sumsq_cons, IH. ring.
Qed.

Lemma norm2_vscale (k : R) (a : vec) : 0 <= k -> norm2 (vscale k a) = k * norm2 a.
Proof.
  intros Hk. unfold norm2. rewrite sumsq_vscale.
  rewrite sqrt_mult; [|apply Rle_0_sqr | apply sumsq_nonneg].
  rewrite sqrt_square by exact Hk. reflexivity.
Qed.

Lemma dot_vscale_r (k : R) (a b : vec) : dot a (vscale k b) = k * dot a b.
Proof.
  revert b. induction a as [|x a IH]; intros [|y b].
  - rewrite !dot_nil_l. lra.
  - rewrite !dot_nil_l. lra.
  - unfold vscale. simpl. rewrite !dot_nil_r. lra.
  - unfold vscale in *. simpl. rewrite !dot_cons, IH. ring.
Qed.

(** ** [_cosine_similarity] *)

Lemma cosine_range (a b : vec) (v : R) :
  _cosine_similarity a b = Ok v -> -1 <= v <= 1.
Proof.
  unfold _cosine_similarity, rdiv.
  destruct (Req_dec_T (norm2 a * norm2 b) 0) as [E|E]; [discriminate|].
  intros H. injection H as <-.
  pose proof (dot_le_norms a b) as Hd.
  pose proof (norm2_nonneg a) as Ha. pose proof (norm2_nonneg b) as Hb.
  assert (Hp : 0 < norm2 a * norm2 b).
  { pose proof (Rmult_le_pos _ _ Ha Hb). lra. }
  pose proof (Rle_abs (dot a b)) as Hu.
  pose proof (Rle_abs (- dot a b)) as Hl. rewrite Rabs_Ropp in Hl.
  split.
  - apply Rmult_le_reg_r with (norm2 a * norm2 b); [exact Hp|].
    unfold Rdiv. rewrite Rmult_assoc, Rinv_l by lra. lra.
  - apply Rmult_le_reg_r with (norm2 a * norm2 b); [exact Hp|].
    unfold Rdiv. rewrite Rmult_assoc, Rinv_l by lra. lra.
Qed.

(** X1: the cosine similarity of two vectors of the same length, neither of
    norm zero, is a number between -1 and 1, and the same number with the
    arguments exchanged. *)
Theorem cosine_similarity_bounded (a b : vec) :
  length a = length b -> norm2 a <> 0 -> norm2 b <> 0 ->
  exists v,
    _cosine_similarity a b = Ok v /\ -1 <= v <= 1 /\
    _cosine_similarity b a = Ok v.
Proof.
  intros _ Ha Hb.
  assert (Hp : norm2 a * norm2 b <> 0).
  { intros H. apply Rmult_integral in H. tauto. }
  exists (dot a b / (norm2 a * norm2 b)).
  assert (H1 : _cosine_similarity a b = Ok (dot a b / (norm2 a * norm2 b))).
  { unfold _cosine_similarity. apply rdiv_ok. exact Hp. }
  split; [exact H1|]. split; [exact (cosine_range _ _ _ H1)|].
  unfold _cosine_similarity. rewrite (dot_comm b a), (Rmult_comm (norm2 b)).
  apply rdiv_ok. exact Hp.
Qed.

Lemma cosine_similarity_bounded_witness :
  length [3; 4] = length [4; 3] /\ norm2 [3; 4] <> 0 /\ norm2 [4; 3] <> 0 /\
  exists v,
    _cosine_similarity [3; 4] [4; 3] = Ok v /\ -1 <= v <= 1 /\
    _cosine_similarity [4; 3] [3; 4] = Ok v.
Proof.
  assert (Ha : norm2 [3; 4] <> 0).
  { unfold norm2, sumsq. simpl. intros H. apply sqrt_eq_0 in H; lra. }
  assert (Hb : norm2 [4; 3] <> 0).
  { unfold norm2, sumsq. simpl. intros H. apply sqrt_eq_0 in H; lra. }
  split; [reflexivity|]. split; [exact Ha|]. split; [exact Hb|].
  exact (cosine_similarity_bounded [3; 4] [4; 3] eq_refl Ha Hb).
Defined.

Lemma cosine_similarity_self (a : vec) :
  norm2 a <> 0 -> _cosine_similarity a a = Ok 1.
Proof.
  intros Ha. unfold _cosine_similarity, rdiv.
  destruct (Req_dec_T (norm2 a * norm2 a) 0) as [E|E].
  - apply Rmult_integral in E. tauto.
  - f_equal. rewrite dot_self, norm2_sqr. rewrite norm2_sqr in E.
    field. exact E.
Qed.

(** X2: a vector of nonzero norm has similarity 1 with each of its positive
    multiples, itself included; as soon as one of the two vectors has norm
    zero the quotient is not a number. *)
Theorem cosine_similarity_multiple (a : vec) (k : R) :
  (0 < k -> norm2 a <> 0 -> _cosine_similarity a (vscale k a) = Ok 1) /\
  (norm2 a <> 0 -> _cosine_similarity a a = Ok 1) /\
  (forall b, norm2 a = 0 \/ norm2 b = 0 -> _cosine_similarity a b = NonFinite).
Proof.
  split; [|split; [apply cosine_similarity_self|]].
  - intros Hk Ha. unfold _cosine_similarity, rdiv.
    rewrite dot_vscale_r, dot_self, norm2_vscale by lra.
    destruct (Req_dec_T (norm2 a * (k * norm2 a)) 0) as [E|E].
    + apply Rmult_integral in E. destruct E as [E|E]; [tauto|].
      apply Rmult_integral in E. destruct E; [lra | tauto].
    + f_equal. rewrite <- (norm2_sqr a). field. split; [exact Ha | lra].
  - intros b H. unfold _cosine_similarity, rdiv.
    destruct (Req_dec_T (norm2 a * norm2 b) 0) as [E|E]; [reflexivity|].
    exfalso. apply E. destruct H as [-> | ->]; ring.
Qed.

Lemma cosine_similarity_multiple_witness :
  0 < 2 /\ norm2 [3; 4] <> 0 /\
  _cosine_similarity [3; 4] (vscale 2 [3; 4]) = Ok 1 /\
  _cosine_similarity [3; 4] [3; 4] = Ok 1 /\
  _cosine_similarity [0; 0] [3; 4] = NonFinite.
Proof.
  assert (Ha : norm2 [3; 4] <> 0).
  { unfold norm2, sumsq. simpl. intros H. apply sqrt_eq_0 in H; lra. }
  assert (Hz : norm2 [0; 0] = 0 \/ norm2 [3; 4] = 0).
  { left. exact (norm2_zeros 2). }
  destruct (cosine_similarity_multiple [3; 4] 2) as (H1 & H2 & _).
  destruct (cosine_similarity_multiple [0; 0] 2) as (_ & _ & H3).
  split; [lra|]. split; [exact Ha|].
  split; [apply H1; [lra | exact Ha]|].
  split; [exact (H2 Ha) | exact (H3 [3; 4] Hz)].
Defined.

(** ** [PLSInnerLoop.early_stop] *)

Lemma all_similar_every (t : R) (sc old : list vec) (ns : list nat) :
  PLSInnerLoop.all_similar t sc old ns = Ok true ->
  forall n, In n ns ->
    exists a b v,
      index sc n = Ok a /\ index old n = Ok b /\
      _cosine_similarity a b = Ok v /\ v > 1 - t.
Proof.
  induction ns as [|m ns IH]; intros H n Hn; [contradiction|].
  cbn [PLSInnerLoop.all_similar] in H.
  destruct (index sc m) as [a| | |] eqn:Ea; try discriminate.
  destruct (index old m) as [b| | |] eqn:Eb; try discriminate.
  cbn [rbind] in H.
  destruct (_cosine_similarity a b) as [v| | |] eqn:Ev; try discriminate.
  cbn [rbind] in H.
  destruct (Rgt_dec v (1 - t)) as [Hv|Hv]; [|discriminate].
  destruct Hn as [<-|Hn]; [|exact (IH H n Hn)].
  exists a, b, v. auto.
Qed.

Lemma cosine_sign (a b : vec) (v : R) :
  _cosine_similarity a b = Ok v -> dot a b <= 0 -> v <= 0.
Proof.
  unfold _cosine_similarity, rdiv.
  destruct (Req_dec_T (norm2 a * norm2 b) 0) as [E|E]; [discriminate|].
  intros H Hd. injection H as <-.
  pose proof (Rmult_le_pos _ _ (norm2_nonneg a) (norm2_nonneg b)) as Hp.
  assert (Hpos : 0 < norm2 a * norm2 b) by lra.
  apply Rmult_le_reg_r with (norm2 a * norm2 b); [exact Hpos|].
  unfold Rdiv. rewrite Rmult_assoc, Rinv_l by lra. lra.
Qed.

Lemma all_similar_same (t : R) (sc : list vec) (ns : list nat) :
  0 < t -> Forall (fun row => norm2 row <> 0) sc ->
  Forall (fun n => (n < length sc)%nat) ns ->
  PLSInnerLoop.all_similar t sc sc ns = Ok true.
Proof.
  intros Ht Hsc Hns. induction Hns as [|n ns Hn Hns IH]; [reflexivity|].
  cbn [PLSInnerLoop.all_similar].
  destruct (index_ok sc n Hn) as (a & Ea). rewrite Ea. cbn [rbind].
  assert (Ha : norm2 a <> 0).
  { unfold index in Ea. destruct (nth_error sc n) as [a'|] eqn:En; [|discriminate].
    injection Ea as ->. apply nth_error_In in En.
    rewrite Forall_forall in Hsc. apply Hsc. exact En. }
  rewrite (cosine_similarity_self a Ha). cbn [rbind].
  destruct (Rgt_dec 1 (1 - t)) as [_|Hn']; [exact IH | lra].
Qed.

Lemma base_early_stop s e :
  class_of s = Base -> early_stop s e = (Ok false, s, e).
Proof. intros Hk. unfold early_stop, bind, get. rewrite Hk. reflexivity. Qed.

(** X3: a view whose scores have turned away from those of the iteration
    before keeps the loop going.  If for one view the product
    [scores[n].T @ old_scores[n]] is zero or negative, then under any
    tolerance below 1 the early stop does not answer [True], whatever the
    scores of the other views. *)
Theorem early_stop_needs_agreement s e (sc old : list vec) (n : nat) (a b : vec) :
  scores (fit_attrs s) = Some sc ->
  old_scores (fit_attrs s) = Some old ->
  index sc n = Ok a -> index old n = Ok b ->
  dot a b <= 0 -> tol s < 1 ->
  forall s' e', early_stop s e <> (Ok true, s', e').
Proof.
  intros Hsc Hold Ha Hb Hd Ht s' e' H.
  destruct (class_of s) eqn:Hk;
    [rewrite (base_early_stop s e Hk) in H; discriminate| | | | |];
    (unfold early_stop, bind at 1, get at 1 in H; rewrite Hk in H;
     unfold PLSInnerLoop.early_stop in H; run_inv H;
     rewrite Hsc in E; injection E as <-; rewrite Hold in E0; injection E0 as <-;
     assert (Hn : In n (seq 0 (length sc)))
       by (apply in_seq; pose proof (index_lt _ _ _ Ha); lia);
     destruct (all_similar_every _ _ _ _ E1 n Hn) as (a' & b' & v & Ha' & Hb' & Hv & Hgt);
     rewrite Ha in Ha'; injection Ha' as <-; rewrite Hb in Hb'; injection Hb' as <-;
     pose proof (cosine_sign _ _ _ Hv Hd); lra).
Qed.

Lemma early_stop_same s e (sc : list vec) :
  class_of s <> Base ->
  scores (fit_attrs s) = Some sc ->
  old_scores (fit_attrs s) = Some sc ->
  Forall (fun row => norm2 row <> 0) sc ->
  0 < tol s ->
  early_stop s e = (Ok true, s, e).
Proof.
  intros Hk Hsc Hold Hnz Ht.
  assert (Hpls : PLSInnerLoop.early_stop s e = (Ok true, s, e)).
  { unfold PLSInnerLoop.early_stop, bind, get_scores, attr, get, lift.
    rewrite Hsc, Hold.
    rewrite all_similar_same; [reflexivity | exact Ht | exact Hnz |].
    apply Forall_forall. intros n Hn. apply in_seq in Hn. lia. }
  unfold early_stop, bind, get. cbv beta iota.
  destruct (class_of s); [contradiction| | | | |]; exact Hpls.
Qed.

(** X4: on scores that the last iteration left as they were, none of norm
    zero, and with a positive tolerance, the early stop answers [True]. *)
Theorem early_stop_fixed_point s e (sc : list vec) :
  class_of s <> Base ->
  scores (fit_attrs s) = Some sc ->
  old_scores (fit_attrs s) = Some sc ->
  Forall (fun row => norm2 row <> 0) sc ->
  0 < tol s ->
  early_stop s e = (Ok true, s, e).
Proof. apply early_stop_same. Qed.

Lemma settled_example_norms : Forall (fun row => norm2 row <> 0) [[1]; [1]].
Proof.
  assert (H : norm2 [1] <> 0) by (rewrite norm2_singleton, Rabs_right; lra).
  repeat constructor; exact H.
Qed.

Lemma early_stop_fixed_point_witness :
  class_of settled_example <> Base /\
  Forall (fun row => norm2 row <> 0) [[1]; [1]] /\
  0 < tol settled_example /\
  early_stop settled_example env0 = (Ok true, settled_example, env0).
Proof.
  assert (Hk : class_of settled_example <> Base) by discriminate.
  assert (Ht : 0 < tol settled_example) by (simpl; lra).
  split; [exact Hk|]. split; [exact settled_example_norms|]. split; [exact Ht|].
  exact (early_stop_fixed_point settled_example env0 [[1]; [1]] Hk eq_refl eq_refl
           settled_example_norms Ht).
Defined.

Lemma turned_example_stop :
  early_stop turned_example env0 = (Ok false, turned_example, env0).
Proof.
  assert (H1 : norm2 [1] = 1) by (rewrite norm2_singleton, Rabs_right; lra).
  assert (H2 : norm2 [-1] = 1) by (rewrite norm2_singleton, Rabs_left; lra).
  assert (Hd : dot [1] [-1] = -1) by (unfold dot, vzip; simpl; lra).
  unfold turned_example, env0. meval.
  rewrite (cosine_similarity_self [1]) by lra.
  cbn [rbind]. destruct (Rgt_dec 1 (1 - 1e-5)) as [_|H]; [|exfalso; lra].
  unfold _cosine_similarity, rdiv. rewrite H1, H2, Hd.
  destruct (Req_dec_T (1 * 1) 0) as [E|_]; [exfalso; lra|].
  cbn [rbind].
  destruct (Rgt_dec (-1 / (1 * 1)) (1 - 1e-5)) as [H|_]; [exfalso; lra | reflexivity].
Qed.

Lemma early_stop_needs_agreement_witness :
  dot [1] [-1] <= 0 /\ tol turned_example < 1 /\
  (forall s' e', early_stop turned_example env0 <> (Ok true, s', e')) /\
  early_stop turned_example env0 = (Ok false, turned_example, env0).
Proof.
  assert (Hd : dot [1] [-1] <= 0) by (unfold dot, vzip; simpl; lra).
  assert (Ht : tol turned_example < 1) by (simpl; lra).
  split; [exact Hd|]. split; [exact Ht|]. split; [|exact turned_example_stop].
  exact (early_stop_needs_agreement turned_example env0 [[1]; [1]] [[1]; [-1]] 1
           [1] [-1] eq_refl eq_refl eq_refl eq_refl Hd Ht).
Defined.

(** ** [_soft_threshold] *)

Lemma soft_threshold_entry (xi t : R) :
  0 <= t -> shrunk t xi (sign xi * Rmax (Rabs xi - t) 0).
Proof.
  intros Ht. unfold shrunk.
  assert (Hm : 0 <= Rmax (Rabs xi - t) 0) by apply Rmax_r.
  assert (Hle : Rmax (Rabs xi - t) 0 <= Rabs xi).
  { apply Rmax_lub; [lra | apply Rabs_pos]. }
  destruct (Rtotal_order xi 0) as [Hx | [Hx | Hx]].
  - rewrite (sign_neg _ Hx).
    replace (-1 * Rmax (Rabs xi - t) 0) with (- Rmax (Rabs xi - t) 0) by ring.
    rewrite Rabs_Ropp, (Rabs_right (Rmax _ _)) by lra.
    repeat split; try lra.
    + replace (- Rmax (Rabs xi - t) 0 * xi) with (Rmax (Rabs xi - t) 0 * (- xi)) by ring.
      apply Rmult_le_pos; lra.
    + intros H. rewrite Rmax_right by lra. ring.
  - subst xi. rewrite sign_zero. rewrite !Rmult_0_l, Rabs_R0.
    rewrite Rmax_right by lra. repeat split; try lra.
  - rewrite (sign_pos _ Hx). rewrite Rmult_1_l.
    rewrite (Rabs_right (Rmax _ _)) by lra.
    repeat split; try lra.
    + apply Rmult_le_pos; lra.
    + intros H. rewrite Rmax_right by lra. reflexivity.
Qed.

Lemma sign_abs (x : R) : sign x * Rabs x = x.
Proof.
  destruct (Rtotal_order x 0) as [Hx | [Hx | Hx]].
  - rewrite (sign_neg _ Hx), Rabs_left by exact Hx. ring.
  - subst x. rewrite sign_zero. ring.
  - rewrite (sign_pos _ Hx), Rabs_right by lra. ring.
Qed.

Lemma soft_threshold_zero (x : vec) (p : bool) : _soft_threshold x 0 p = x.
Proof.
  rewrite soft_threshold_formula.
  induction x as [|xi x IH]; simpl; [reflexivity|].
  f_equal; [|exact IH].
  rewrite Rminus_0_r, Rmax_left by apply Rabs_pos. apply sign_abs.
Qed.

(** X5: under a threshold that is not negative, [_soft_threshold] moves
    every entry towards zero by the threshold and stops at zero: the
    magnitude becomes max(|x| - t, 0), no entry changes sign, the entries
    of magnitude at most [t] become 0; at threshold 0 the vector comes back
    as it is. *)
Theorem soft_threshold_shrinks (x : vec) (t : R) (p : bool) :
  0 <= t ->
  Forall2 (shrunk t) x (_soft_threshold x t p) /\
  (t = 0 -> _soft_threshold x t p = x).
Proof.
  intros Ht. rewrite soft_threshold_formula. split.
  - induction x as [|xi x IH]; simpl; constructor;
      [apply soft_threshold_entry; exact Ht | exact IH].
  - intros ->. rewrite <- soft_threshold_formula with (p := p).
    apply soft_threshold_zero.
Qed.

Lemma soft_threshold_shrinks_witness :
  0 <= 1 /\ Forall2 (shrunk 1) [3; -2; 0.5] (_soft_threshold [3; -2; 0.5] 1 false).
Proof.
  split; [lra|]. apply (soft_threshold_shrinks [3; -2; 0.5] 1 false). lra.
Defined.

(** ** [_bin_search] *)

(** X6: on real arguments [_bin_search] always has a value for [new], and
    hands back [current] as the new [previous].  When [current] and
    [previous] lie in the bracket from [min_] to [max_], the new value lies
    in it too, and the bracket handed back is the part below [current]
    after a positive [current_val] and the part above it otherwise. *)
Theorem bin_search_bracket (current previous cv : R) (pv : option R) (min_ max_ : R) :
  (exists new min' max',
      _bin_search current previous cv pv min_ max_ = Ok (new, current, min', max')) /\
  (min_ <= current <= max_ -> min_ <= previous <= max_ ->
   forall new previous' min' max',
     _bin_search current previous cv pv min_ max_ = Ok (new, previous', min', max') ->
     min_ <= new <= max_ /\
     (cv <= 0 -> min' = current /\ max' = max_) /\
     (cv > 0 -> min' = min_ /\ max' = current)).
Proof.
  split; [apply bin_search_total|].
  intros Hc Hp new previous' min' max' H.
  destruct (Rle_dec cv 0) as [Hcv|Hcv].
  - rewrite (bin_search_le _ _ _ _ _ _ Hcv) in H. injection H as <- <- <- <-.
    split; [|split; [|intros; lra]].
    + destruct (Rle_dec _ 0); lra.
    + intros _. destruct (Rgt_dec current min_); lra.
  - apply Rnot_le_gt in Hcv.
    rewrite (bin_search_gt _ _ _ _ _ _ Hcv) in H. injection H as <- <- <- <-.
    split; [|split; [intros; lra|]].
    + destruct (Rgt_dec _ 0); lra.
    + intros _. destruct (Rlt_dec current max_); lra.
Qed.

Lemma bin_search_bracket_witness :
  0 <= 5 <= 10 /\ 0 <= 0 <= 10 /\
  forall new previous' min' max',
    _bin_search 5 0 (-1) (Some 1) 0 10 = Ok (new, previous', min', max') ->
    0 <= new <= 10 /\
    (-1 <= 0 -> min' = 5 /\ max' = 10) /\
    (-1 > 0 -> min' = 0 /\ max' = 5).
Proof.
  assert (H1 : 0 <= 5 <= 10) by lra.
  assert (H2 : 0 <= 0 <= 10) by lra.
  split; [exact H1|]. split; [exact H2|].
  exact (proj2 (bin_search_bracket 5 0 (-1) (Some 1) 0 10) H1 H2).
Defined.

(** ** [ADMMInnerLoop.prox_mu_f] *)

Lemma prox_mu_f_entry (x c mu tau : R) :
  0 <= mu * tau ->
  (let u_update := x in
   let mask_1 := if Rgt_dec (x + mu * c) (mu * tau) then true else false in
   let u_update := if mask_1 then x + mu * (c - tau) else u_update in
   let mask_2 := if Rlt_dec (x + mu * c) (- mu * tau) then true else false in
   let u_update := if mask_2 then x + mu * (c + tau) else u_update in
   let mask_3 := negb (mask_1 || mask_2) in
   if mask_3 then 0 else u_update) =
  sign (x + mu * c) * Rmax (Rabs (x + mu * c) - mu * tau) 0.
Proof.
  intros Ht. cbv zeta.
  destruct (Rgt_dec (x + mu * c) (mu * tau)) as [H1|H1];
    destruct (Rlt_dec (x + mu * c) (- mu * tau)) as [H2|H2]; simpl.
  - exfalso. lra.
  - rewrite sign_pos by lra. rewrite Rabs_right by lra.
    rewrite Rmax_left by lra. ring.
  - rewrite sign_neg by lra. rewrite Rabs_left by lra.
    rewrite Rmax_left by lra. ring.
  - assert (Ha : Rabs (x + mu * c) <= mu * tau).
    { apply Rabs_le. lra. }
    rewrite Rmax_right by lra. ring.
Qed.

(** X7: for [mu * tau >= 0], [prox_mu_f(x, mu, c, tau)] is the
    soft-thresholding of [x + mu * c] at the threshold [mu * tau]. *)
Theorem prox_mu_f_soft_threshold (x c : vec) (mu tau : R) (p : bool) :
  0 <= mu * tau -> length x = length c ->
  ADMMInnerLoop.prox_mu_f x mu c tau = _soft_threshold (vadd x (vscale mu c)) (mu * tau) p.
Proof.
  intros Ht _. rewrite soft_threshold_formula. unfold ADMMInnerLoop.prox_mu_f.
  revert c. induction x as [|xi x IH]; intros [|ci c]; try reflexivity.
  cbn [combine map vadd vzip vscale fst snd].
  f_equal; [apply prox_mu_f_entry; exact Ht | apply IH].
Qed.

Lemma prox_mu_f_soft_threshold_witness :
  0 <= 1 * 2 /\ length [5; -1] = length [0; 0] /\
  ADMMInnerLoop.prox_mu_f [5; -1] 1 [0; 0] 2 =
  _soft_threshold (vadd [5; -1] (vscale 1 [0; 0])) (1 * 2) false.
Proof.
  assert (H : 0 <= 1 * 2) by lra.
  split; [exact H|]. split; [reflexivity|].
  exact (prox_mu_f_soft_threshold [5; -1] [0; 0] 1 2 false H eq_refl).
Defined.

(** ** The two norms of a vector *)

Lemma norm1_cons (x : R) (v : vec) : norm1 (x :: v) = Rabs x + norm1 v.
Proof. reflexivity. Qed.

Lemma sumsq_le_norm1 (v : vec) : sumsq v <= norm1 v * norm1 v.
Proof.
  induction v as [|x v IH].
  - unfold sumsq, norm1. simpl. lra.
  - rewrite sumsq_cons, norm1_cons.
    pose proof (norm1_nonneg v) as Hn. pose proof (Rabs_pos x) as Hx.
    assert (Hxx : x * x = Rabs x * Rabs x).
    { replace (x * x) with (Rsqr x) by reflexivity. rewrite (Rsqr_abs x). reflexivity. }
    pose proof (Rmult_le_pos _ _ Hx Hn) as Hp.
    replace ((Rabs x + norm1 v) * (Rabs x + norm1 v))
      with (Rabs x * Rabs x + 2 * (Rabs x * norm1 v) + norm1 v * norm1 v) by ring.
    lra.
Qed.

Lemma norm2_le_norm1 (v : vec) : norm2 v <= norm1 v.
Proof.
  unfold norm2. rewrite <- (sqrt_square (norm1 v)) by apply norm1_nonneg.
  apply sqrt_le_1_alt. apply sumsq_le_norm1.
Qed.

Lemma dot_abs_ones (v : vec) : dot (map Rabs v) (ones (length v)) = norm1 v.
Proof.
  induction v as [|x v IH]; [reflexivity|].
  cbn [map length ones repeat]. rewrite dot_cons, norm1_cons.
  unfold ones in IH. rewrite IH. ring.
Qed.

Lemma sumsq_abs (v : vec) : sumsq (map Rabs v) = sumsq v.
Proof.
  induction v as [|x v IH]; [reflexivity|].
  cbn [map]. rewrite !sumsq_cons, IH. f_equal.
  replace (x * x) with (Rsqr x) by reflexivity. rewrite (Rsqr_abs x). reflexivity.
Qed.

Lemma sumsq_ones (n : nat) : sumsq (ones n) = INR n.
Proof.
  induction n as [|n IH]; [reflexivity|].
  unfold ones in *. cbn [repeat]. rewrite sumsq_cons, IH, S_INR. ring.
Qed.

Lemma norm1_le_sqrt (v : vec) : norm1 v <= sqrt (INR (length v)) * norm2 v.
Proof.
  pose proof (cauchy_schwarz (map Rabs v) (ones (length v))) as H.
  rewrite dot_abs_ones, sumsq_abs, sumsq_ones in H.
  unfold norm2. rewrite <- sqrt_mult; [|apply pos_INR | apply sumsq_nonneg].
  rewrite <- (sqrt_square (norm1 v)) at 1 by apply norm1_nonneg.
  apply sqrt_le_1_alt. lra.
Qed.

(** ** [_delta_search]: what the answer depends on *)

Lemma vdiv_vscale (k : R) (w : vec) :
  0 < k -> vdiv (vscale k w) (norm2 (vscale k w)) = vdiv w (norm2 w).
Proof.
  intros Hk. rewrite norm2_vscale by lra.
  destruct w as [|x w]; [reflexivity|].
  unfold vscale. cbn [map]. unfold vdiv.
  destruct (Req_dec_T (norm2 (x :: w)) 0) as [E|E].
  - rewrite E. destruct (Req_dec_T (k * 0) 0) as [_|H]; [reflexivity|].
    exfalso. apply H. ring.
  - destruct (Req_dec_T (k * norm2 (x :: w)) 0) as [H|_].
    + exfalso. apply Rmult_integral in H. destruct H; [lra | contradiction].
    + f_equal. cbn [map]. f_equal; [field; split; [exact E | lra]|].
      rewrite map_map. apply map_ext. intros y. field. split; [exact E | lra].
Qed.

(** X8: [_delta_search] normalises its input before anything else, so the
    answer depends on the direction of [w] only: a positive multiple of
    [w] gets the answer of [w], whatever that is. *)
Theorem delta_search_scale (w : vec) (k c : R) (positive : bool) (init : R) :
  0 < k ->
  _delta_search (vscale k w) c positive init = _delta_search w c positive init.
Proof.
  intros Hk. unfold _delta_search, delta_search_run.
  rewrite (vdiv_vscale k w Hk). reflexivity.
Qed.

Lemma delta_search_scale_witness :
  0 < 2 /\
  _delta_search (vscale 2 [3; 4]) 1 false 0 = _delta_search [3; 4] 1 false 0.
Proof.
  split; [lra|]. apply (delta_search_scale [3; 4] 2 1 false 0). lra.
Defined.

Lemma candidate_unit (v : vec) (p : bool) : norm2 v = 1 -> candidate v 0 p = v.
Proof.
  intros Hn. unfold candidate. rewrite soft_threshold_zero, Hn.
  destruct (Rgt_dec 1 0) as [_|H]; [apply map_div_one | lra].
Qed.

Lemma delta_search_slack (w : vec) (c : R) (p : bool) :
  norm2 w <> 0 -> norm1 w < c * norm2 w ->
  delta_search_run 50 w c p 0 = Ok (map (fun x => x / norm2 w) w, 1%nat).
Proof.
  intros Hw Hc.
  assert (Hpos : 0 < norm2 w) by (pose proof (norm2_nonneg w); lra).
  unfold delta_search_run. rewrite (vdiv_ok _ _ Hw). cbn [rbind].
  set (v := map (fun x => x / norm2 w) w).
  assert (Hv : norm2 v = 1) by (apply norm2_normalized; exact Hpos).
  assert (Hn1 : norm1 v < c).
  { unfold v. rewrite norm1_div by exact Hpos.
    apply Rmult_lt_reg_r with (norm2 w); [exact Hpos|].
    unfold Rdiv. rewrite Rmult_assoc, Rinv_l by lra. lra. }
  change 50%nat with (S 49).
  rewrite (delta_loop_step 49 v c p (delta_init 0) delta_init_inv).
  cbv zeta. cbn [delta_init dl_current dl_i].
  rewrite (candidate_unit v p Hv).
  destruct (Rlt_dec (Rabs (c - norm1 v)) 1e-5) as [_|_]; [reflexivity|].
  unfold bisect. destruct (Rle_dec (c - norm1 v) 0) as [H|_]; [lra|].
  cbn [delta_init dl_max dl_min dl_current dl_i].
  destruct (Rlt_dec (Rabs (0 - 0)) 1e-30) as [_|H]; [reflexivity|].
  exfalso. apply H. rewrite Rminus_0_r, Rabs_R0. lra.
Qed.

(** X9: when the budget is more than the L1 norm of the normalised input -
    as every budget above the square root of the number of entries is -
    [_delta_search] returns the normalised input itself, after a single
    round of its loop. *)
Theorem delta_search_slack_budget (w : vec) (c : R) (positive : bool) :
  norm2 w <> 0 ->
  norm1 w < c * norm2 w \/ sqrt (INR (length w)) < c ->
  delta_search_run 50 w c positive 0 = Ok (map (fun x => x / norm2 w) w, 1%nat) /\
  _delta_search w c positive 0 = Ok (map (fun x => x / norm2 w) w).
Proof.
  intros Hw Hc.
  assert (Hpos : 0 < norm2 w) by (pose proof (norm2_nonneg w); lra).
  assert (Hslack : norm1 w < c * norm2 w).
  { destruct Hc as [Hc|Hc]; [exact Hc|].
    pose proof (norm1_le_sqrt w) as Hle.
    assert (sqrt (INR (length w)) * norm2 w < c * norm2 w).
    { apply Rmult_lt_compat_r; assumption. }
    lra. }
  pose proof (delta_search_slack w c positive Hw Hslack) as Hrun.
  split; [exact Hrun|].
  unfold _delta_search. rewrite Hrun. reflexivity.
Qed.

Lemma delta_search_slack_budget_witness :
  norm2 [3] <> 0 /\
  (norm1 [3] < 2 * norm2 [3] \/ sqrt (INR (length [3])) < 2) /\
  delta_search_run 50 [3] 2 false 0 = Ok (map (fun x => x / norm2 [3]) [3], 1%nat) /\
  _delta_search [3] 2 false 0 = Ok (map (fun x => x / norm2 [3]) [3]).
Proof.
  assert (Hn : norm2 [3] = 3).
  { rewrite norm2_singleton. apply Rabs_right. lra. }
  assert (H1 : norm2 [3] <> 0) by (rewrite Hn; lra).
  assert (H2 : norm1 [3] < 2 * norm2 [3] \/ sqrt (INR (length [3])) < 2).
  { left. rewrite Hn. unfold norm1. simpl. rewrite Rabs_right; lra. }
  split; [exact H1|]. split; [exact H2|].
  exact (delta_search_slack_budget [3] 2 false H1 H2).
Defined.

(** ** [_delta_search]: the vector returned *)

Lemma sign_mult_nonneg (y : R) : 0 <= y * sign y.
Proof.
  destruct (Rtotal_order y 0) as [Hy | [Hy | Hy]].
  - rewrite (sign_neg _ Hy). lra.
  - subst y. rewrite sign_zero. lra.
  - rewrite (sign_pos _ Hy). lra.
Qed.

Lemma same_side_entry (wi n t d : R) :
  0 < n -> 0 < d ->
  same_side wi (sign (wi / n) * Rmax (Rabs (wi / n) - t) 0) /\
  same_side wi (sign (wi / n) * Rmax (Rabs (wi / n) - t) 0 / d).
Proof.
  intros Hn Hd.
  set (y := wi / n). set (m := Rmax (Rabs y - t) 0).
  assert (Hm : 0 <= m) by apply Rmax_r.
  assert (Hwy : wi = n * y) by (unfold y; field; lra).
  assert (Hs : 0 <= y * sign y) by apply sign_mult_nonneg.
  assert (Hbase : 0 <= wi * (sign y * m)).
  { rewrite Hwy. replace (n * y * (sign y * m)) with (n * ((y * sign y) * m)) by ring.
    apply Rmult_le_pos; [lra|]. apply Rmult_le_pos; assumption. }
  assert (Hzero : wi = 0 -> sign y * m = 0).
  { intros E. assert (y = 0) by (unfold y; rewrite E; field; lra).
    replace y with 0 by auto. rewrite sign_zero. ring. }
  split; split.
  - exact Hbase.
  - exact Hzero.
  - unfold Rdiv. rewrite <- Rmult_assoc.
    apply Rmult_le_pos; [exact Hbase|].
    apply Rlt_le, Rinv_0_lt_compat. exact Hd.
  - intros E. rewrite (Hzero E). unfold Rdiv. ring.
Qed.

Lemma candidate_same_side (w : vec) (n t : R) (p : bool) :
  0 < n ->
  Forall2 same_side w (candidate (map (fun x => x / n) w) t p).
Proof.
  intros Hn. unfold candidate. rewrite soft_threshold_formula.
  set (f := fun xi => sign xi * Rmax (Rabs xi - t) 0).
  destruct (Rgt_dec (norm2 (map f (map (fun x => x / n) w))) 0) as [Hd|Hd].
  - set (d := norm2 (map f (map (fun x => x / n) w))) in *.
    clearbody d. induction w as [|wi w IH]; simpl; [constructor|].
    constructor; [|exact IH].
    apply (same_side_entry wi n t d Hn). lra.
  - clear Hd. induction w as [|wi w IH]; simpl; [constructor|].
    constructor; [|exact IH].
    apply (same_side_entry wi n t 1 Hn). lra.
Qed.

(** X10: the vector [_delta_search] returns for an input of nonzero norm
    has, entry by entry, the sign of the input or a zero (and a zero where
    the input has one); unless it is the zero vector, its L1 norm lies
    between 1 and the square root of the number of entries. *)
Theorem delta_search_answer (w : vec) (c : R) (positive : bool) (init : R) :
  norm2 w <> 0 ->
  exists coef,
    _delta_search w c positive init = Ok coef /\
    Forall2 same_side w coef /\
    (coef = zeros (length w) \/
     1 <= norm1 coef <= sqrt (INR (length w))).
Proof.
  intros Hw.
  assert (Hpos : 0 < norm2 w) by (pose proof (norm2_nonneg w); lra).
  destruct (delta_search_run_returns w c positive init Hw)
    as (coef & i & current & Hrun & _ & Hcand).
  exists coef. split; [apply (delta_search_fst _ _ _ _ _ Hrun)|].
  rewrite delta_candidate_eq in Hcand. injection Hcand as Hcoef.
  split.
  - rewrite <- Hcoef. apply candidate_same_side. exact Hpos.
  - destruct (delta_candidate_ok (map (fun x => x / norm2 w) w) current positive)
      as (coef' & Hc' & Hlen & Hcase).
    rewrite delta_candidate_eq in Hc'. injection Hc' as Hc'.
    rewrite Hcoef in Hc'. subst coef'. rewrite length_map in Hlen, Hcase.
    destruct Hcase as [Hz|Hu]; [left; exact Hz | right].
    pose proof (norm2_le_norm1 coef) as H1.
    pose proof (norm1_le_sqrt coef) as H2.
    rewrite Hu in H1. rewrite Hu, Hlen, Rmult_1_r in H2. lra.
Qed.

Lemma delta_search_answer_witness :
  norm2 [3; -4] <> 0 /\
  exists coef,
    _delta_search [3; -4] 1 false 0 = Ok coef /\
    Forall2 same_side [3; -4] coef /\
    (coef = zeros (length [3; -4]) \/
     1 <= norm1 coef <= sqrt (INR (length [3; -4]))).
Proof.
  assert (Hn : norm2 [3; -4] <> 0).
  { unfold norm2, sumsq. simpl. intros H. apply sqrt_eq_0 in H; lra. }
  split; [exact Hn|].
  exact (delta_search_answer [3; -4] 1 false 0 Hn).
Defined.

(** ** The masked sum of the update rules *)

Lemma Rsum_remove_nth (f : vec -> R) (l : list vec) (i : nat) (row : vec) :
  nth_error l i = Some row ->
  Rsum (map f (remove_nth i l)) = Rsum (map f l) - f row.
Proof.
  revert i. induction l as [|h t IH]; intros i H.
  - destruct i; discriminate.
  - destruct i as [|i]; simpl in H.
    + injection H as ->. simpl. lra.
    + simpl. rewrite (IH i H). lra.
Qed.

Lemma remove_nth_Forall {A} (P : A -> Prop) (i : nat) (l : list A) :
  Forall P l -> Forall P (remove_nth i l).
Proof.
  intros H. revert i. induction H as [|h t Hh Ht IH]; intros i.
  - destruct i; constructor.
  - destruct i as [|i]; simpl; [exact Ht|]. constructor; [exact Hh | apply IH].
Qed.

Lemma remove_nth_nil {A} (i : nat) (l : list A) :
  (i < length l)%nat -> remove_nth i l = [] -> length l = 1%nat.
Proof.
  destruct l as [|h t]; simpl; [lia|].
  destruct i as [|i]; simpl; [intros _ ->; reflexivity | discriminate].
Qed.

(** X11: the masked sum taken for view [i] is [IndexError] for an index past
    the last view; it is the array of fill values 1e20 when there is one
    view only; with two views or more, all of one length, it is entry by
    entry the sum of the scores of all the views minus the scores of view
    [i]. *)
Theorem masked_sum_others (sc : list vec) (i : nat) :
  ((length sc <= i)%nat -> masked_sum sc i = Raise IndexError) /\
  (forall row, sc = [row] -> i = O ->
               masked_sum sc i = Ok (map (fun _ => 1e20) row)) /\
  (forall n row,
      index sc i = Ok row ->
      Forall (fun r => length r = n) sc ->
      (2 <= length sc)%nat ->
      exists t,
        masked_sum sc i = Ok t /\ length t = n /\
        forall k, nth k t 0 = Rsum (map (fun r => nth k r 0) sc) - nth k row 0).
Proof.
  split; [|split].
  - intros H. unfold masked_sum, index.
    apply nth_error_None in H. rewrite H. reflexivity.
  - intros row -> ->. reflexivity.
  - intros n row Hrow Hall Hlen. unfold masked_sum. rewrite Hrow. cbn [rbind].
    pose proof (index_lt _ _ _ Hrow) as Hi.
    assert (Hn : length row = n).
    { unfold index in Hrow. destruct (nth_error sc i) as [r|] eqn:E; [|discriminate].
      injection Hrow as ->. apply nth_error_In in E.
      rewrite Forall_forall in Hall. apply Hall. exact E. }
    destruct (remove_nth i sc) as [|o others] eqn:Eo.
    + apply remove_nth_nil in Eo; [lia | exact Hi].
    + rewrite <- Eo. rewrite Hn.
      assert (Hall' : Forall (fun r => length r = n) (remove_nth i sc))
        by (apply remove_nth_Forall; exact Hall).
      eexists. split; [reflexivity|]. split; [apply vsum_length; exact Hall'|].
      intros k. rewrite (nth_vsum n _ k Hall').
      apply (Rsum_remove_nth (fun r => nth k r 0)).
      unfold index in Hrow. destruct (nth_error sc i); [|discriminate].
      injection Hrow as ->. reflexivity.
Qed.

Lemma masked_sum_others_witness :
  index [[1; 2]; [3; 4]; [5; 6]] 1 = Ok [3; 4] /\
  Forall (fun r => length r = 2%nat) [[1; 2]; [3; 4]; [5; 6]] /\
  (2 <= length [[1; 2]; [3; 4]; [5; 6]])%nat /\
  exists t,
    masked_sum [[1; 2]; [3; 4]; [5; 6]] 1 = Ok t /\ length t = 2%nat /\
    forall k, nth k t 0 =
              Rsum (map (fun r => nth k r 0) [[1; 2]; [3; 4]; [5; 6]]) - nth k [3; 4] 0.
Proof.
  assert (H1 : index [[1; 2]; [3; 4]; [5; 6]] 1 = Ok [3; 4]) by reflexivity.
  assert (H2 : Forall (fun r => length r = 2%nat) [[1; 2]; [3; 4]; [5; 6]]).
  { repeat constructor. }
  assert (H3 : (2 <= length [[1; 2]; [3; 4]; [5; 6]])%nat) by (simpl; lia).
  split; [exact H1|]. split; [exact H2|]. split; [exact H3|].
  destruct (masked_sum_others [[1; 2]; [3; 4]; [5; 6]] 1) as (_ & _ & H).
  exact (H 2%nat [3; 4] H1 H2 H3).
Defined.

(** ** The default objective *)

Lemma Rsum_app (l l' : list R) : Rsum (l ++ l') = Rsum l + Rsum l'.
Proof. induction l as [|x l IH]; simpl; [lra | rewrite IH; lra]. Qed.

Lemma fold_left_add {A} (g : A -> R) (l : list A) (acc : R) :
  fold_left (fun obj p => obj + g p) l acc = acc + Rsum (map g l).
Proof.
  revert acc. induction l as [|a l IH]; intros acc; simpl; [lra|].
  rewrite IH. lra.
Qed.

Lemma dot_zeros_r (a : vec) (n : nat) : dot a (zeros n) = 0.
Proof.
  revert n. induction a as [|x a IH]; intros [|n]; try reflexivity.
  unfold zeros in *. cbn [repeat]. rewrite dot_cons, IH. ring.
Qed.

Lemma dot_vadd_r (a b c : vec) :
  length b = length c -> dot a (vadd b c) = dot a b + dot a c.
Proof.
  revert b c. induction a as [|x a IH]; intros [|y b] [|z c] H;
    try discriminate; try (rewrite !dot_nil_l; lra).
  - unfold vadd, vzip. simpl. rewrite !dot_nil_r. lra.
  - injection H as H. change (vadd (y :: b) (z :: c)) with ((y + z) :: vadd b c).
    rewrite !dot_cons, (IH b c H). ring.
Qed.

Lemma sumsq_vadd (a b : vec) :
  length a = length b -> sumsq (vadd a b) = sumsq a + 2 * dot a b + sumsq b.
Proof.
  revert b. induction a as [|x a IH]; intros [|y b] H; try discriminate.
  - unfold vadd, vzip, sumsq, dot. simpl. lra.
  - injection H as H. change (vadd (x :: a) (y :: b)) with ((x + y) :: vadd a b).
    rewrite !sumsq_cons, dot_cons, (IH b H). ring.
Qed.

Lemma dot_vsum (n : nat) (a : vec) (rows : list vec) :
  Forall (fun r => length r = n) rows ->
  dot a (vsum n rows) = Rsum (map (dot a) rows).
Proof.
  intros H. induction H as [|r rows Hr Hrows IH]; simpl.
  - apply dot_zeros_r.
  - rewrite dot_vadd_r, IH; [reflexivity|].
    rewrite Hr. symmetry. apply vsum_length. exact Hrows.
Qed.

Lemma pairwise_cons (n : nat) (a : vec) (rows : list vec) :
  Forall (fun r => length r = n) rows ->
  pairwise (a :: rows) = dot a (vsum n rows) + pairwise rows.
Proof.
  intros H. unfold pairwise. rewrite !fold_left_add. cbn [combinations2].
  rewrite map_app, Rsum_app, map_map. cbn [fst snd].
  rewrite (dot_vsum n a rows H).
  replace (map (fun x : vec => dot a x) rows) with (map (dot a) rows)
    by (apply map_ext; reflexivity).
  lra.
Qed.

Lemma pairwise_identity (n : nat) (sc : list vec) :
  Forall (fun r => length r = n) sc ->
  pairwise sc = (sumsq (vsum n sc) - Rsum (map sumsq sc)) / 2.
Proof.
  intros H. induction H as [|a rows Ha Hrows IH].
  - unfold pairwise. simpl. fold (zeros n).
    replace (sumsq (zeros n)) with 0; [lra|].
    pose proof (norm2_zeros n) as Hz. rewrite <- (norm2_sqr (zeros n)), Hz. ring.
  - etransitivity; [apply (pairwise_cons n); exact Hrows|].
    rewrite IH. cbn [vsum fold_right map Rsum].
    fold (vsum n rows). rewrite sumsq_vadd.
    + change (fold_right Rplus 0 (map sumsq rows)) with (Rsum (map sumsq rows)).
      lra.
    + rewrite Ha. symmetry. apply vsum_length. exact Hrows.
Qed.

(** X12: the default objective, the sum of the products [score_i.T @
    score_j] over the pairs of views, is half of what the squared norm of
    the sum of the scores exceeds the sum of their squared norms by.  It is
    the product of the two scores when there are two views, and 0 when
    there are fewer. *)
Theorem objective_pairwise s e (sc : list vec) (n : nat) :
  class_of s <> Elastic -> class_of s <> ADMM ->
  scores (fit_attrs s) = Some sc ->
  Forall (fun r => length r = n) sc ->
  objective s e = (Ok (pairwise sc), s, e) /\
  pairwise sc = (sumsq (vsum n sc) - Rsum (map sumsq sc)) / 2 /\
  (forall a b, sc = [a; b] -> pairwise sc = dot a b) /\
  ((length sc < 2)%nat -> pairwise sc = 0).
Proof.
  intros He Ha Hsc Hall.
  split; [|split; [apply pairwise_identity; exact Hall | split]].
  - assert (Hobj : BaseInnerLoop.objective s e = (Ok (pairwise sc), s, e)).
    { unfold BaseInnerLoop.objective, bind, get_scores, attr. rewrite Hsc. reflexivity. }
    unfold objective, bind, get. cbv beta iota.
    destruct (class_of s); try exact Hobj; contradiction.
  - intros a b ->. unfold pairwise. simpl. lra.
  - intros Hlen. destruct sc as [|a [|b sc]]; [reflexivity | reflexivity|].
    simpl in Hlen. lia.
Qed.

Lemma objective_pairwise_witness :
  class_of scored_example <> Elastic /\
  class_of scored_example <> ADMM /\
  scores (fit_attrs scored_example) = Some [[1; 2]; [3; 4]; [5; 6]] /\
  Forall (fun r => length r = 2%nat) [[1; 2]; [3; 4]; [5; 6]] /\
  objective scored_example env0 =
    (Ok (pairwise [[1; 2]; [3; 4]; [5; 6]]), scored_example, env0) /\
  pairwise [[1; 2]; [3; 4]; [5; 6]] =
  (sumsq (vsum 2 [[1; 2]; [3; 4]; [5; 6]]) -
   Rsum (map sumsq [[1; 2]; [3; 4]; [5; 6]])) / 2.
Proof.
  assert (H1 : class_of scored_example <> Elastic) by discriminate.
  assert (H2 : class_of scored_example <> ADMM) by discriminate.
  assert (H3 : Forall (fun r => length r = 2%nat) [[1; 2]; [3; 4]; [5; 6]])
    by (repeat constructor).
  split; [exact H1|]. split; [exact H2|]. split; [reflexivity|]. split; [exact H3|].
  destruct (objective_pairwise scored_example env0 [[1; 2]; [3; 4]; [5; 6]] 2
              H1 H2 eq_refl H3) as (Hrun & Hid & _).
  split; [exact Hrun | exact Hid].
Defined.

(** ** What an iteration leaves alone, whatever its outcome *)

Section Stays.

(** [Rs] is a relation that the assignments of the update rules
    respect: those to [weights], [scores], [z], [eta], [regressors] and
    [gamma]. *)
Variable Rs : loop -> loop -> Prop.
Hypothesis Rs_refl : forall s, Rs s s.
Hypothesis Rs_trans : forall s1 s2 s3, Rs s1 s2 -> Rs s2 s3 -> Rs s1 s3.
Hypothesis Rs_weights : forall v s, Rs s (set_weights v s).
Hypothesis Rs_scores : forall v s, Rs s (set_scores v s).
Hypothesis Rs_z : forall v s, Rs s (set_z v s).
Hypothesis Rs_eta : forall v s, Rs s (set_eta v s).
Hypothesis Rs_regressors : forall v s, Rs s (set_regressors v s).
Hypothesis Rs_gamma : forall v s, Rs s (set_gamma v s).

Lemma stays_ret {A} (a : A) : stays Rs (ret a).
Proof. intros s e. apply Rs_refl. Qed.

Lemma stays_lift {A} (r : result A) : stays Rs (lift r).
Proof. intros s e. apply Rs_refl. Qed.

Lemma stays_get {A} (f : loop -> A) : stays Rs (get f).
Proof. intros s e. apply Rs_refl. Qed.

Lemma stays_ask {A} (f : env -> A) : stays Rs (ask f).
Proof. intros s e. apply Rs_refl. Qed.

Lemma stays_attr {A} (name : string) (f : loop -> option A) : stays Rs (attr name f).
Proof. intros s e. unfold attr. destruct (f s); apply Rs_refl. Qed.

Lemma stays_get_eta : stays Rs get_eta.
Proof. intros s e. unfold get_eta. destruct (eta (hyp s)); apply Rs_refl. Qed.

Lemma stays_print (l : string) : stays Rs (print l).
Proof. intros s e. apply Rs_refl. Qed.

Lemma stays_modify (f : loop -> loop) :
  (forall s, Rs s (f s)) -> stays Rs (modify f).
Proof. intros H s e. apply H. Qed.

Lemma stays_bind {A B} (m : M A) (k : A -> M B) :
  stays Rs m -> (forall a, stays Rs (k a)) -> stays Rs (bind m k).
Proof.
  intros Hm Hk s e. unfold bind. specialize (Hm s e).
  destruct (m s e) as [[[a| | |] s1] e1]; simpl in *; try exact Hm.
  eapply Rs_trans; [exact Hm | apply Hk].
Qed.

Lemma stays_for_each {A} (l : list A) (body : A -> M unit) :
  (forall a, stays Rs (body a)) -> stays Rs (for_each l body).
Proof.
  intros H. induction l as [|a l IH]; simpl; [apply stays_ret|].
  apply stays_bind; auto.
Qed.

Ltac stays_step :=
  lazymatch goal with
  | |- stays _ (bind _ _) => apply stays_bind; [|intros]
  | |- stays _ (ret _) => apply stays_ret
  | |- stays _ (lift _) => apply stays_lift
  | |- stays _ (get _) => apply stays_get
  | |- stays _ (ask _) => apply stays_ask
  | |- stays _ (attr _ _) => apply stays_attr
  | |- stays _ get_eta => apply stays_get_eta
  | |- stays _ (print _) => apply stays_print
  | |- stays _ (modify _) =>
    apply stays_modify; intros;
    first [apply Rs_weights | apply Rs_scores | apply Rs_z | apply Rs_eta
          | apply Rs_regressors | apply Rs_gamma]
  | |- stays _ (for_each _ _) => apply stays_for_each; intros
  | |- stays _ (if ?b then _ else _) => destruct b
  | |- stays _ (match ?x with _ => _ end) => destruct x
  | |- stays _ (let '(_, _) := ?x in _) => destruct x
  | |- stays _ get_views => unfold get_views
  | |- stays _ get_scores => unfold get_scores
  | |- stays _ get_weights => unfold get_weights
  | |- stays _ get_z => unfold get_z
  | |- stays _ get_regressors => unfold get_regressors
  | |- stays _ get_gamma => unfold get_gamma
  | |- stays _ (put_weight _ _) => unfold put_weight
  | |- stays _ (put_score _ _) => unfold put_score
  | |- stays _ (put_z _ _) => unfold put_z
  | |- stays _ (put_eta _ _) => unfold put_eta
  | |- stays _ (view_at _) => unfold view_at
  | |- stays _ (weight_at _) => unfold weight_at
  | |- stays _ (c_at _) => unfold c_at
  | |- stays _ (regressor_fit _ _ _) => unfold regressor_fit
  end.

Ltac stays_tac := repeat stays_step.

Lemma stays_constrained_loop fuel X y i st :
  stays Rs (ElasticInnerLoop.constrained_loop fuel X y i st).
Proof.
  revert st. induction fuel as [|fuel IH]; intros st; simpl; stays_tac.
  apply IH.
Qed.

Lemma stays_update_rounds n i mu lam N g tr :
  stays Rs (ADMMInnerLoop.update_rounds n i mu lam N g tr).
Proof.
  revert tr. induction n as [|n IH]; intros tr; simpl; stays_tac; [|apply IH].
  unfold ADMMInnerLoop.update_round. stays_tac.
Qed.

Lemma stays_update_view i : stays Rs (update_view i).
Proof.
  unfold update_view. stays_tac.
  - unfold PLSInnerLoop.update_view. stays_tac.
  - unfold PMDInnerLoop.update_view. stays_tac.
  - unfold ParkhomenkoInnerLoop.update_view. stays_tac.
  - unfold ElasticInnerLoop.update_view. stays_tac.
    + unfold ElasticInnerLoop.elastic_solver_constrained. stays_tac.
      apply stays_constrained_loop.
    + unfold ElasticInnerLoop.elastic_solver. stays_tac.
  - unfold ADMMInnerLoop.update_view, ADMMInnerLoop.update_view_loop. stays_tac.
    apply stays_update_rounds.
Qed.

Lemma stays_inner_iteration : stays Rs inner_iteration.
Proof.
  unfold inner_iteration. stays_tac;
    try (unfold BaseInnerLoop.inner_iteration; stays_tac);
    apply stays_update_view.
Qed.

End Stays.

Lemma iteration_frame_refl s : iteration_frame s s.
Proof. split; [apply frame_refl | split; reflexivity]. Qed.

Lemma iteration_frame_trans s1 s2 s3 :
  iteration_frame s1 s2 -> iteration_frame s2 s3 -> iteration_frame s1 s3.
Proof.
  intros (F1 & T1 & O1) (F2 & T2 & O2).
  split; [eapply frame_trans; eauto | split; congruence].
Qed.

Lemma inner_iteration_iteration_frame s e :
  iteration_frame s (snd (fst (inner_iteration s e))).
Proof.
  apply (stays_inner_iteration iteration_frame iteration_frame_refl
           iteration_frame_trans);
    intros v s0; (split; [unfold frame; repeat split | split; reflexivity]).
Qed.

(** X13: a pass of [inner_iteration], however it ends - also when an
    update raises half way - has assigned to nothing but the weights, the
    scores and the working variables of the solvers ([z], [eta], [gamma],
    the regressors): class, configuration, views, the hyperparameters [c],
    [positive], [l1_ratio], [mu] and [lam], the objective trace and the old
    scores are as before.  The same holds of the update of a single
    view. *)
Theorem inner_iteration_assigns s e :
  iteration_frame s (snd (fst (inner_iteration s e))) /\
  forall i, iteration_frame s (snd (fst (update_view i s e))).
Proof.
  split; [apply inner_iteration_iteration_frame|].
  intros i.
  apply (stays_update_view iteration_frame iteration_frame_refl
           iteration_frame_trans);
    intros v s0; (split; [unfold frame; repeat split | split; reflexivity]).
Qed.

(** ** The number of iterations of [fit] *)

Lemma iterate_track (n : nat) :
  forall k s e s' e' t,
    track_objective (fit_attrs s) = Some t ->
    iterate n k s e = (Ok tt, s', e') ->
    exists l,
      track_objective (fit_attrs s') = Some (t ++ l) /\
      (length l <= n)%nat /\
      (Nat.min n (if (k =? 0)%nat then 2 else 1) <= length l)%nat /\
      (class_of s = Base -> length l = n).
Proof.
  induction n as [|n IH]; intros k s e s' e' t Ht H.
  - cbn [iterate] in H. apply ret_ok in H. destruct H as (_ & -> & _).
    exists []. rewrite app_nil_r. repeat split; auto.
  - cbn [iterate] in H.
    apply bind_ok in H. destruct H as ([] & s1 & e1 & Hpass & H).
    pose proof (inner_iteration_iteration_frame s e) as (Hf1 & Ht1 & _).
    rewrite Hpass in Hf1, Ht1. cbn [fst snd] in Hf1, Ht1.
    apply bind_ok in H. destruct H as (obj & s2 & e2 & Hobj & H).
    apply objective_ok in Hobj. destruct Hobj as (-> & ->).
    apply bind_ok in H. destruct H as (track & s2 & e2 & Htr & H). run_inv Htr.
    assert (track = t) by congruence. subst track.
    apply bind_ok in H. destruct H as ([] & s2 & e2 & Hset & H). run_inv Hset.
    apply bind_ok in H. destruct H as (stop & s3 & e3 & Hstop & H).
    assert (Es3 : s3 = set_track_objective (t ++ [obj]) s1 /\
                  (class_of s = Base -> stop = false) /\
                  (k = O -> stop = false)).
    { destruct (0 <? k)%nat eqn:Ek.
      - split; [apply early_stop_ok in Hstop; apply Hstop|]. split.
        + intros Hk.
          assert (Hcls : class_of (set_track_objective (t ++ [obj]) s1) = Base).
          { cbn. destruct Hf1 as (Ecls & _). rewrite Ecls. exact Hk. }
          rewrite (base_early_stop _ e1 Hcls) in Hstop.
          injection Hstop as <- _ _. reflexivity.
        + intros ->. discriminate.
      - run_inv Hstop. auto. }
    destruct Es3 as (-> & Hbase & Hfirst).
    destruct stop.
    + apply ret_ok in H. destruct H as (_ & -> & ->).
      exists [obj]. cbn [length].
      split; [reflexivity|]. split; [lia|]. split.
      * destruct (k =? 0)%nat eqn:Ek; [|lia].
        apply Nat.eqb_eq in Ek. specialize (Hfirst Ek). discriminate.
      * intros Hk. specialize (Hbase Hk). discriminate.
    + apply bind_ok in H. destruct H as (sc & s4 & e4 & Hsc & H). run_inv Hsc.
      apply bind_ok in H. destruct H as ([] & s4 & e4 & Hold & H). run_inv Hold.
      assert (Ht4 : track_objective
                      (fit_attrs (set_old_scores sc (set_track_objective (t ++ [obj]) s1)))
                    = Some (t ++ [obj])) by reflexivity.
      destruct (IH (S k) _ _ _ _ _ Ht4 H) as (l & Hl & Hle & Hge & Hb).
      exists (obj :: l). rewrite <- app_assoc in Hl. cbn [app] in Hl.
      cbn [length].
      split; [exact Hl|]. split; [lia|]. split.
      * cbn [Nat.eqb] in Hge. destruct (k =? 0)%nat; lia.
      * intros Hk. rewrite Hb; [reflexivity|].
        cbn. destruct Hf1 as (Ecls & _). rewrite Ecls. exact Hk.
Qed.
Lemma fit_body_track nested s e s' e' :
  fit_body nested s e = (Ok tt, s', e') ->
  exists l,
    track_objective (fit_attrs s') = Some l /\
    (length l <= Z.to_nat (max_iter s))%nat /\
    (Nat.min (Z.to_nat (max_iter s)) 2 <= length l)%nat /\
    (class_of s = Base -> length l = Z.to_nat (max_iter s)).
Proof.
  intros H. unfold fit_body in H.
  apply bind_ok in H. destruct H as ([] & s1 & e1 & Hcheck & H).
  assert (Hc1 : core s s1).
  { pose proof (keeps_check_params more_warnings more_warnings_refl
                  more_warnings_trans s e) as [Hc _].
    rewrite Hcheck in Hc. exact Hc. }
  apply bind_ok in H. destruct H as ([] & s2 & e2 & Hinit & H).
  assert (Hc2 : core s1 s2).
  { pose proof (keeps_initialize (fun _ _ => True) (fun _ => I) (fun _ _ _ _ _ => I)
                  (fun _ _ => I) nested s1 e1 (fun _ => I)) as [Hc _].
    rewrite Hinit in Hc. exact Hc. }
  apply bind_ok in H. destruct H as ([] & s3 & e3 & Hset & H). run_inv Hset.
  apply bind_ok in H. destruct H as (n & s3 & e3 & Hget & H). run_inv Hget.
  set (s3 := set_track_objective [] s2) in *.
  assert (Hc3 : core s s3).
  { eapply core_trans; [exact Hc1|]. eapply core_trans; [exact Hc2|].
    unfold core. repeat split. }
  destruct Hc3 as (E1 & _ & E3 & _).
  assert (Ht3 : track_objective (fit_attrs s3) = Some []) by reflexivity.
  destruct (iterate_track _ _ _ _ _ _ _ Ht3 H) as (l & Hl & Hle & Hge & Hb).
  rewrite E3 in Hle, Hge, Hb. rewrite E1 in Hb.
  exists l. cbn [app] in Hl. cbn [Nat.eqb] in Hge. auto.
Qed.

(** X14: a fit that returns has recorded one value of the objective per
    iteration it ran: at most [max_iter] of them, and at least two when
    [max_iter] allows it, the early stop being consulted from the second
    iteration on; none at all for a [max_iter] of zero or less.  The loop
    of [_InnerLoop] itself never stops early. *)
Theorem fit_iteration_count (vs : list matrix) s e s' e' :
  fit vs s e = (Ok tt, s', e') ->
  exists l,
    track_objective (fit_attrs s') = Some l /\
    (length l <= Z.to_nat (max_iter s))%nat /\
    (Nat.min (Z.to_nat (max_iter s)) 2 <= length l)%nat /\
    (class_of s = Base -> length l = Z.to_nat (max_iter s)).
Proof.
  intros H. unfold fit in H. rewrite fit_at_unfold in H.
  apply fit_body_track in H.
  destruct (2 <? length vs)%nat; exact H.
Qed.

Lemma fit_iteration_count_witness :
  exists s' e' l,
    fit [[[2]]; [[2]]] (new PLS 1 1e-5 false "random") env0 = (Ok tt, s', e') /\
    track_objective (fit_attrs s') = Some l /\
    (length l <= 1)%nat /\ (1 <= length l)%nat.
Proof.
  destruct pls_fit_example as (s' & e' & Hfit & _).
  destruct (fit_iteration_count _ _ _ _ _ Hfit) as (l & Hl & Hle & Hge & _).
  exists s', e', l. split; [exact Hfit|]. split; [exact Hl|].
  split; [exact Hle | exact Hge].
Defined.

(** ** [_InnerLoop.initialize] *)

Lemma env_draw_0 (e : env) : env_draw 0 e = e.
Proof. destruct e. unfold env_draw. cbn. f_equal. lia. Qed.

Lemma env_draw_add (a b : nat) (e : env) :
  env_draw b (env_draw a e) = env_draw (a + b) e.
Proof. destruct e. unfold env_draw. cbn. f_equal. lia. Qed.

Lemma mapM_rand (f : matrix -> nat) (vs : list matrix) s :
  forall e,
  exists rows,
    mapM (fun view => rand (f view)) vs s e =
      (Ok rows, s, env_draw (list_sum (map f vs)) e) /\
    Forall2 (fun view row => length row = f view) vs rows.
Proof.
  induction vs as [|v vs IH]; intros e.
  - exists []. cbn [mapM map list_sum fold_right]. rewrite env_draw_0.
    split; [reflexivity | constructor].
  - destruct (IH (env_draw (f v) e)) as (rows & Hrun & Hall).
    exists (map (fun k => random e (drawn e + k)%nat) (seq 0 (f v)) :: rows).
    split.
    + cbn [mapM]. unfold bind at 1. unfold rand at 1. cbv beta iota.
      unfold bind at 1. rewrite Hrun. cbv beta iota. unfold ret.
      rewrite env_draw_add. reflexivity.
    + constructor; [|exact Hall]. rewrite length_map, length_seq. reflexivity.
Qed.

Lemma initialize_random_run (nested : list matrix -> env -> result loop * env) s e :
  initialization s = "random"%string ->
  exists sc ws,
    BaseInnerLoop.initialize nested s e =
      (Ok tt, set_weights ws (set_scores sc s),
       env_draw (list_sum (map nrows (views (fit_attrs s))) +
                 list_sum (map ncols (views (fit_attrs s)))) e) /\
    Forall2 (fun view row => length row = nrows view) (views (fit_attrs s)) sc /\
    Forall2 (fun view w => length w = ncols view) (views (fit_attrs s)) ws.
Proof.
  intros Hinit.
  destruct (mapM_rand nrows (views (fit_attrs s)) s e) as (sc & Hsc & Hshape).
  destruct (mapM_rand ncols (views (fit_attrs s)) (set_scores sc s)
              (env_draw (list_sum (map nrows (views (fit_attrs s)))) e))
    as (ws & Hws & Hwshape).
  exists sc, ws. split; [|split; assumption].
  unfold BaseInnerLoop.initialize.
  unfold bind at 1. unfold get at 1. cbv beta iota. rewrite Hinit.
  unfold bind at 1. unfold get_views at 1. unfold get at 1. cbv beta iota.
  change (String.eqb "random" "random") with true.
  change (String.eqb "random" "uniform") with false.
  cbv beta iota.
  change (String.eqb "random" "unregularized") with false.
  cbv beta iota.
  unfold bind at 1. unfold bind at 1. rewrite Hsc. cbv beta iota.
  unfold modify at 1. cbv beta iota.
  unfold bind at 1. unfold ret at 1. cbv beta iota.
  unfold bind at 1.
  change (views (fit_attrs (set_scores sc s))) with (views (fit_attrs s)) in Hws.
  rewrite Hws. cbv beta iota. unfold modify.
  rewrite env_draw_add. reflexivity.
Qed.

(** X15: with [initialization='random'], on views of one number of
    samples, [initialize] always succeeds and never runs the nested fit: it
    draws one random number for every sample and then one for every
    feature of every view, and leaves scores of one entry per sample and
    weights of one entry per feature for each view. *)
Theorem initialize_random (nested : list matrix -> env -> result loop * env) s e
        (N : nat) :
  initialization s = "random"%string ->
  Forall (fun view => nrows view = N) (views (fit_attrs s)) ->
  exists sc ws,
    BaseInnerLoop.initialize nested s e =
      (Ok tt, set_weights ws (set_scores sc s),
       env_draw (list_sum (map nrows (views (fit_attrs s))) +
                 list_sum (map ncols (views (fit_attrs s)))) e) /\
    Forall2 (fun view row => length row = nrows view) (views (fit_attrs s)) sc /\
    Forall (fun row => length row = N) sc /\
    Forall2 (fun view w => length w = ncols view) (views (fit_attrs s)) ws.
Proof.
  intros Hinit Hall.
  destruct (initialize_random_run nested s e Hinit) as (sc & ws & Hrun & H1 & H2).
  exists sc, ws. split; [exact Hrun|]. split; [exact H1|]. split; [|exact H2].
  clear Hrun H2. induction H1 as [|view row vs sc Hrow Hrest IH]; [constructor|].
  inversion Hall as [|? ? Hview Hvs]; subst.
  constructor; [congruence | apply IH; exact Hvs].
Qed.

Lemma initialize_random_witness :
  initialization (set_views [[[1; 2]]; [[3; 4]]] (new PLS 1 1e-5 false "random"))
    = "random"%string /\
  exists sc ws e',
    BaseInnerLoop.initialize unregularized_fit
      (set_views [[[1; 2]]; [[3; 4]]] (new PLS 1 1e-5 false "random")) env0 =
      (Ok tt,
       set_weights ws
         (set_scores sc
            (set_views [[[1; 2]]; [[3; 4]]] (new PLS 1 1e-5 false "random"))),
       e') /\
    drawn e' = 6%nat /\
    Forall2 (fun view row => length row = nrows view) [[[1; 2]]; [[3; 4]]] sc /\
    Forall2 (fun view w => length w = ncols view) [[[1; 2]]; [[3; 4]]] ws.
Proof.
  split; [reflexivity|].
  destruct (initialize_random unregularized_fit
              (set_views [[[1; 2]]; [[3; 4]]] (new PLS 1 1e-5 false "random"))
              env0 1 eq_refl ltac:(repeat constructor)) as (sc & ws & Hrun & H1 & _ & H2).
  exists sc, ws. eexists. split; [exact Hrun|].
  split; [reflexivity|]. split; [exact H1 | exact H2].
Defined.
Lemma norm2_ones (n : nat) : norm2 (ones n) = sqrt (INR n).
Proof. unfold norm2. rewrite sumsq_ones. reflexivity. Qed.

Lemma normalize_ones (N : nat) :
  vdiv (ones N) (norm2 (ones N)) = Ok (repeat (1 / sqrt (INR N)) N).
Proof.
  destruct N as [|N]; [reflexivity|].
  rewrite norm2_ones, vdiv_ok.
  - unfold ones. rewrite map_repeat. reflexivity.
  - intros H. apply sqrt_eq_0 in H; [|apply pos_INR].
    pose proof (lt_0_INR (S N) ltac:(lia)). lra.
Qed.

Lemma normalize_rows_ones (N : nat) (vs : list matrix) :
  Forall (fun view => nrows view = N) vs ->
  mapR (fun row => vdiv row (norm2 row)) (map (fun view => ones (nrows view)) vs) =
  Ok (repeat (repeat (1 / sqrt (INR N)) N) (length vs)).
Proof.
  intros H. induction H as [|v vs Hv Hvs IH]; [reflexivity|].
  cbn [map mapR length repeat]. rewrite Hv, normalize_ones. cbn [rbind].
  rewrite IH. reflexivity.
Qed.

(** X16: with [initialization='uniform'], on views of [N] samples each,
    [initialize] gives every view the scores 1/sqrt(N) in every entry, of
    norm 1, and random weights; without any view it raises [AxisError]. *)
Theorem initialize_uniform (nested : list matrix -> env -> result loop * env) s e
        (N : nat) :
  initialization s = "uniform"%string ->
  Forall (fun view => nrows view = N) (views (fit_attrs s)) ->
  (views (fit_attrs s) = [] ->
   BaseInnerLoop.initialize nested s e = (Raise AxisError, s, e)) /\
  (views (fit_attrs s) <> [] ->
   exists ws,
     BaseInnerLoop.initialize nested s e =
       (Ok tt,
        set_weights ws
          (set_scores (repeat (repeat (1 / sqrt (INR N)) N)
                              (length (views (fit_attrs s)))) s),
        env_draw (list_sum (map ncols (views (fit_attrs s)))) e) /\
     Forall2 (fun view w => length w = ncols view) (views (fit_attrs s)) ws /\
     ((0 < N)%nat -> norm2 (repeat (1 / sqrt (INR N)) N) = 1)).
Proof.
  intros Hinit Hall.
  assert (Hstart :
             BaseInnerLoop.initialize nested s e =
             bind (bind (lift (normalize_rows
                                 (map (fun view => ones (nrows view))
                                      (views (fit_attrs s)))))
                        (fun sc => modify (set_scores sc)))
                  (fun _ => bind (mapM (fun view => rand (ncols view))
                                       (views (fit_attrs s)))
                                 (fun ws => modify (set_weights ws))) s e).
  { unfold BaseInnerLoop.initialize.
    unfold bind at 1. unfold get at 1. cbv beta iota. rewrite Hinit.
    unfold bind at 1. unfold get_views at 1. unfold get at 1. cbv beta iota.
    change (String.eqb "uniform" "random") with false.
    change (String.eqb "uniform" "uniform") with true.
    cbv beta iota.
    unfold bind at 1. unfold ret at 1. cbv beta iota. reflexivity. }
  rewrite Hstart. clear Hstart.
  split.
  - intros Hv. rewrite Hv. reflexivity.
  - intros Hv.
    assert (Hnorm : normalize_rows (map (fun view => ones (nrows view))
                                        (views (fit_attrs s))) =
                    Ok (repeat (repeat (1 / sqrt (INR N)) N)
                               (length (views (fit_attrs s))))).
    { unfold normalize_rows.
      destruct (views (fit_attrs s)) as [|v vs] eqn:Evs; [contradiction|].
      rewrite <- (normalize_rows_ones N (v :: vs) Hall). reflexivity. }
    set (sc := repeat (repeat (1 / sqrt (INR N)) N) (length (views (fit_attrs s)))) in *.
    destruct (mapM_rand ncols (views (fit_attrs s)) (set_scores sc s) e)
      as (ws & Hws & Hwshape).
    exists ws. split; [|split; [exact Hwshape|]].
    + unfold bind at 1. unfold bind at 1. rewrite Hnorm. unfold lift at 1.
      cbv beta iota. unfold modify at 1. cbv beta iota.
      unfold bind at 1. rewrite Hws. reflexivity.
    + intros HN. pose proof (normalize_ones N) as Hone.
      apply vdiv_unit in Hone; [exact Hone|].
      destruct N; [lia | discriminate].
Qed.

Lemma initialize_uniform_witness :
  initialization (set_views [[[1; 2]]; [[3; 4]]] (new PLS 1 1e-5 false "uniform"))
    = "uniform"%string /\
  Forall (fun view => nrows view = 1%nat) [[[1; 2]]; [[3; 4]]] /\
  [[[1; 2]]; [[3; 4]]] <> [] /\
  exists ws e',
    BaseInnerLoop.initialize unregularized_fit
      (set_views [[[1; 2]]; [[3; 4]]] (new PLS 1 1e-5 false "uniform")) env0 =
      (Ok tt,
       set_weights ws
         (set_scores (repeat (repeat (1 / sqrt (INR 1)) 1) 2)
            (set_views [[[1; 2]]; [[3; 4]]] (new PLS 1 1e-5 false "uniform"))),
       e') /\
    norm2 (repeat (1 / sqrt (INR 1)) 1) = 1.
Proof.
  assert (Hall : Forall (fun view => nrows view = 1%nat) [[[1; 2]]; [[3; 4]]])
    by (repeat constructor).
  assert (Hne : [[[1; 2]]; [[3; 4]]] <> []) by discriminate.
  split; [reflexivity|]. split; [exact Hall|]. split; [exact Hne|].
  destruct (initialize_uniform unregularized_fit
              (set_views [[[1; 2]]; [[3; 4]]] (new PLS 1 1e-5 false "uniform"))
              env0 1 eq_refl Hall) as (_ & H).
  destruct (H Hne) as (ws & Hrun & _ & Hn).
  exists ws. eexists. split; [exact Hrun|]. apply Hn. lia.
Defined.

(** ** An [initialization] that is none of the three *)

Lemma bind_raise {A B} (m : M A) (k : A -> M B) s e x s1 e1 :
  m s e = (Raise x, s1, e1) -> bind m k s e = (Raise x, s1, e1).
Proof. intros H. unfold bind. rewrite H. reflexivity. Qed.

Lemma initialize_unknown (nested : list matrix -> env -> result loop * env) s e :
  unknown_initialization s ->
  exists ws,
    BaseInnerLoop.initialize nested s e =
    (Ok tt, set_weights ws s,
     env_draw (list_sum (map ncols (views (fit_attrs s)))) e).
Proof.
  intros (H1 & H2 & H3).
  apply String.eqb_neq in H1, H2, H3.
  destruct (mapM_rand ncols (views (fit_attrs s)) s e) as (ws & Hws & _).
  exists ws. unfold BaseInnerLoop.initialize.
  unfold bind at 1. unfold get at 1. cbv beta iota.
  unfold bind at 1. unfold get_views at 1. unfold get at 1. cbv beta iota.
  rewrite H1, H2, H3.
  unfold bind at 1. unfold ret at 1. cbv beta iota.
  unfold bind at 1. unfold ret at 1. cbv beta iota.
  unfold bind at 1. rewrite Hws. reflexivity.
Qed.

Lemma get_scores_unset s e :
  scores (fit_attrs s) = None ->
  get_scores s e = (Raise (AttributeError "scores"), s, e).
Proof. intros H. unfold get_scores, attr. rewrite H. reflexivity. Qed.

Lemma first_pass_unset {B} (k : R -> M B) s e :
  (class_of s = PLS /\ views (fit_attrs s) <> []) \/ class_of s = Base ->
  scores (fit_attrs s) = None ->
  bind inner_iteration (fun _ => bind objective k) s e =
  (Raise (AttributeError "scores"), s, e).
Proof.
  intros [[Hk Hv] | Hk] Hsc.
  - apply bind_raise. unfold inner_iteration.
    unfold bind at 1. unfold get at 1. cbv beta iota. rewrite Hk.
    unfold bind at 1. unfold get_views at 1. unfold get at 1. cbv beta iota.
    destruct (views (fit_attrs s)) as [|v vs]; [contradiction|].
    cbn [length seq for_each]. apply bind_raise.
    rewrite (update_view_class PLS 0 s e Hk).
    unfold PLSInnerLoop.update_view. apply bind_raise. apply get_scores_unset. exact Hsc.
  - unfold bind at 1. unfold inner_iteration.
    unfold bind at 1. unfold get at 1. cbv beta iota. rewrite Hk.
    unfold BaseInnerLoop.inner_iteration, ret. cbv beta iota.
    apply bind_raise.
    unfold objective. unfold bind at 1. unfold get at 1. cbv beta iota. rewrite Hk.
    unfold BaseInnerLoop.objective. apply bind_raise. apply get_scores_unset. exact Hsc.
Qed.

Lemma fit_body_unknown nested s e :
  (class_of s = PLS /\ views (fit_attrs s) <> []) \/ class_of s = Base ->
  unknown_initialization s ->
  scores (fit_attrs s) = None ->
  (0 < max_iter s)%Z ->
  exists s',
    fit_body nested s e =
      (Raise (AttributeError "scores"), s',
       env_draw (list_sum (map ncols (views (fit_attrs s)))) e) /\
    scores (fit_attrs s') = None /\
    weights (fit_attrs s') <> None /\
    track_objective (fit_attrs s') = Some [].
Proof.
  intros Hk Hu Hsc Hmax.
  assert (Hcheck : exists s1,
             check_params s e = (Ok tt, s1, e) /\ class_of s1 = class_of s /\
             fit_attrs s1 = fit_attrs s /\ initialization s1 = initialization s /\
             max_iter s1 = max_iter s).
  { unfold check_params. unfold bind at 1. unfold get at 1. cbv beta iota.
    destruct Hk as [[Hk _] | Hk]; rewrite Hk.
    - eexists. split; [reflexivity|]. split; [exact Hk|].
      split; [reflexivity|]. split; reflexivity.
    - exists s. split; [reflexivity|]. split; [exact Hk|].
      split; [reflexivity|]. split; reflexivity. }
  destruct Hcheck as (s1 & Hcheck & Ek & Ef & Ei & Em).
  assert (Hu1 : unknown_initialization s1).
  { unfold unknown_initialization. rewrite Ei. exact Hu. }
  destruct (initialize_unknown nested s1 e Hu1) as (ws & Hinit).
  set (s3 := set_track_objective [] (set_weights ws s1)).
  exists s3.
  split; [|split; [|split]].
  - unfold fit_body.
    rewrite (bind_run _ _ _ _ _ _ _ Hcheck).
    rewrite (bind_run _ _ _ _ _ _ _ Hinit).
    unfold bind at 1. unfold modify at 1. cbv beta iota.
    unfold bind at 1. unfold get at 1. cbv beta iota.
    fold s3. rewrite Ef.
    assert (Hn : exists n, Z.to_nat (max_iter s3) = S n).
    { exists (Nat.pred (Z.to_nat (max_iter s3))).
      change (max_iter s3) with (max_iter s1). rewrite Em. lia. }
    destruct Hn as (n & ->). cbn [iterate].
    apply first_pass_unset.
    + change (class_of s3) with (class_of s1).
      change (views (fit_attrs s3)) with (views (fit_attrs s1)).
      rewrite Ek, Ef. exact Hk.
    + change (scores (fit_attrs s3)) with (scores (fit_attrs s1)).
      rewrite Ef. exact Hsc.
  - change (scores (fit_attrs s3)) with (scores (fit_attrs s1)). rewrite Ef. exact Hsc.
  - discriminate.
  - reflexivity.
Qed.

(** X17: a fit configured with an [initialization] other than 'random',
    'uniform' and 'unregularized' is not rejected as such.  On a
    [PLSInnerLoop] (with a view at least) or an [_InnerLoop] that has no
    scores from an earlier fit, and with [max_iter] positive, the weights
    are drawn at random, the scores are never created, and the first
    iteration ends the fit with [AttributeError] on [scores]. *)
Theorem fit_unknown_initialization (vs : list matrix) s e :
  (class_of s = PLS /\ vs <> []) \/ class_of s = Base ->
  unknown_initialization s ->
  scores (fit_attrs s) = None ->
  (0 < max_iter s)%Z ->
  exists s' e',
    fit vs s e = (Raise (AttributeError "scores"), s', e') /\
    drawn e' = (drawn e + list_sum (map ncols vs))%nat /\
    scores (fit_attrs s') = None /\
    weights (fit_attrs s') <> None /\
    track_objective (fit_attrs s') = Some [].
Proof.
  intros Hk Hu Hsc Hmax. unfold fit. rewrite fit_at_unfold.
  set (s0 := if (2 <? length vs)%nat
             then set_generalized true (set_views vs s) else set_views vs s).
  set (e0 := if (2 <? length vs)%nat
             then env_warn "For more than 2 views require generalized=True" e else e).
  assert (E0 : class_of s0 = class_of s /\ views (fit_attrs s0) = vs /\
               initialization s0 = initialization s /\
               scores (fit_attrs s0) = scores (fit_attrs s) /\
               max_iter s0 = max_iter s /\ drawn e0 = drawn e).
  { unfold s0, e0. destruct (2 <? length vs)%nat; repeat split. }
  destruct E0 as (Ek & Ev & Ei & Es & Em & Ed).
  destruct (fit_body_unknown
              (fun vs e =>
                 returned (fit_at 1 vs (new PLS 100 1e-5 false "random") e))
              s0 e0) as (s' & Hrun & H1 & H2 & H3).
  - rewrite Ek, Ev. exact Hk.
  - unfold unknown_initialization. rewrite Ei. exact Hu.
  - rewrite Es. exact Hsc.
  - rewrite Em. exact Hmax.
  - exists s'. eexists. split; [exact Hrun|].
    split; [|split; [exact H1 | split; [exact H2 | exact H3]]].
    rewrite Ev. cbn [env_draw drawn]. rewrite Ed. reflexivity.
Qed.

Lemma fit_unknown_initialization_witness :
  ((class_of (new PLS 5 1e-5 false "randm") = PLS /\
    [[[1; 2]]; [[3; 4]]] <> []) \/
   class_of (new PLS 5 1e-5 false "randm") = Base) /\
  unknown_initialization (new PLS 5 1e-5 false "randm") /\
  scores (fit_attrs (new PLS 5 1e-5 false "randm")) = None /\
  (0 < max_iter (new PLS 5 1e-5 false "randm"))%Z /\
  exists s' e',
    fit [[[1; 2]]; [[3; 4]]] (new PLS 5 1e-5 false "randm") env0 =
      (Raise (AttributeError "scores"), s', e') /\
    drawn e' = 4%nat /\
    track_objective (fit_attrs s') = Some [].
Proof.
  assert (Hk : (class_of (new PLS 5 1e-5 false "randm") = PLS /\
                [[[1; 2]]; [[3; 4]]] <> []) \/
               class_of (new PLS 5 1e-5 false "randm") = Base).
  { left. split; [reflexivity | discriminate]. }
  assert (Hu : unknown_initialization (new PLS 5 1e-5 false "randm")).
  { repeat split; discriminate. }
  assert (Hm : (0 < max_iter (new PLS 5 1e-5 false "randm"))%Z)
    by (simpl; lia).
  split; [exact Hk|]. split; [exact Hu|]. split; [reflexivity|]. split; [exact Hm|].
  destruct (fit_unknown_initialization [[[1; 2]]; [[3; 4]]]
              (new PLS 5 1e-5 false "randm") env0 Hk Hu eq_refl Hm)
    as (s' & e' & Hrun & Hd & _ & _ & Ht).
  exists s', e'. split; [exact Hrun|]. split; [exact Hd | exact Ht].
Defined.

(** ** Validation of the hyperparameters *)

Lemma existsb_false_Forall {A} (f : A -> bool) (l : list A) :
  existsb f l = false <-> Forall (fun a => f a = false) l.
Proof.
  induction l as [|a l IH]; simpl.
  - split; [constructor | reflexivity].
  - rewrite orb_false_iff, IH. split.
    + intros [H1 H2]. constructor; assumption.
    + intros H. inversion H. auto.
Qed.

(** The state in which [fit] enters [check_params]. *)
Lemma fit_enters (vs : list matrix) s e :
  exists s0 e0,
    fit vs s e =
      fit_body (fun vs e =>
                  returned (fit_at 1 vs (new PLS 100 1e-5 false "random") e))
               s0 e0 /\
    class_of s0 = class_of s /\ views (fit_attrs s0) = vs /\ hyp s0 = hyp s /\
    scores (fit_attrs s0) = scores (fit_attrs s) /\
    weights (fit_attrs s0) = weights (fit_attrs s) /\
    track_objective (fit_attrs s0) = track_objective (fit_attrs s) /\
    drawn e0 = drawn e.
Proof.
  unfold fit. rewrite fit_at_unfold.
  do 2 eexists. split; [reflexivity|].
  destruct (2 <? length vs)%nat; repeat split.
Qed.

Lemma Parkhomenko_check_params_run s e (cs : list R) :
  c (hyp s) <> HNone ->
  _process_parameter "c" (c (hyp s)) 0.0001 (length (views (fit_attrs s))) = Ok cs ->
  ParkhomenkoInnerLoop.check_params s e =
  (if existsb (fun c => if Rle_dec c 0 then true else false) cs
   then Raise (TypeError "exceptions must derive from BaseException")
   else Ok tt, set_c cs s, e).
Proof.
  intros Hc H. unfold ParkhomenkoInnerLoop.check_params.
  unfold bind at 1. unfold get_views at 1. unfold get at 1. cbv beta iota.
  unfold bind at 1. unfold get at 1. cbv beta iota.
  destruct (c (hyp s)) as [|a|l] eqn:Eh; [contradiction| |];
    (unfold bind at 1; unfold lift at 1; rewrite H; cbv beta iota;
     unfold bind at 1; unfold modify at 1; cbv beta iota;
     destruct (existsb _ cs); reflexivity).
Qed.

(** X18: a fit of [ParkhomenkoInnerLoop] that was given budgets [c], one
    of them zero or negative, ends in [check_params], before any
    initialisation; the statement there raises a string, so the error is
    a [TypeError] and not a [ValueError].  With every given budget
    positive [check_params] passes. *)
Theorem parkhomenko_rejects_budget (vs : list matrix) s e (cs : list R) :
  class_of s = Parkhomenko ->
  c (hyp s) <> HNone ->
  _process_parameter "c" (c (hyp s)) 0.0001 (length vs) = Ok cs ->
  (forall i ci,
      nth_error cs i = Some ci -> ci <= 0 ->
      exists s' e',
        fit vs s e =
          (Raise (TypeError "exceptions must derive from BaseException"), s', e') /\
        scores (fit_attrs s') = scores (fit_attrs s) /\
        weights (fit_attrs s') = weights (fit_attrs s) /\
        track_objective (fit_attrs s') = track_objective (fit_attrs s) /\
        drawn e' = drawn e) /\
  (Forall (fun ci => 0 < ci) cs ->
   check_params (set_views vs s) e = (Ok tt, set_c cs (set_views vs s), e)).
Proof.
  intros Hk Hc Hcs. split.
  - intros i ci Hi Hci.
    destruct (fit_enters vs s e) as (s0 & e0 & Hfit & Ek & Ev & Eh & Es & Ew & Et & Ed).
    assert (Hrun : check_params s0 e0 =
                   (Raise (TypeError "exceptions must derive from BaseException"),
                    set_c cs s0, e0)).
    { unfold check_params, bind, get. rewrite Ek, Hk.
      rewrite (Parkhomenko_check_params_run s0 e0 cs);
        [|rewrite Eh; exact Hc | rewrite Eh, Ev; exact Hcs].
      rewrite (existsb_nth _ cs i ci Hi); [reflexivity|].
      destruct (Rle_dec ci 0); [reflexivity | contradiction]. }
    exists (set_c cs s0), e0. split.
    + rewrite Hfit. apply fit_body_check_raises. exact Hrun.
    + repeat split; assumption.
  - intros Hall. unfold check_params, bind, get.
    change (class_of (set_views vs s)) with (class_of s). rewrite Hk.
    rewrite (Parkhomenko_check_params_run _ e cs) by assumption.
    replace (existsb (fun c => if Rle_dec c 0 then true else false) cs) with false;
      [reflexivity|].
    symmetry. apply existsb_false_Forall.
    eapply Forall_impl; [|exact Hall].
    intros ci Hci. cbv beta. destruct (Rle_dec ci 0); [lra | reflexivity].
Qed.

Lemma parkhomenko_rejects_budget_witness :
  class_of (with_budget Parkhomenko (-1)) = Parkhomenko /\
  c (hyp (with_budget Parkhomenko (-1))) <> HNone /\
  _process_parameter "c" (c (hyp (with_budget Parkhomenko (-1)))) 0.0001
                     (length [[[1; 2]]; [[3; 4]]]) = Ok [-1; -1] /\
  nth_error [-1; -1] 0 = Some (-1) /\ -1 <= 0 /\
  exists s' e',
    fit [[[1; 2]]; [[3; 4]]] (with_budget Parkhomenko (-1)) env0 =
      (Raise (TypeError "exceptions must derive from BaseException"), s', e') /\
    drawn e' = drawn env0.
Proof.
  assert (H : -1 <= 0) by lra.
  assert (Hc : c (hyp (with_budget Parkhomenko (-1))) <> HNone)
    by discriminate.
  split; [reflexivity|]. split; [exact Hc|].
  split; [reflexivity|]. split; [reflexivity|].
  split; [exact H|].
  destruct (proj1 (parkhomenko_rejects_budget [[[1; 2]]; [[3; 4]]]
                     (with_budget Parkhomenko (-1)) env0 [-1; -1]
                     eq_refl Hc eq_refl) 0%nat (-1) eq_refl H)
    as (s' & e' & Hrun & _ & _ & _ & Hd).
  exists s', e'. split; [exact Hrun | exact Hd].
Defined.

Lemma budgets_within (cs : list R) (vs : list matrix) :
  Forall2 (fun ci view => 1 <= ci <= sqrt (INR (ncols view))) cs vs ->
  existsb (fun c => if Rlt_dec c 1 then true else false) cs = false /\
  existsb (fun p => if Rgt_dec (fst p) (snd p) then true else false)
          (combine cs (map (fun view => sqrt (INR (ncols view))) vs)) = false.
Proof.
  intros H. induction H as [|ci view cs vs Hci Hrest [IH1 IH2]]; [split; reflexivity|].
  cbn [existsb map combine fst snd]. rewrite IH1, IH2.
  destruct (Rlt_dec ci 1); [lra|].
  destruct (Rgt_dec ci (sqrt (INR (ncols view)))); [lra|]. split; reflexivity.
Qed.

Lemma PMD_check_params_run s e (cs : list R) (ps : list bool) :
  _process_parameter "c" (c (hyp s)) 1 (length (views (fit_attrs s))) = Ok cs ->
  _process_parameter "positive" (positive (hyp s)) false
                     (length (views (fit_attrs s))) = Ok ps ->
  Forall2 (fun ci view => 1 <= ci <= sqrt (INR (ncols view))) cs (views (fit_attrs s)) ->
  PMDInnerLoop.check_params s e = (Ok tt, set_positive ps (set_c cs s), e).
Proof.
  intros Hc Hp Hall. destruct (budgets_within _ _ Hall) as [E1 E2].
  unfold PMDInnerLoop.check_params.
  unfold bind at 1. unfold get_views at 1. unfold get at 1. cbv beta iota.
  unfold bind at 1. unfold get at 1. cbv beta iota.
  unfold bind at 1. unfold lift at 1. rewrite Hc. cbv beta iota.
  unfold bind at 1. unfold modify at 1. cbv beta iota.
  rewrite E1. unfold bind at 1. unfold ret at 1. cbv beta iota zeta.
  rewrite E2. unfold bind at 1. unfold ret at 1. cbv beta iota.
  unfold bind at 1. unfold get at 1. cbv beta iota.
  change (positive (hyp (set_c cs s))) with (positive (hyp s)).
  unfold bind at 1. unfold lift at 1. rewrite Hp. cbv beta iota.
  reflexivity.
Qed.

Lemma one_le_sqrt_INR (n : nat) : (1 <= n)%nat -> 1 <= sqrt (INR n).
Proof.
  intros H. rewrite <- sqrt_1 at 1. apply sqrt_le_1_alt.
  change 1 with (INR 1). apply le_INR. exact H.
Qed.

(** X19: [PMDInnerLoop.check_params] accepts the budgets that lie between 1
    and the square root of the number of features of their view, and
    leaves [c] and [positive] as lists of one entry per view.  The default
    budget, 1 for every view, is accepted for views of at least one
    feature each. *)
Theorem pmd_accepts_budget (vs : list matrix) s e :
  class_of s = PMD ->
  (forall cs ps,
      _process_parameter "c" (c (hyp s)) 1 (length vs) = Ok cs ->
      _process_parameter "positive" (positive (hyp s)) false (length vs) = Ok ps ->
      Forall2 (fun ci view => 1 <= ci <= sqrt (INR (ncols view))) cs vs ->
      check_params (set_views vs s) e =
        (Ok tt, set_positive ps (set_c cs (set_views vs s)), e)) /\
  (c (hyp s) = HNone -> positive (hyp s) = HNone ->
   Forall (fun view => (1 <= ncols view)%nat) vs ->
   check_params (set_views vs s) e =
     (Ok tt,
      set_positive (repeat false (length vs))
                   (set_c (repeat 1 (length vs)) (set_views vs s)), e)).
Proof.
  intros Hk.
  assert (Hgen : forall cs ps,
      _process_parameter "c" (c (hyp s)) 1 (length vs) = Ok cs ->
      _process_parameter "positive" (positive (hyp s)) false (length vs) = Ok ps ->
      Forall2 (fun ci view => 1 <= ci <= sqrt (INR (ncols view))) cs vs ->
      check_params (set_views vs s) e =
        (Ok tt, set_positive ps (set_c cs (set_views vs s)), e)).
  { intros cs ps Hc Hp Hall. unfold check_params, bind, get.
    change (class_of (set_views vs s)) with (class_of s). rewrite Hk.
    apply PMD_check_params_run; assumption. }
  split; [exact Hgen|].
  intros Hc Hp Hall. apply Hgen.
  - rewrite Hc. reflexivity.
  - rewrite Hp. reflexivity.
  - clear Hgen. induction Hall as [|view vs Hview Hall IH]; [constructor|].
    cbn [length repeat]. constructor; [|exact IH].
    split; [lra | apply one_le_sqrt_INR; exact Hview].
Qed.

Lemma pmd_accepts_budget_witness :
  class_of (new PMD 100 1e-5 false "random") = PMD /\
  Forall (fun view => (1 <= ncols view)%nat) [[[1; 2]]; [[3; 4]]] /\
  check_params (set_views [[[1; 2]]; [[3; 4]]] (new PMD 100 1e-5 false "random"))
               env0 =
    (Ok tt,
     set_positive [false; false]
       (set_c [1; 1]
          (set_views [[[1; 2]]; [[3; 4]]] (new PMD 100 1e-5 false "random"))),
     env0).
Proof.
  assert (Hall : Forall (fun view => (1 <= ncols view)%nat) [[[1; 2]]; [[3; 4]]]).
  { repeat constructor; simpl; lia. }
  split; [reflexivity|]. split; [exact Hall|].
  exact (proj2 (pmd_accepts_budget [[[1; 2]]; [[3; 4]]]
                  (new PMD 100 1e-5 false "random") env0 eq_refl)
               eq_refl eq_refl Hall).
Defined.

(** ** The estimators of [ElasticInnerLoop] *)

(** X20: the estimator [ElasticInnerLoop.check_params] chooses for a view.
    With [stochastic] set, as it is by default, it is an [SGDRegressor]
    whatever [positive] says: the flag is not passed on.  Without it, a
    penalty of zero gives a plain [LinearRegression] whatever the
    [l1_ratio], and a [Ridge] is only chosen without the positivity
    constraint.  Every penalty is passed divided by the number of views. *)
Theorem elastic_estimator_choice (tol : R) (n : nat) (alpha ratio : R) (p : bool) :
  ElasticInnerLoop.choose_estimator true tol n alpha ratio p =
    ElasticInnerLoop.choose_estimator true tol n alpha ratio (negb p) /\
  (exists penalty l1,
      ElasticInnerLoop.choose_estimator true tol n alpha ratio p =
        SGDRegressor penalty (alpha / INR n) l1 tol) /\
  ElasticInnerLoop.choose_estimator false tol n 0 ratio p = LinearRegression p /\
  (forall a, ElasticInnerLoop.choose_estimator false tol n alpha ratio p = Ridge a ->
             p = false /\ ratio = 0 /\ alpha <> 0 /\ a = alpha / INR n).
Proof.
  unfold ElasticInnerLoop.choose_estimator. split; [reflexivity|]. split; [|split].
  - destruct (Req_dec_T ratio 0); [eauto|]. destruct (Req_dec_T ratio 1); eauto.
  - destruct (Req_dec_T 0 0) as [_|H]; [reflexivity | contradiction].
  - intros a H.
    destruct (Req_dec_T alpha 0); [discriminate|].
    destruct (Req_dec_T ratio 0).
    + destruct p; [discriminate|]. injection H as <-. auto.
    + destruct (Req_dec_T ratio 1); discriminate.
Qed.

(** ** [ADMMInnerLoop.check_params] *)

Lemma process_parameter_length {A} (name : string) (h : hyper A) (d : A) (n : nat)
      (l : list A) :
  _process_parameter name h d n = Ok l -> length l = n.
Proof.
  unfold _process_parameter. destruct h as [|a|l0].
  - intros H. injection H as <-. apply repeat_length.
  - intros H. injection H as <-. apply repeat_length.
  - destruct (Nat.eqb_spec (length l0) n) as [E|E]; [|discriminate].
    intros H. injection H as <-. exact E.
Qed.

Lemma mapR_Forall2 {A B} (f : A -> result B) (l : list A) (l' : list B) :
  mapR f l = Ok l' -> Forall2 (fun b a => f a = Ok b) l' l.
Proof.
  revert l'. induction l as [|a l IH]; intros l' H; simpl in H.
  - injection H as <-. constructor.
  - destruct (f a) as [b| | |] eqn:Eb; try discriminate. cbn [rbind] in H.
    destruct (mapR f l) as [t| | |]; try discriminate. cbn [rbind] in H.
    injection H as <-. constructor; [exact Eb | apply IH; reflexivity].
Qed.

Lemma ADMM_check_params_ok s e s' e' :
  ADMMInnerLoop.check_params s e = (Ok tt, s', e') ->
  admm_validated (views (fit_attrs s)) (hyp s) s' /\
  fit_attrs s' = fit_attrs s /\ core s s' /\ e' = e.
Proof.
  intros H. unfold ADMMInnerLoop.check_params in H. run_inv H.
  rename a into cs, a1 into lams, a3 into mus, a5 into etas.
  change (lam (hyp (set_c cs s))) with (lam (hyp s)) in E0.
  change (mu (hyp (set_lam lams (set_c cs s)))) with (mu (hyp s)) in E1.
  change (eta (hyp (set_mu mus (set_lam lams (set_c cs s))))) with (eta (hyp s)) in E2.
  destruct (existsb (fun m => if Rle_dec m 0 then true else false) mus) eqn:Emu;
    [discriminate|].
  apply ret_ok in Hm. destruct Hm as (_ & -> & ->).
  destruct (parikh2014 e mus lams (views (fit_attrs s))); [|discriminate].
  apply ret_ok in Hm0. destruct Hm0 as (_ & -> & ->).
  split; [|split; [reflexivity | split; [unfold core; repeat split | reflexivity]]].
  assert (Hlc : length cs = length (views (fit_attrs s)))
    by (eapply process_parameter_length; eassumption).
  assert (Hll : length lams = length (views (fit_attrs s)))
    by (eapply process_parameter_length; eassumption).
  assert (Heta : exists h, eta (hyp s) = inl h /\
                           _process_parameter "eta" h 0 (length (views (fit_attrs s)))
                           = Ok etas).
  { destruct (eta (hyp s)) as [h|]; [|discriminate]. exists h. auto. }
  assert (Hle : length etas = length (views (fit_attrs s))).
  { destruct Heta as (h & _ & Hh). eapply process_parameter_length; eassumption. }
  assert (Hmu1 : mu (hyp s) = HNone ->
                 Forall2 (fun m p => rdiv (fst p) (frobenius (snd p) ^ 2) = Ok m)
                         mus (combine lams (views (fit_attrs s)))).
  { intros Hn. rewrite Hn in E1. apply mapR_Forall2 in E1. exact E1. }
  assert (Hmu2 : mu (hyp s) <> HNone ->
                 _process_parameter "mu" (mu (hyp s)) 0 (length (views (fit_attrs s)))
                 = Ok mus).
  { intros Hn. destruct (mu (hyp s)); [contradiction | exact E1 | exact E1]. }
  assert (Hlm : length mus = length (views (fit_attrs s))).
  { destruct (mu (hyp s)) as [|m|l] eqn:Ehm.
    - specialize (Hmu1 eq_refl). apply Forall2_length in Hmu1.
      rewrite Hmu1, length_combine, Hll. apply Nat.min_id.
    - eapply process_parameter_length. apply Hmu2. discriminate.
    - eapply process_parameter_length. apply Hmu2. discriminate. }
  exists cs, lams, mus, etas.
  split; [reflexivity|]. split; [reflexivity|]. split; [reflexivity|].
  split; [reflexivity|]. split; [reflexivity|]. split; [reflexivity|].
  split; [exact E|]. split; [exact E0|]. split; [exact Hmu1|]. split; [exact Hmu2|].
  split; [exact Heta|].
  split; [exact Hlc|]. split; [exact Hll|]. split; [exact Hlm|]. split; [exact Hle|].
  apply existsb_false_Forall in Emu.
  eapply Forall_impl; [|exact Emu].
  intros m Hm. cbv beta in Hm. destruct (Rle_dec m 0); [discriminate | lra].
Qed.

(** X21: when [ADMMInnerLoop.check_params] passes, every hyperparameter is
    a list of one entry per view, every [mu] is positive (a [mu] of
    exactly zero is rejected with the negative ones), [l1_ratio] is 1
    throughout, the dual variable of a view is the array of shape (N,1)
    with its [eta] in every sample and its [z] is the zero array of that
    shape; a [mu] left at [None] has become
    [lam / norm(view)^2] for each view.  Nothing else of the object is
    touched. *)
Theorem admm_check_params_sets_up s e s' e' :
  class_of s = ADMM ->
  check_params s e = (Ok tt, s', e') ->
  admm_validated (views (fit_attrs s)) (hyp s) s' /\
  fit_attrs s' = fit_attrs s /\ e' = e.
Proof.
  intros Hk H. unfold check_params, bind, get in H. rewrite Hk in H.
  destruct (ADMM_check_params_ok _ _ _ _ H) as (H1 & H2 & _ & H3). auto.
Qed.

Lemma admm_unit_checked :
  exists s1,
    check_params admm_unit env0 = (Ok tt, s1, env0) /\ lam (hyp s1) = HList [1; 1].
Proof.
  eexists. split.
  - unfold admm_unit, env0. meval. unfold ADMMInnerLoop.check_params. meval.
    destruct (Rle_dec 1 0) as [H|_]; [lra|]. cbn [orb]. meval. reflexivity.
  - reflexivity.
Qed.

Lemma admm_check_params_sets_up_witness :
  class_of admm_unit = ADMM /\
  exists s1,
    check_params admm_unit env0 = (Ok tt, s1, env0) /\
    admm_validated (views (fit_attrs admm_unit)) (hyp admm_unit) s1.
Proof.
  split; [reflexivity|].
  destruct admm_unit_checked as (s1 & Hrun & _).
  exists s1. split; [exact Hrun|].
  exact (proj1 (admm_check_params_sets_up admm_unit env0 s1 env0 eq_refl Hrun)).
Defined.

(** *** A fit of [ADMMInnerLoop] *)

Lemma ndzip_two_l (f : R -> R -> R) (m : matrix) (b r : ndarray) :
  ndzip f (Arr2 m) b = Ok r -> exists m', r = Arr2 m'.
Proof.
  destruct b as [v|m0]; cbn [ndzip];
    (destruct (mzip f _ _) as [m'| | |]; cbn [rbind]; intros H; inversion H; eauto).
Qed.

Lemma ndzip_two_r (f : R -> R -> R) (a : ndarray) (m : matrix) (r : ndarray) :
  ndzip f a (Arr2 m) = Ok r -> exists m', r = Arr2 m'.
Proof.
  destruct a as [v|m0]; cbn [ndzip];
    (destruct (mzip f _ _) as [m'| | |]; cbn [rbind]; intros H; inversion H; eauto).
Qed.

Lemma nd_tmatmul_two (X m : matrix) (r : ndarray) :
  nd_tmatmul X (Arr2 m) = Ok r -> exists g, r = Arr2 g.
Proof.
  cbn [nd_tmatmul]. destruct (nrows X =? nrows m)%nat; intros H; inversion H; eauto.
Qed.

Lemma prox_mu_f_call_two (m : matrix) (mu : R) (c : vec) (tau : R) (u : vec) :
  ADMMInnerLoop.prox_mu_f_call (Arr2 m) mu c tau <> Ok u.
Proof.
  cbn [ADMMInnerLoop.prox_mu_f_call].
  destruct (ndzip Rplus (Arr2 m) (Arr1 (vscale mu c))); discriminate.
Qed.

Lemma get_eta_ok s e (l : list ndarray) s' e' :
  get_eta s e = (Ok l, s', e') -> eta (hyp s) = inr l /\ s' = s /\ e' = e.
Proof.
  unfold get_eta. destruct (eta (hyp s)) as [h|l0]; intros H; inversion H; auto.
Qed.

(** Take the first step off a successful run. *)
Ltac first_step H :=
  let x := fresh "x" in let s1 := fresh "s" in let e1 := fresh "e" in
  let H1 := fresh "Hstep" in
  apply bind_ok in H; destruct H as (x & s1 & e1 & H1 & H);
  first [apply get_eta_ok in H1; destruct H1 as (H1 & -> & ->) | run_inv H1].

(** A round that finds [z[i]] an array of two dimensions does not get
    past [prox_mu_f]. *)
Lemma update_round_two (i : nat) (mu lam : R) (N : nat) (g : vec) (tr : admm_trace)
      s e (zs : list ndarray) (m : matrix) :
  z (solver s) = Some zs -> index zs i = Ok (Arr2 m) ->
  forall tr' s' e', ADMMInnerLoop.update_round i mu lam N g tr s e <> (Ok tr', s', e').
Proof.
  intros Hz Hzi tr' s' e' H. unfold ADMMInnerLoop.update_round in H.
  do 13 first_step H.
  rewrite Hz in E3. injection E3 as <-. rewrite Hzi in E4. injection E4 as <-.
  apply ndzip_two_r in E5. destruct E5 as (m1 & ->).
  apply ndzip_two_l in E7. destruct E7 as (m2 & ->).
  apply nd_tmatmul_two in E8. destruct E8 as (m3 & ->).
  cbn [ndmap] in E9. apply ndzip_two_r in E9. destruct E9 as (m4 & ->).
  exact (prox_mu_f_call_two _ _ _ _ _ E11).
Qed.

Lemma ADMM_update_view_two (i : nat) s e (zs : list ndarray) (m : matrix) :
  z (solver s) = Some zs -> index zs i = Ok (Arr2 m) -> (0 < max_iter s)%Z ->
  forall s' e', ADMMInnerLoop.update_view i s e <> (Ok tt, s', e').
Proof.
  intros Hz Hzi Hmax s' e' H. unfold ADMMInnerLoop.update_view in H.
  apply bind_ok in H. destruct H as (tr & s1 & e1 & Hloop & _).
  unfold ADMMInnerLoop.update_view_loop in Hloop.
  do 8 first_step Hloop.
  destruct (Z.to_nat (max_iter s)) as [|n] eqn:En; [lia|].
  cbn [ADMMInnerLoop.update_rounds] in Hloop.
  apply bind_ok in Hloop. destruct Hloop as (tr1 & s2 & e2 & Hround & _).
  exact (update_round_two _ _ _ _ _ _ _ _ zs m Hz Hzi _ _ _ Hround).
Qed.

Lemma inner_iteration_two s e (zs : list ndarray) (m : matrix) :
  class_of s = ADMM -> views (fit_attrs s) <> [] ->
  z (solver s) = Some zs -> index zs 0 = Ok (Arr2 m) -> (0 < max_iter s)%Z ->
  forall s' e', inner_iteration s e <> (Ok tt, s', e').
Proof.
  intros Hk Hv Hz Hzi Hmax s' e' H.
  unfold inner_iteration, bind at 1, get at 1 in H. rewrite Hk in H.
  apply bind_ok in H. destruct H as (vs & s1 & e1 & Hget & H). run_inv Hget.
  destruct (views (fit_attrs s)) as [|X vs]; [contradiction|].
  cbn [length seq for_each] in H.
  apply bind_ok in H. destruct H as ([] & s1 & e1 & Hup & _).
  unfold update_view, bind at 1, get at 1 in Hup. rewrite Hk in Hup.
  exact (ADMM_update_view_two 0 s e zs m Hz Hzi Hmax _ _ Hup).
Qed.

Lemma mapM_rand_state (f : matrix -> nat) (vs : list matrix) s e rows s' e' :
  mapM (fun view => rand (f view)) vs s e = (Ok rows, s', e') -> s' = s.
Proof.
  destruct (mapM_rand f vs s e) as (rows0 & Hrun & _). rewrite Hrun.
  intros H. injection H as _ <- _. reflexivity.
Qed.

(** [initialize] assigns to the scores and the weights only. *)
Lemma initialize_solver nested s e s' e' :
  BaseInnerLoop.initialize nested s e = (Ok tt, s', e') ->
  solver s' = solver s /\ hyp s' = hyp s.
Proof.
  intros H. unfold BaseInnerLoop.initialize in H.
  do 2 first_step H.
  apply bind_ok in H. destruct H as (u1 & s1 & e1 & H1 & H).
  assert (E1 : solver s1 = solver s /\ hyp s1 = hyp s).
  { destruct (String.eqb (initialization s) "random"); run_inv H1; [|auto].
    apply mapM_rand_state in Hm. subst. auto. }
  apply bind_ok in H. destruct H as (u2 & s2 & e2 & H2 & H).
  assert (E2 : solver s2 = solver s1 /\ hyp s2 = hyp s1).
  { destruct (String.eqb (initialization s) "uniform"); [run_inv H2; auto|].
    destruct (String.eqb (initialization s) "unregularized"); run_inv H2; [|auto].
    destruct (nested (views (fit_attrs s)) e1) as [r en]. injection Hm as _ <- _. auto. }
  run_inv H. apply mapM_rand_state in Hm. subst. cbn.
  destruct E1 as [<- <-], E2 as [<- <-]. auto.
Qed.

Lemma fit_body_two nested s e :
  class_of s = ADMM -> views (fit_attrs s) <> [] -> (0 < max_iter s)%Z ->
  forall s' e', fit_body nested s e <> (Ok tt, s', e').
Proof.
  intros Hk Hv Hmax s' e' H. unfold fit_body in H.
  apply bind_ok in H. destruct H as (u1 & s1 & e1 & Hcheck & H).
  unfold check_params, bind at 1, get at 1 in Hcheck. rewrite Hk in Hcheck.
  destruct u1.
  destruct (ADMM_check_params_ok _ _ _ _ Hcheck) as (Hval & Hfit & Hc1 & _).
  destruct Hval as (cs & lams & mus & etas & _ & _ & _ & _ & _ & Hz & _).
  apply bind_ok in H. destruct H as (u2 & s2 & e2 & Hinit & H). destruct u2.
  destruct (initialize_solver _ _ _ _ _ Hinit) as (Hsol & _).
  assert (Hc2 : core s1 s2).
  { pose proof (keeps_initialize (fun _ _ => True) (fun _ => I) (fun _ _ _ _ _ => I)
                  (fun _ _ => I) nested s1 e1 (fun _ => I)) as [Hc _].
    rewrite Hinit in Hc. exact Hc. }
  pose proof (core_trans _ _ _ Hc1 Hc2) as (Ek & _ & Em & _ & _ & _ & _ & Ev).
  do 2 first_step H.
  destruct (views (fit_attrs s)) as [|X vs] eqn:Evs; [contradiction|].
  destruct (Z.to_nat (max_iter (set_track_objective [] s2))) as [|n] eqn:En.
  { change (max_iter (set_track_objective [] s2)) with (max_iter s2) in En. lia. }
  cbn [iterate] in H.
  apply bind_ok in H. destruct H as (u3 & s3 & e3 & Hpass & _). destruct u3.
  refine (inner_iteration_two (set_track_objective [] s2) e2 _
            (column (zeros (nrows X))) _ _ _ _ _ _ _ Hpass).
  - change (class_of (set_track_objective [] s2)) with (class_of s2). congruence.
  - change (views (fit_attrs (set_track_objective [] s2))) with (views (fit_attrs s2)).
    rewrite Ev. discriminate.
  - change (solver (set_track_objective [] s2)) with (solver s2).
    rewrite Hsol. exact Hz.
  - reflexivity.
  - change (max_iter (set_track_objective [] s2)) with (max_iter s2). lia.
Qed.

(** X22: a fit of [ADMMInnerLoop] does not return.  With one view or more
    and [max_iter] at least 1, whatever the data, the hyperparameters and
    the initialisation: [check_params] makes [z] and [eta] arrays of
    shape (N,1), the first round of the first update then works on an
    array of two dimensions, and [prox_mu_f] cannot index its gradient
    with it.  The call ends in an exception. *)
Theorem admm_fit_never_returns (vs : list matrix) s e :
  class_of s = ADMM -> vs <> [] -> (0 < max_iter s)%Z ->
  forall s' e', fit vs s e <> (Ok tt, s', e').
Proof.
  intros Hk Hv Hmax s' e'. unfold fit. rewrite fit_at_unfold.
  apply fit_body_two.
  - destruct (2 <? length vs)%nat; exact Hk.
  - rewrite views_set. exact Hv.
  - destruct (2 <? length vs)%nat; exact Hmax.
Qed.

Lemma admm_fit_never_returns_witness :
  class_of (new ADMM 3 1e-5 false "random") = ADMM /\
  [[[1]]; [[1]]] <> @nil matrix /\
  (0 < max_iter (new ADMM 3 1e-5 false "random"))%Z /\
  forall s' e',
    fit [[[1]]; [[1]]] (new ADMM 3 1e-5 false "random") env0 <> (Ok tt, s', e').
Proof.
  assert (Hv : [[[1]]; [[1]]] <> @nil matrix) by discriminate.
  assert (Hmax : (0 < max_iter (new ADMM 3 1e-5 false "random"))%Z)
    by (simpl; lia).
  split; [reflexivity|]. split; [exact Hv|]. split; [exact Hmax|].
  exact (admm_fit_never_returns [[[1]]; [[1]]] (new ADMM 3 1e-5 false "random")
           env0 eq_refl Hv Hmax).
Defined.

(** ** The constrained solver of [ElasticInnerLoop] *)






(** ** Termination of [fit] *)

Lemma finite_rbind {A B} (r : result A) (k : A -> result B) :
  finite r -> (forall a, finite (k a)) -> finite (rbind r k).
Proof.
  unfold finite. intros Hr Hk. destruct r as [a| | |]; simpl;
    [apply Hk | discriminate | discriminate | contradiction].
Qed.

Lemma finite_index {A} (l : list A) (i : nat) : finite (index l i).
Proof. unfold finite, index. destruct (nth_error l i); discriminate. Qed.

Lemma finite_assign {A} (l : list A) (i : nat) (v : A) : finite (assign l i v).
Proof.
  revert i. induction l as [|h t IH]; intros i; simpl; [discriminate|].
  destruct i as [|i]; [discriminate|].
  apply finite_rbind; [apply IH | discriminate].
Qed.

Lemma finite_vdiv (v : vec) (d : R) : finite (vdiv v d).
Proof.
  unfold finite, vdiv. destruct v; [discriminate|].
  destruct (Req_dec_T d 0); discriminate.
Qed.

Lemma finite_rdiv (x d : R) : finite (rdiv x d).
Proof. unfold finite, rdiv. destruct (Req_dec_T d 0); discriminate. Qed.

Lemma finite_mapR {A B} (f : A -> result B) (l : list A) :
  (forall a, finite (f a)) -> finite (mapR f l).
Proof.
  intros H. induction l as [|a l IH]; simpl; [discriminate|].
  apply finite_rbind; [apply H|]. intros b.
  apply finite_rbind; [exact IH | discriminate].
Qed.

Lemma finite_process {A} (name : string) (h : hyper A) (d : A) (n : nat) :
  finite (_process_parameter name h d n).
Proof.
  unfold finite, _process_parameter. destruct h; try discriminate.
  destruct (Nat.eqb _ n); discriminate.
Qed.

Lemma finite_hyper_index {A} (h : hyper A) (i : nat) : finite (hyper_index h i).
Proof. destruct h; simpl; try discriminate. apply finite_index. Qed.

Lemma finite_hyper_list {A} (h : hyper A) : finite (hyper_list h).
Proof. destruct h; discriminate. Qed.

Lemma finite_check (w : vec) (i : nat) : finite (_check_converged_weights w i).
Proof.
  unfold finite, _check_converged_weights.
  destruct (Req_dec_T (norm2 w) 0); discriminate.
Qed.

Lemma finite_masked_sum (sc : list vec) (i : nat) : finite (masked_sum sc i).
Proof.
  unfold masked_sum. apply finite_rbind; [apply finite_index|].
  intros row. destruct (remove_nth i sc); discriminate.
Qed.

Lemma finite_mean_rows (sc : list vec) : finite (mean_rows sc).
Proof. destruct sc; discriminate. Qed.

Lemma finite_py_index {A} (l : list A) (z : Z) : finite (py_index l z).
Proof.
  unfold py_index. destruct (z <? 0)%Z; [|apply finite_index].
  destruct (_ <? 0)%Z; [discriminate | apply finite_index].
Qed.

Lemma finite_normalize_rows (a : list vec) : finite (normalize_rows a).
Proof.
  unfold normalize_rows. destruct a; [discriminate|].
  apply finite_mapR. intros row. apply finite_vdiv.
Qed.

Lemma finite_bin_search cur prev cv pv lo hi :
  finite (_bin_search cur prev cv pv lo hi).
Proof.
  destruct (bin_search_total cur prev cv pv lo hi) as (n & lo' & hi' & ->).
  discriminate.
Qed.

Lemma finite_delta_search (w : vec) (c : R) (p : bool) (init : R) :
  finite (_delta_search w c p init).
Proof.
  unfold _delta_search, delta_search_run.
  destruct (vdiv w (norm2 w)) as [v| | |] eqn:Ev; cbn [rbind]; try discriminate.
  - destruct (delta_loop_returns 50 v c p (delta_init init)) as (coef & i & cur & -> & _).
    + cbn. lia.
    + cbn. lia.
    + discriminate.
  - exfalso. exact (finite_vdiv w (norm2 w) Ev).
Qed.

Lemma finite_all_similar (t : R) (sc old : list vec) (ns : list nat) :
  finite (PLSInnerLoop.all_similar t sc old ns).
Proof.
  induction ns as [|n ns IH]; simpl; [discriminate|].
  apply finite_rbind; [apply finite_index|]. intros a.
  apply finite_rbind; [apply finite_index|]. intros b.
  apply finite_rbind; [apply finite_rdiv|]. intros cs.
  destruct (Rgt_dec cs (1 - t)); [exact IH | discriminate].
Qed.

Lemma finite_mzip (f : R -> R -> R) (a b : matrix) : finite (mzip f a b).
Proof.
  unfold mzip.
  destruct (broadcast_dim (nrows a) (nrows b));
    [destruct (broadcast_dim (ncols a) (ncols b))|]; discriminate.
Qed.

Lemma finite_ndzip (f : R -> R -> R) (a b : ndarray) : finite (ndzip f a b).
Proof.
  destruct a as [u|m], b as [v|m']; cbn [ndzip];
    try (apply finite_rbind; [apply finite_mzip | intros; discriminate]).
  destruct (broadcast_dim (length u) (length v)); discriminate.
Qed.

Lemma finite_nd_tmatmul (X : matrix) (a : ndarray) : finite (nd_tmatmul X a).
Proof.
  destruct a as [v|m]; cbn [nd_tmatmul]; [discriminate|].
  destruct (nrows X =? nrows m)%nat; discriminate.
Qed.

Lemma finite_prox_mu_f_call (x : ndarray) (mu : R) (c : vec) (tau : R) :
  finite (ADMMInnerLoop.prox_mu_f_call x mu c tau).
Proof.
  destruct x as [v|m]; cbn [ADMMInnerLoop.prox_mu_f_call]; [discriminate|].
  apply finite_rbind; [apply finite_ndzip | intros; discriminate].
Qed.

Lemma finishes_ret {A} (a : A) : finishes (ret a).
Proof. intros s e. discriminate. Qed.

Lemma finishes_lift {A} (r : result A) : finite r -> finishes (lift r).
Proof. intros H s e. exact H. Qed.

Lemma finishes_get {A} (f : loop -> A) : finishes (get f).
Proof. intros s e. discriminate. Qed.

Lemma finishes_ask {A} (f : env -> A) : finishes (ask f).
Proof. intros s e. discriminate. Qed.

Lemma finishes_attr {A} (name : string) (f : loop -> option A) : finishes (attr name f).
Proof. intros s e. unfold attr. destruct (f s); discriminate. Qed.

Lemma finishes_get_eta : finishes get_eta.
Proof. intros s e. unfold get_eta. destruct (eta (hyp s)); discriminate. Qed.

Lemma finishes_modify (f : loop -> loop) : finishes (modify f).
Proof. intros s e. discriminate. Qed.

Lemma finishes_rand (n : nat) : finishes (rand n).
Proof. intros s e. discriminate. Qed.

Lemma finishes_print (l : string) : finishes (print l).
Proof. intros s e. discriminate. Qed.

Lemma finishes_warn (l : string) : finishes (warn l).
Proof. intros s e. discriminate. Qed.

Lemma finishes_bind {A B} (m : M A) (k : A -> M B) :
  finishes m -> (forall a, finishes (k a)) -> finishes (bind m k).
Proof.
  intros Hm Hk s e. unfold bind. specialize (Hm s e).
  destruct (m s e) as [[[a| | |] s1] e1]; simpl in *;
    [apply Hk | discriminate | discriminate | exfalso; apply Hm; reflexivity].
Qed.

Lemma finishes_for_each {A} (l : list A) (body : A -> M unit) :
  (forall a, finishes (body a)) -> finishes (for_each l body).
Proof.
  intros H. induction l as [|a l IH]; simpl; [apply finishes_ret|].
  apply finishes_bind; auto.
Qed.

Lemma finishes_mapM {A B} (f : A -> M B) (l : list A) :
  (forall a, finishes (f a)) -> finishes (mapM f l).
Proof.
  intros H. induction l as [|a l IH]; simpl; [apply finishes_ret|].
  apply finishes_bind; [auto|]. intros b. apply finishes_bind; [auto|].
  intros t. apply finishes_ret.
Qed.

(** One step of the structural argument. *)
Ltac finite_step :=
  lazymatch goal with
  | |- finite (rbind _ _) => apply finite_rbind; [|intros]
  | |- finite (index _ _) => apply finite_index
  | |- finite (assign _ _ _) => apply finite_assign
  | |- finite (vdiv _ _) => apply finite_vdiv
  | |- finite (rdiv _ _) => apply finite_rdiv
  | |- finite (mapR _ _) => apply finite_mapR; intros
  | |- finite (_process_parameter _ _ _ _) => apply finite_process
  | |- finite (hyper_index _ _) => apply finite_hyper_index
  | |- finite (hyper_list _) => apply finite_hyper_list
  | |- finite (_check_converged_weights _ _) => apply finite_check
  | |- finite (masked_sum _ _) => apply finite_masked_sum
  | |- finite (mean_rows _) => apply finite_mean_rows
  | |- finite (py_index _ _) => apply finite_py_index
  | |- finite (normalize_rows _) => apply finite_normalize_rows
  | |- finite (_bin_search _ _ _ _ _ _) => apply finite_bin_search
  | |- finite (_delta_search _ _ _ _) => apply finite_delta_search
  | |- finite (PLSInnerLoop.all_similar _ _ _ _) => apply finite_all_similar
  | |- finite (ndzip _ _ _) => apply finite_ndzip
  | |- finite (nd_tmatmul _ _) => apply finite_nd_tmatmul
  | |- finite (ADMMInnerLoop.prox_mu_f_call _ _ _ _) => apply finite_prox_mu_f_call
  | |- finite (ElasticInnerLoop.target_of _ _ _) => unfold ElasticInnerLoop.target_of
  | |- finite (Ok _) => discriminate
  | |- finite (Raise _) => discriminate
  | |- finite NonFinite => discriminate
  | |- finite (if ?b then _ else _) => destruct b
  | |- finite (match ?x with _ => _ end) => destruct x
  end.

Ltac finishes_step :=
  lazymatch goal with
  | |- finishes (bind _ _) => apply finishes_bind; [|intros]
  | |- finishes (ret _) => apply finishes_ret
  | |- finishes (lift _) => apply finishes_lift; repeat finite_step
  | |- finishes (get _) => apply finishes_get
  | |- finishes (ask _) => apply finishes_ask
  | |- finishes (attr _ _) => apply finishes_attr
  | |- finishes get_eta => apply finishes_get_eta
  | |- finishes (rand _) => apply finishes_rand
  | |- finishes (print _) => apply finishes_print
  | |- finishes (warn _) => apply finishes_warn
  | |- finishes (modify _) => apply finishes_modify
  | |- finishes (for_each _ _) => apply finishes_for_each; intros
  | |- finishes (mapM _ _) => apply finishes_mapM; intros
  | |- finishes (if Nat.eqb ?a ?b then _ else _) => destruct (Nat.eqb_spec a b)
  | |- finishes (if ?b then _ else _) => destruct b
  | |- finishes (match ?x with _ => _ end) => destruct x
  | |- finishes (let '(_, _) := ?x in _) => destruct x
  | |- finishes get_views => unfold get_views
  | |- finishes get_scores => unfold get_scores
  | |- finishes get_weights => unfold get_weights
  | |- finishes get_z => unfold get_z
  | |- finishes get_regressors => unfold get_regressors
  | |- finishes get_gamma => unfold get_gamma
  | |- finishes (put_weight _ _) => unfold put_weight
  | |- finishes (put_score _ _) => unfold put_score
  | |- finishes (put_z _ _) => unfold put_z
  | |- finishes (put_eta _ _) => unfold put_eta
  | |- finishes (view_at _) => unfold view_at
  | |- finishes (weight_at _) => unfold weight_at
  | |- finishes (c_at _) => unfold c_at
  | |- finishes (regressor_fit _ _ _) => unfold regressor_fit
  end.

Ltac finishes_tac := repeat finishes_step.

Lemma finishes_check_params : finishes check_params.
Proof.
  unfold check_params. finishes_tac.
  - unfold BaseInnerLoop.check_params. finishes_tac.
  - unfold PLSInnerLoop.check_params. finishes_tac.
  - unfold PMDInnerLoop.check_params. finishes_tac.
  - unfold ParkhomenkoInnerLoop.check_params. finishes_tac.
  - unfold ElasticInnerLoop.check_params. finishes_tac.
  - unfold ADMMInnerLoop.check_params. finishes_tac.
Qed.
Lemma finishes_constrained_loop (X : matrix) (y : vec) (i : nat) (fuel : nat) :
  forall st,
    (gl_i st < 50)%nat -> (50 - gl_i st <= fuel)%nat ->
    finishes (ElasticInnerLoop.constrained_loop fuel X y i st).
Proof.
  induction fuel as [|fuel IH]; intros st Hlt Hfuel; [lia|].
  cbn [ElasticInnerLoop.constrained_loop]. finishes_tac.
  apply IH; cbn [gl_i]; lia.
Qed.

Lemma finishes_update_rounds n i mu lam N g tr :
  finishes (ADMMInnerLoop.update_rounds n i mu lam N g tr).
Proof.
  revert tr. induction n as [|n IH]; intros tr; simpl; finishes_tac; [|apply IH].
  unfold ADMMInnerLoop.update_round. finishes_tac.
Qed.

Lemma finishes_update_view i : finishes (update_view i).
Proof.
  unfold update_view. finishes_tac.
  - unfold PLSInnerLoop.update_view. finishes_tac.
  - unfold PMDInnerLoop.update_view. finishes_tac.
  - unfold ParkhomenkoInnerLoop.update_view. finishes_tac.
  - unfold ElasticInnerLoop.update_view. finishes_tac.
    + unfold ElasticInnerLoop.elastic_solver_constrained. finishes_tac.
      apply finishes_constrained_loop; cbn [gl_i]; lia.
    + unfold ElasticInnerLoop.elastic_solver. finishes_tac.
  - unfold ADMMInnerLoop.update_view, ADMMInnerLoop.update_view_loop. finishes_tac.
    apply finishes_update_rounds.
Qed.

Lemma finishes_inner_iteration : finishes inner_iteration.
Proof.
  unfold inner_iteration. finishes_tac;
    try (unfold BaseInnerLoop.inner_iteration; finishes_tac);
    apply finishes_update_view.
Qed.

Lemma finite_fold_left {A B} (f : result B -> A -> result B) (l : list A) :
  (forall acc a, finite acc -> finite (f acc a)) ->
  forall acc, finite acc -> finite (fold_left f l acc).
Proof.
  intros H. induction l as [|a l IH]; intros acc Hacc; simpl; [exact Hacc|].
  apply IH. apply H. exact Hacc.
Qed.

Lemma finishes_elastic_objective : finishes elastic_cca_objective.
Proof.
  unfold elastic_cca_objective. finishes_tac.
  apply finite_fold_left; [|discriminate].
  intros acc k Hacc. repeat finite_step. exact Hacc.
Qed.

Lemma finishes_objective : finishes objective.
Proof.
  unfold objective. finishes_tac;
    try (unfold BaseInnerLoop.objective; finishes_tac);
    apply finishes_elastic_objective.
Qed.

Lemma finishes_early_stop : finishes early_stop.
Proof.
  unfold early_stop. finishes_tac;
    try (unfold BaseInnerLoop.early_stop; finishes_tac);
    unfold PLSInnerLoop.early_stop; finishes_tac.
Qed.

Lemma finishes_iterate n k : finishes (iterate n k).
Proof.
  revert k. induction n as [|n IH]; intros k; simpl; finishes_tac;
    try apply finishes_inner_iteration; try apply finishes_objective;
    try apply finishes_early_stop; try apply IH.
Qed.

Lemma finishes_bind_at {A B} (m : M A) (k : A -> M B) s e :
  finite (fst (fst (m s e))) ->
  (forall a s1 e1, m s e = (Ok a, s1, e1) -> finite (fst (fst (k a s1 e1)))) ->
  finite (fst (fst (bind m k s e))).
Proof.
  intros Hm Hk. unfold bind.
  destruct (m s e) as [[[a| | |] s1] e1]; cbn [fst] in *;
    [apply Hk; reflexivity | discriminate | discriminate
    | exfalso; apply Hm; reflexivity].
Qed.

Lemma finishes_nested (nested : list matrix -> env -> result loop * env)
      (vs : list matrix) :
  (forall e, finite (fst (nested vs e))) ->
  finishes (fun s e => let (r, e') := nested vs e in (r, s, e')).
Proof.
  intros H s e. specialize (H e). destruct (nested vs e) as [r e']. exact H.
Qed.

(** [initialize] runs the nested fit for 'unregularized' only. *)
Lemma finishes_initialize (nested : list matrix -> env -> result loop * env) s e :
  (initialization s = "unregularized"%string ->
   forall vs e, finite (fst (nested vs e))) ->
  finite (fst (fst (BaseInnerLoop.initialize nested s e))).
Proof.
  intros Hn. unfold BaseInnerLoop.initialize.
  unfold bind at 1. unfold get at 1. cbv beta iota.
  unfold bind at 1. unfold get_views at 1. unfold get at 1. cbv beta iota.
  match goal with
  | |- finite (fst (fst (?m s e))) => cut (finishes m); [intros H; exact (H s e)|]
  end.
  destruct (String.eqb_spec (initialization s) "unregularized") as [E|E].
  - specialize (Hn E). finishes_tac.
    apply finishes_nested. intros e0. apply Hn.
  - finishes_tac.
Qed.

Lemma finishes_fit_body (nested : list matrix -> env -> result loop * env) s e :
  (initialization s = "unregularized"%string ->
   forall vs e, finite (fst (nested vs e))) ->
  finite (fst (fst (fit_body nested s e))).
Proof.
  intros Hn. unfold fit_body.
  apply finishes_bind_at; [apply finishes_check_params|].
  intros u s1 e1 H1.
  assert (Hi : initialization s1 = initialization s).
  { pose proof (keeps_check_params more_warnings more_warnings_refl
                  more_warnings_trans s e) as [Hc _].
    rewrite H1 in Hc. apply Hc. }
  apply finishes_bind_at.
  - apply finishes_initialize. rewrite Hi. exact Hn.
  - intros u2 s2 e2 _.
    match goal with
    | |- finite (fst (fst (?m s2 e2))) => cut (finishes m); [intros H; exact (H s2 e2)|]
    end.
    finishes_tac. apply finishes_iterate.
Qed.

Lemma finite_returned (run : result unit * loop * env) :
  finite (fst (fst run)) -> finite (fst (returned run)).
Proof.
  destruct run as [[[u| | |] s] e]; cbn; unfold finite; intros H;
    try discriminate. contradiction.
Qed.

Lemma finishes_fit_at_1 (vs : list matrix) s e :
  initialization s <> "unregularized"%string ->
  finite (fst (fst (fit_at 1 vs s e))).
Proof.
  intros Hi. rewrite fit_at_unfold. apply finishes_fit_body.
  intros E. exfalso. apply Hi. rewrite <- E.
  destruct (2 <? length vs)%nat; reflexivity.
Qed.

(** X24: every call of [fit] comes to an end.  The loops over the
    iterations and the views are bounded by their ranges; the two searches
    ([_delta_search] and the constrained solver) set [converged] in their
    fiftieth round at the latest; and the fit that [initialize] runs for
    'unregularized' is initialised at random and runs no fit of its own. *)
Theorem fit_terminates (vs : list matrix) s e :
  fst (fst (fit vs s e)) <> OutOfFuel /\
  (forall w c positive init, _delta_search w c positive init <> OutOfFuel) /\
  (forall e1, fst (unregularized_fit vs e1) <> OutOfFuel).
Proof.
  assert (Hnested : forall vs e1, finite (fst (unregularized_fit vs e1))).
  { intros vs1 e1. unfold unregularized_fit. apply finite_returned.
    apply finishes_fit_at_1. discriminate. }
  split; [|split].
  - unfold fit. rewrite fit_at_unfold. apply finishes_fit_body.
    intros _. exact Hnested.
  - intros w c p init. apply finite_delta_search.
  - intros e1. apply Hnested.
Qed.

(** ** The update of [PLSInnerLoop] on two views *)

Lemma vadd_zeros_r (v : vec) (n : nat) : length v = n -> vadd v (zeros n) = v.
Proof.
  intros <-. induction v as [|x v IH]; [reflexivity|].
  unfold zeros in *. cbn [length repeat].
  change (vadd (x :: v) (0 :: repeat 0 (length v)))
    with ((x + 0) :: vadd v (repeat 0 (length v))).
  rewrite IH. f_equal. lra.
Qed.

Lemma masked_sum_pair (a b : vec) (i : nat) (target : vec) :
  length a = length b ->
  masked_sum [a; b] i = Ok target ->
  (i = 0%nat /\ target = b) \/ (i = 1%nat /\ target = a).
Proof.
  intros Hlen H. destruct i as [|[|i]].
  - left. split; [reflexivity|]. cbn in H. injection H as <-.
    apply vadd_zeros_r. symmetry. exact Hlen.
  - right. split; [reflexivity|]. cbn in H. injection H as <-.
    apply vadd_zeros_r. exact Hlen.
  - cbn in H. destruct i; discriminate.
Qed.

(** X25: with two views the update of [PLSInnerLoop] is a step of the power
    method: the weights of the view become [view.T @ scores] of the other
    view, divided by their norm, and its scores the view times these
    weights; the other view keeps its weights and scores. *)
Theorem pls_update_two_views (i : nat) s e s' e' (a b : vec) :
  scores (fit_attrs s) = Some [a; b] ->
  length a = length b ->
  PLSInnerLoop.update_view i s e = (Ok tt, s', e') ->
  exists X w,
    index (views (fit_attrs s)) i = Ok X /\
    (i = 0%nat \/ i = 1%nat) /\
    vdiv (tmatvec X (if (i =? 0)%nat then b else a))
         (norm2 (tmatvec X (if (i =? 0)%nat then b else a))) = Ok w /\
    updated i w s s' /\ e' = e.
Proof.
  intros Hsc Hlen H.
  destruct (PLS_update_view_ok _ _ _ _ _ H) as (sc & X & target & w & Hsc' & HX & Ht & Hw & Hup & He).
  rewrite Hsc in Hsc'. injection Hsc' as <-.
  exists X, w. split; [exact HX|].
  destruct (masked_sum_pair a b i target Hlen Ht) as [[-> ->] | [-> ->]].
  - split; [left; reflexivity|]. cbn [Nat.eqb]. auto.
  - split; [right; reflexivity|]. cbn [Nat.eqb]. auto.
Qed.

Lemma pair_example_pls :
  exists s', PLSInnerLoop.update_view 0 (pair_example PLS) env0 = (Ok tt, s', env0).
Proof.
  unfold pair_example, env0. unfold PLSInnerLoop.update_view. meval.
  rewrite vadd_zeros_singleton, tmatvec_singleton. rewrite vdiv_singleton by lra.
  meval. eexists. reflexivity.
Qed.

Lemma pls_update_two_views_witness :
  scores (fit_attrs (pair_example PLS)) = Some [[1]; [1]] /\
  length [1] = length [1] /\
  exists s' X w,
    PLSInnerLoop.update_view 0 (pair_example PLS) env0 = (Ok tt, s', env0) /\
    index (views (fit_attrs (pair_example PLS))) 0 = Ok X /\
    vdiv (tmatvec X [1]) (norm2 (tmatvec X [1])) = Ok w /\
    updated 0 w (pair_example PLS) s'.
Proof.
  split; [reflexivity|]. split; [reflexivity|].
  destruct pair_example_pls as (s' & Hrun).
  destruct (pls_update_two_views 0 (pair_example PLS) env0 s' env0 [1] [1]
              eq_refl eq_refl Hrun) as (X & w & HX & _ & Hw & Hup & _).
  exists s', X, w. split; [exact Hrun|]. split; [exact HX|].
  split; [exact Hw | exact Hup].
Defined.

(** ** The update of [PMDInnerLoop] under a slack budget *)

Lemma delta_search_slack_value (raw : vec) (c : R) :
  norm1 raw < c * norm2 raw ->
  (forall p, _delta_search raw c p 0 = Ok (map (fun x => x / norm2 raw) raw)) /\
  norm2 raw <> 0.
Proof.
  intros Hslack.
  assert (Hn : norm2 raw <> 0).
  { intros E. rewrite E, Rmult_0_r in Hslack.
    pose proof (norm1_nonneg raw). lra. }
  split; [|exact Hn]. intros p.
  unfold _delta_search. rewrite (delta_search_slack raw c p Hn Hslack). reflexivity.
Qed.

(** X26: when the budget of a view is more than the L1 norm of the
    normalised raw weights, the search of [_delta_search] has nothing to
    do, and the update of [PMDInnerLoop] that completes is the update of
    [PLSInnerLoop]: the same weights, the same scores, the same object. *)
Theorem pmd_slack_is_pls (i : nat) s e s' e' (sc : list vec) (X : matrix)
        (target : vec) (ci : R) :
  scores (fit_attrs s) = Some sc ->
  index (views (fit_attrs s)) i = Ok X ->
  masked_sum sc i = Ok target ->
  hyper_index (c (hyp s)) i = Ok ci ->
  norm1 (tmatvec X target) < ci * norm2 (tmatvec X target) ->
  PMDInnerLoop.update_view i s e = (Ok tt, s', e') ->
  PLSInnerLoop.update_view i s e = (Ok tt, s', e').
Proof.
  intros Hsc HX Ht Hci Hslack H.
  destruct (delta_search_slack_value _ _ Hslack) as [Hd Hn].
  unfold PMDInnerLoop.update_view in H. run_inv H. simpl in *. unify_eqs.
  rewrite Hd in E8. injection E8 as <-.
  unfold PLSInnerLoop.update_view. destruct_loop s. simpl in *. subst.
  mred. rewrite Ht, HX. mred. rewrite E3. mred.
  rewrite (proj1 (assign_index _ _ _ _ E3)). mred.
  rewrite (vdiv_ok _ _ Hn). mred.
  rewrite (assign_assign _ _ _ _ _ E3), E10. mred.
  rewrite HX. mred. rewrite (proj1 (assign_index _ _ _ _ E10)). mred.
  rewrite E18. reflexivity.
Qed.
Lemma pair_example_slack :
  norm1 (tmatvec [[2]] [1 + 0]) < 2 * norm2 (tmatvec [[2]] [1 + 0]).
Proof.
  rewrite tmatvec_singleton, norm2_singleton. unfold norm1. simpl.
  rewrite Rabs_right by lra. lra.
Qed.

Lemma pair_example_pmd :
  exists s', PMDInnerLoop.update_view 0 (pair_example PMD) env0 = (Ok tt, s', env0).
Proof.
  destruct (delta_search_slack_value _ _ pair_example_slack) as [Hd Hn].
  unfold pair_example, env0. unfold PMDInnerLoop.update_view. meval.
  rewrite vadd_zeros_singleton. rewrite Hd.
  assert (Hw : norm2 (map (fun x => x / norm2 (tmatvec [[2]] [1 + 0]))
                          (tmatvec [[2]] [1 + 0])) = 1).
  { apply norm2_normalized. pose proof (norm2_nonneg (tmatvec [[2]] [1 + 0])). lra. }
  set (w := map (fun x => x / norm2 (tmatvec [[2]] [1 + 0])) (tmatvec [[2]] [1 + 0])) in *.
  meval. unfold _check_converged_weights.
  destruct (Req_dec_T (norm2 w) 0) as [E|_]; [lra|].
  meval. eexists. reflexivity.
Qed.

Lemma pmd_slack_is_pls_witness :
  scores (fit_attrs (pair_example PMD)) = Some [[1]; [1]] /\
  index (views (fit_attrs (pair_example PMD))) 0 = Ok [[2]] /\
  masked_sum [[1]; [1]] 0 = Ok [1 + 0] /\
  hyper_index (c (hyp (pair_example PMD))) 0 = Ok 2 /\
  norm1 (tmatvec [[2]] [1 + 0]) < 2 * norm2 (tmatvec [[2]] [1 + 0]) /\
  exists s',
    PMDInnerLoop.update_view 0 (pair_example PMD) env0 = (Ok tt, s', env0) /\
    PLSInnerLoop.update_view 0 (pair_example PMD) env0 = (Ok tt, s', env0).
Proof.
  split; [reflexivity|]. split; [reflexivity|]. split; [reflexivity|].
  split; [reflexivity|]. split; [exact pair_example_slack|].
  destruct pair_example_pmd as (s' & Hrun).
  exists s'. split; [exact Hrun|].
  exact (pmd_slack_is_pls 0 (pair_example PMD) env0 s' env0
           [[1]; [1]] [[2]] [1 + 0] 2 eq_refl eq_refl eq_refl eq_refl
           pair_example_slack Hrun).
Defined.

(** ** [ElasticInnerLoop.check_params] *)

Lemma Elastic_check_params_ok s e s' e' :
  ElasticInnerLoop.check_params s e = (Ok tt, s', e') ->
  elastic_validated s s' /\ fit_attrs s' = fit_attrs s /\ e' = e.
Proof.
  intros H. unfold ElasticInnerLoop.check_params in H. run_inv H.
  rename a into cs, a1 into ratios, a3 into ps.
  change (l1_ratio (hyp (set_c cs s))) with (l1_ratio (hyp s)) in E0.
  change (positive (hyp (set_l1_ratio ratios (set_c cs s))))
    with (positive (hyp s)) in E1.
  change (constrained (set_positive ps (set_l1_ratio ratios (set_c cs s))))
    with (constrained s) in Hm.
  pose proof (process_parameter_length _ _ _ _ _ E) as Lc.
  pose proof (process_parameter_length _ _ _ _ _ E0) as Lr.
  pose proof (process_parameter_length _ _ _ _ _ E1) as Lp.
  destruct (constrained s) eqn:Econ.
  - apply modify_ok in Hm. destruct Hm as (-> & ->).
    split; [|split; reflexivity].
    exists cs, ratios, ps.
    split; [exact E|]. split; [exact E0|]. split; [exact E1|].
    split; [reflexivity|]. split; [reflexivity|]. split; [reflexivity|].
    split; [reflexivity|]. split; [rewrite Econ; reflexivity|].
    intros _ i Hi. unfold solver_ready.
    exists (repeat 0 (length (views (fit_attrs s)))), 0. eexists.
    split; [reflexivity|].
    split; [unfold index; rewrite nth_error_repeat by exact Hi; reflexivity|].
    split; [lra|]. split; [reflexivity|].
    rewrite length_map, !length_combine. lia.
  - apply ret_ok in Hm. destruct Hm as (_ & -> & ->).
    split; [|split; reflexivity].
    exists cs, ratios, ps.
    split; [exact E|]. split; [exact E0|]. split; [exact E1|].
    split; [reflexivity|]. split; [reflexivity|]. split; [reflexivity|].
    split; [reflexivity|]. split; [rewrite Econ; reflexivity|].
    intros H. congruence.
Qed.

(** X27: when [ElasticInnerLoop.check_params] passes, [c], [l1_ratio] and
    [positive] are lists of one entry per view, there is one fresh
    estimator per view, chosen from the three entries of the view, and a
    constrained loop has its [gamma] at zero for every view - the state the
    constrained solver starts from.  Nothing else of the object is
    touched. *)
Theorem elastic_check_params_sets_up s e s' e' :
  class_of s = Elastic ->
  check_params s e = (Ok tt, s', e') ->
  elastic_validated s s' /\ fit_attrs s' = fit_attrs s /\ e' = e.
Proof.
  intros Hk H. unfold check_params, bind, get in H. rewrite Hk in H.
  apply Elastic_check_params_ok. exact H.
Qed.

Lemma elastic_example_checked :
  exists s1, check_params elastic_example env0 = (Ok tt, s1, env0).
Proof.
  unfold elastic_example, env0. meval. unfold ElasticInnerLoop.check_params. meval.
  eexists. reflexivity.
Qed.

Lemma elastic_check_params_sets_up_witness :
  class_of elastic_example = Elastic /\
  exists s1,
    check_params elastic_example env0 = (Ok tt, s1, env0) /\
    elastic_validated elastic_example s1 /\
    solver_ready 0 s1.
Proof.
  split; [reflexivity|].
  destruct elastic_example_checked as (s1 & Hrun).
  destruct (elastic_check_params_sets_up elastic_example env0 s1 env0 eq_refl Hrun)
    as (Hval & _ & _).
  exists s1. split; [exact Hrun|]. split; [exact Hval|].
  destruct Hval as (cs & ratios & ps & _ & _ & _ & _ & _ & _ & _ & _ & Hready).
  apply Hready; [reflexivity | simpl; lia].
Defined.


(** ** The estimators, an example *)

Lemma elastic_estimator_choice_witness :
  ElasticInnerLoop.choose_estimator false 1e-5 2 1 0 false = Ridge (1 / INR 2) /\
  (false = false /\ 0 = 0 /\ 1 <> 0 /\ 1 / INR 2 = 1 / INR 2).
Proof.
  assert (H : ElasticInnerLoop.choose_estimator false 1e-5 2 1 0 false = Ridge (1 / INR 2)).
  { unfold ElasticInnerLoop.choose_estimator.
    destruct (Req_dec_T 1 0) as [E|_]; [lra|].
    destruct (Req_dec_T 0 0) as [_|E]; [reflexivity | contradiction]. }
  split; [exact H|].
  destruct (elastic_estimator_choice 1e-5 2 1 0 false) as (_ & _ & _ & Hr).
  exact (Hr _ H).
Defined.

(** ** The objective of the elastic and ADMM loops *)

Lemma penalties_nonneg (cs ratios : list R) :
  Forall (fun c => 0 <= c) cs -> Forall (fun r => 0 <= r <= 1) ratios ->
  Forall (fun x => 0 <= x) (vzip Rmult cs ratios) /\
  Forall (fun x => 0 <= x) (vzip (fun c r => c * (1 - r)) cs ratios).
Proof.
  intros Hc. revert ratios. induction Hc as [|c cs Hc0 Hcs IH]; intros ratios Hr.
  - split; constructor.
  - destruct Hr as [|r ratios Hr0 Hrs]; [split; constructor|].
    destruct (IH ratios Hrs) as [H1 H2].
    split; (constructor; [|assumption]); cbn [fst snd];
      apply Rmult_le_pos; lra.
Qed.

Lemma index_Forall {A} (P : A -> Prop) (l : list A) (i : nat) (a : A) :
  Forall P l -> index l i = Ok a -> P a.
Proof.
  intros H Hi. unfold index in Hi.
  destruct (nth_error l i) as [x|] eqn:E; [|discriminate].
  injection Hi as <-. rewrite Forall_forall in H. apply H.
  eapply nth_error_In. exact E.
Qed.

Lemma objective_fold_nonneg (n : nat) (vs : list matrix) (sc ws : list vec)
      (l1 l2 : list R) :
  Forall (fun x => 0 <= x) l1 -> Forall (fun x => 0 <= x) l2 ->
  forall (l : list nat) (acc : result R) (r : R),
    (forall v, acc = Ok v -> 0 <= v) ->
    fold_left
      (fun total i =>
         total <-r total ;
         target <-r mean_rows sc ;
         view <-r index vs i ;
         w <-r index ws i ;
         objective <-r rdiv (INR n * (norm2 (vsub (matvec view w) target)) ^ 2)
                            (2 * INR (nrows view)) ;
         l1i <-r index l1 i ;
         l2i <-r index l2 i ;
         Ok (total + (objective + l1i * norm1 w + l2i * norm2 w)))
      l acc = Ok r ->
    0 <= r.
Proof.
  intros H1 H2. induction l as [|i l IH]; intros acc r Hacc H.
  - cbn in H. apply Hacc. exact H.
  - cbn [fold_left] in H. eapply IH; [|exact H].
    intros v Hv. clear H IH.
    destruct acc as [t| | |]; try discriminate. cbn [rbind] in Hv.
    destruct (mean_rows sc) as [target| | |]; try discriminate. cbn [rbind] in Hv.
    destruct (index vs i) as [view| | |]; try discriminate. cbn [rbind] in Hv.
    destruct (index ws i) as [w| | |]; try discriminate. cbn [rbind] in Hv.
    unfold rdiv in Hv.
    destruct (Req_dec_T (2 * INR (nrows view)) 0) as [|Hd]; [discriminate|].
    cbn [rbind] in Hv.
    destruct (index l1 i) as [l1i| | |] eqn:E1; try discriminate. cbn [rbind] in Hv.
    destruct (index l2 i) as [l2i| | |] eqn:E2; try discriminate. cbn [rbind] in Hv.
    injection Hv as <-.
    pose proof (Hacc t eq_refl) as Ht.
    pose proof (index_Forall _ _ _ _ H1 E1) as Hl1.
    pose proof (index_Forall _ _ _ _ H2 E2) as Hl2.
    pose proof (norm1_nonneg w) as Hn1. pose proof (norm2_nonneg w) as Hn2.
    pose proof (Rmult_le_pos _ _ Hl1 Hn1). pose proof (Rmult_le_pos _ _ Hl2 Hn2).
    assert (HN : 0 < 2 * INR (nrows view)).
    { pose proof (pos_INR (nrows view)). lra. }
    assert (Hobj : 0 <= INR n * norm2 (vsub (matvec view w) target) ^ 2 /
                        (2 * INR (nrows view))).
    { apply Rmult_le_pos.
      - apply Rmult_le_pos; [apply pos_INR|]. apply pow2_ge_0.
      - apply Rlt_le, Rinv_0_lt_compat. exact HN. }
    lra.
Qed.

(** X28: the objective of the elastic and the ADMM loop - for each view
    the squared distance of its scores from the mean of the scores, scaled
    by the number of views over twice the number of samples, plus the two
    penalties - is never negative when no [c] is negative and every
    [l1_ratio] lies between 0 and 1; computing it changes nothing. *)
Theorem elastic_objective_nonneg s e (obj : R) s' e' (cs ratios : list R) :
  class_of s = Elastic \/ class_of s = ADMM ->
  c (hyp s) = HList cs -> l1_ratio (hyp s) = HList ratios ->
  Forall (fun c => 0 <= c) cs -> Forall (fun r => 0 <= r <= 1) ratios ->
  objective s e = (Ok obj, s', e') ->
  0 <= obj /\ s' = s /\ e' = e.
Proof.
  intros Hk Hc Hr Hcs Hrs H.
  assert (Hel : elastic_cca_objective s e = (Ok obj, s', e')).
  { unfold objective, bind, get in H. destruct Hk as [Hk|Hk]; rewrite Hk in H; exact H. }
  clear H. unfold elastic_cca_objective in Hel. run_inv Hel.
  split; [|split; reflexivity].
  rewrite Hc in E. rewrite Hr in E0. cbn in E, E0.
  injection E as <-. injection E0 as <-.
  destruct (penalties_nonneg cs ratios Hcs Hrs) as [H1 H2].
  eapply objective_fold_nonneg; [exact H1 | exact H2 | | eassumption].
  intros v Hv. injection Hv as <-. lra.
Qed.

Lemma admm_example_objective :
  exists obj, objective admm_example env0 = (Ok obj, admm_example, env0).
Proof.
  unfold admm_example, env0. meval. unfold elastic_cca_objective. meval.
  unfold mean_rows, rdiv. meval.
  destruct (Req_dec_T (2 * INR 1) 0) as [E|_]; [simpl in E; lra|].
  meval. eexists. reflexivity.
Qed.

Lemma elastic_objective_nonneg_witness :
  (class_of admm_example = Elastic \/ class_of admm_example = ADMM) /\
  Forall (fun c => 0 <= c) [0; 0] /\ Forall (fun r => 0 <= r <= 1) [1; 1] /\
  exists obj,
    objective admm_example env0 = (Ok obj, admm_example, env0) /\ 0 <= obj.
Proof.
  assert (Hk : class_of admm_example = Elastic \/
               class_of admm_example = ADMM) by (right; reflexivity).
  assert (Hcs : Forall (fun c => 0 <= c) [0; 0]) by (repeat constructor; lra).
  assert (Hrs : Forall (fun r => 0 <= r <= 1) [1; 1]) by (repeat constructor; lra).
  split; [exact Hk|]. split; [exact Hcs|]. split; [exact Hrs|].
  destruct admm_example_objective as (obj & Hrun).
  exists obj. split; [exact Hrun|].
  exact (proj1 (elastic_objective_nonneg admm_example env0 obj admm_example env0
                  [0; 0] [1; 1] Hk eq_refl eq_refl Hcs Hrs Hrun)).
Defined.

(** ** The default initialisation *)

Lemma initialize_unregularized_start
      (nested : list matrix -> env -> result loop * env) s e :
  initialization s = "unregularized"%string ->
  BaseInnerLoop.initialize nested s e =
  bind (bind (fun s e => let (r, e') := nested (views (fit_attrs s)) e in (r, s, e'))
             (fun unregularized =>
                bind (lift (match scores (fit_attrs unregularized) with
                            | Some sc => Ok sc
                            | None => Raise (AttributeError "scores")
                            end))
                     (fun usc => bind (lift (normalize_rows usc))
                                      (fun sc => modify (set_scores sc)))))
       (fun _ => bind (mapM (fun view => rand (ncols view)) (views (fit_attrs s)))
                      (fun ws => modify (set_weights ws))) s e.
Proof.
  intros Hinit. unfold BaseInnerLoop.initialize.
  unfold bind at 1. unfold get at 1. cbv beta iota. rewrite Hinit.
  unfold bind at 1. unfold get_views at 1. unfold get at 1. cbv beta iota.
  change (String.eqb "unregularized" "random") with false.
  change (String.eqb "unregularized" "uniform") with false.
  change (String.eqb "unregularized" "unregularized") with true.
  cbv beta iota.
  unfold bind at 1. unfold ret at 1. cbv beta iota. reflexivity.
Qed.

Lemma normalize_rows_unit (usc sc : list vec) :
  normalize_rows usc = Ok sc ->
  Forall2 (fun urow row => vdiv urow (norm2 urow) = Ok row) usc sc /\
  Forall (fun row => row <> [] -> norm2 row = 1) sc.
Proof.
  intros H. unfold normalize_rows in H.
  destruct usc as [|u usc]; [discriminate|].
  apply mapR_Forall2 in H.
  assert (H2 : Forall2 (fun urow row => vdiv urow (norm2 urow) = Ok row) (u :: usc) sc).
  { clear -H. induction H; constructor; assumption. }
  split; [exact H2|].
  clear H. induction H2 as [|urow row us rs Hrow Hrest IH]; constructor; [|exact IH].
  intros Hne. eapply vdiv_unit; eassumption.
Qed.

(** X29: with [initialization='unregularized'], the default, [initialize]
    runs the nested fit on the views of the object - in [fit] this is the
    fit of a fresh [PLSInnerLoop] with random initialisation - and takes
    its scores, each divided by its norm, as the scores to start from; the
    weights are drawn at random afterwards.  An error of the nested fit is
    the error of [initialize]. *)
Theorem initialize_unregularized (nested : list matrix -> env -> result loop * env)
        s e :
  initialization s = "unregularized"%string ->
  (forall x e1,
      nested (views (fit_attrs s)) e = (Raise x, e1) ->
      BaseInnerLoop.initialize nested s e = (Raise x, s, e1)) /\
  (forall u e1 usc sc,
      nested (views (fit_attrs s)) e = (Ok u, e1) ->
      scores (fit_attrs u) = Some usc ->
      normalize_rows usc = Ok sc ->
      exists ws,
        BaseInnerLoop.initialize nested s e =
          (Ok tt, set_weights ws (set_scores sc s),
           env_draw (list_sum (map ncols (views (fit_attrs s)))) e1) /\
        Forall2 (fun urow row => vdiv urow (norm2 urow) = Ok row) usc sc /\
        Forall (fun row => row <> [] -> norm2 row = 1) sc) /\
  (forall vs s0 e0,
      exists s1 e1,
        fit vs s0 e0 = fit_body unregularized_fit s1 e1 /\
        views (fit_attrs s1) = vs /\ initialization s1 = initialization s0).
Proof.
  intros Hinit. split; [|split].
  - intros x e1 Hn. rewrite (initialize_unregularized_start nested s e Hinit).
    unfold bind at 1. unfold bind at 1. rewrite Hn. reflexivity.
  - intros u e1 usc sc Hn Hu Hnorm.
    destruct (mapM_rand ncols (views (fit_attrs s)) (set_scores sc s) e1)
      as (ws & Hws & _).
    exists ws. split; [|apply normalize_rows_unit; exact Hnorm].
    rewrite (initialize_unregularized_start nested s e Hinit).
    unfold bind at 1. unfold bind at 1. rewrite Hn. cbv beta iota.
    unfold bind at 1. unfold lift at 1. rewrite Hu. cbv beta iota.
    unfold bind at 1. unfold lift at 1. rewrite Hnorm. cbv beta iota.
    unfold modify at 1. cbv beta iota.
    unfold bind at 1. rewrite Hws. reflexivity.
  - intros vs s0 e0. unfold fit. rewrite fit_at_unfold.
    do 2 eexists. split; [reflexivity|].
    destruct (2 <? length vs)%nat; split; reflexivity.
Qed.

Lemma initialize_unregularized_witness :
  initialization
    (set_views [[[2]]] (new PLS 1 1e-5 false "unregularized"))
    = "unregularized"%string /\
  exists usc sc ws u e1 e2,
    (fun _ e => (Ok (set_scores [[2]] (new PLS 1 1e-5 false "random")), e))
      (views (fit_attrs (set_views [[[2]]]
                           (new PLS 1 1e-5 false "unregularized")))) env0
      = (Ok u, e1) /\
    scores (fit_attrs u) = Some usc /\
    normalize_rows usc = Ok sc /\
    BaseInnerLoop.initialize
      (fun _ e => (Ok (set_scores [[2]] (new PLS 1 1e-5 false "random")), e))
      (set_views [[[2]]] (new PLS 1 1e-5 false "unregularized")) env0 =
      (Ok tt,
       set_weights ws
         (set_scores sc
            (set_views [[[2]]] (new PLS 1 1e-5 false "unregularized"))),
       e2) /\
    Forall (fun row => row <> [] -> norm2 row = 1) sc.
Proof.
  split; [reflexivity|].
  assert (Hnorm : normalize_rows [[2]] = Ok [[1]]).
  { unfold normalize_rows. cbn [mapR]. rewrite vdiv_singleton by lra. reflexivity. }
  destruct (initialize_unregularized
              (fun _ e => (Ok (set_scores [[2]] (new PLS 1 1e-5 false "random")),
                           e))
              (set_views [[[2]]] (new PLS 1 1e-5 false "unregularized"))
              env0 eq_refl) as (_ & H & _).
  destruct (H _ env0 [[2]] [[1]] eq_refl eq_refl Hnorm) as (ws & Hrun & _ & Hunit).
  exists [[2]], [[1]], ws. do 3 eexists.
  split; [reflexivity|]. split; [reflexivity|]. split; [exact Hnorm|].
  split; [exact Hrun | exact Hunit].
Defined.

(** ** The default budget of [ParkhomenkoInnerLoop] *)

Lemma Parkhomenko_check_params_default s e :
  c (hyp s) = HNone -> views (fit_attrs s) <> [] ->
  ParkhomenkoInnerLoop.check_params s e =
  (Raise (TypeError "'<=' not supported between instances of 'list' and 'int'"), s, e).
Proof.
  intros Hc Hv. unfold ParkhomenkoInnerLoop.check_params.
  unfold bind at 1. unfold get_views at 1. unfold get at 1. cbv beta iota.
  unfold bind at 1. unfold get at 1. cbv beta iota. rewrite Hc.
  destruct (views (fit_attrs s)) as [|X vs]; [contradiction|]. reflexivity.
Qed.

(** X30: a [ParkhomenkoInnerLoop] left at its default budget cannot be
    fitted.  The default of [c] is written as the list [[0.0001]]; every
    view is given that list, and the test [c <= 0] then compares a list
    with a number.  With one view or more [fit] ends in [check_params]
    with a [TypeError], before anything is initialised. *)
Theorem parkhomenko_default_budget (vs : list matrix) s e :
  class_of s = Parkhomenko ->
  c (hyp s) = HNone -> vs <> [] ->
  exists s' e',
    fit vs s e =
      (Raise (TypeError "'<=' not supported between instances of 'list' and 'int'"),
       s', e') /\
    scores (fit_attrs s') = scores (fit_attrs s) /\
    weights (fit_attrs s') = weights (fit_attrs s) /\
    track_objective (fit_attrs s') = track_objective (fit_attrs s) /\
    drawn e' = drawn e.
Proof.
  intros Hk Hc Hv.
  destruct (fit_enters vs s e) as (s0 & e0 & Hfit & Ek & Ev & Eh & Es & Ew & Et & Ed).
  exists s0, e0. split; [|repeat split; assumption].
  rewrite Hfit. apply fit_body_check_raises.
  unfold check_params, bind, get. rewrite Ek, Hk.
  apply Parkhomenko_check_params_default; [rewrite Eh; exact Hc | rewrite Ev; exact Hv].
Qed.

Lemma parkhomenko_default_budget_witness :
  class_of (new Parkhomenko 100 1e-5 false "unregularized")
    = Parkhomenko /\
  c (hyp (new Parkhomenko 100 1e-5 false "unregularized")) = HNone /\
  [[[1; 2]]; [[3; 4]]] <> @nil matrix /\
  exists s' e',
    fit [[[1; 2]]; [[3; 4]]] (new Parkhomenko 100 1e-5 false "unregularized") env0 =
      (Raise (TypeError "'<=' not supported between instances of 'list' and 'int'"),
       s', e') /\
    drawn e' = drawn env0.
Proof.
  assert (Hv : [[[1; 2]]; [[3; 4]]] <> @nil matrix) by discriminate.
  split; [reflexivity|]. split; [reflexivity|]. split; [exact Hv|].
  destruct (parkhomenko_default_budget [[[1; 2]]; [[3; 4]]]
              (new Parkhomenko 100 1e-5 false "unregularized") env0
              eq_refl eq_refl Hv)
    as (s' & e' & Hrun & _ & _ & _ & Hd).
  exists s', e'. split; [exact Hrun | exact Hd].
Defined.
